(** * SonicSlice (mp3-cutter): the audio engine, embedded and verified

    Shallow embedding of [services/audioUtils.ts] (slice, join, WAV
    encoding), of the numeric parts of [components/WaveformEditor.tsx]
    (peak reduction, drag resolution) and of the state handlers of
    [App.tsx] (play/pause, cut, rename, delete).

    Numbers.  JavaScript numbers are doubles.  They are embedded as
    rationals ([Q]), the values of the doubles among them: every Float32
    sample is a dyadic rational, and the products with 32767 and 32768
    taken by the encoder are exact in binary64, so on samples the embedding
    loses nothing but NaN and the sign of zero.  Times (seconds) are
    rationals too.  Where a rounded result is floored, which turns an error
    of one unit in the last place into a whole frame, the rounding of
    binary64 is part of the model ([Js.round64]): in the two products
    [time * sampleRate] of the slice and in the quotient behind
    [buffer.duration].  The other operations on times (differences,
    comparisons, the proportions of the pointer) are taken exact.  Integers
    that the source keeps in numbers (frame counts, indices, clock readings)
    are [Z] or [nat]. *)

From Stdlib Require Import ZArith QArith Qround Qminmax Qabs Qpower.
From Stdlib Require Import Lia Lqa Bool.
From Stdlib Require Import String Ascii.
From Stdlib Require DecimalString DecimalZ.
From stdpp Require Import base list.

Local Open Scope Z_scope.

(** ** JavaScript primitives used by the sources *)

Module Js.

(** [a < b] on numbers. *)
Definition ltb (a b : Q) : bool := negb (Qle_bool b a).

(** [a <= b] and [a >= b] on numbers. *)
Definition leb (a b : Q) : bool := Qle_bool a b.
Definition geb (a b : Q) : bool := Qle_bool b a.

(** [Math.max(a, b)] and [Math.min(a, b)]: one of the two arguments. *)
Definition Math_max (a b : Q) : Q := if Qle_bool a b then b else a.
Definition Math_min (a b : Q) : Q := if Qle_bool a b then a else b.

(** [Math.floor] and [Math.ceil], as integers. *)
Definition Math_floor (x : Q) : Z := Qfloor x.
Definition Math_ceil (x : Q) : Z := Qceiling x.

(** [Math.round]: nearest integer, halves towards +infinity. *)
Definition Math_round (x : Q) : Z := Qfloor (x + (1 # 2)).

(** Truncation towards zero, the first step of [ToInt32]. *)
Definition truncate (x : Q) : Z := Z.quot (Qnum x) (Z.pos (Qden x)).

(** [ToInt32]: reduction modulo 2^32 into [-2^31, 2^31). *)
Definition ToInt32 (z : Z) : Z := (z + 2 ^ 31) mod 2 ^ 32 - 2 ^ 31.

(** [x | 0]. *)
Definition bitor0 (x : Q) : Z := ToInt32 (truncate x).

(** [v || 0] for a typed-array read: [undefined] (an index outside the
    array) and zero are falsy, every other number is kept. *)
Definition or_zero (v : option Q) : Q :=
  match v with
  | Some x => if Qeq_bool x 0 then 0%Q else x
  | None => 0%Q
  end.

(** Typed-array read [a[k]] at an integer index: [undefined] when [k] is
    negative or not below the length. *)
Definition read (a : list Q) (k : Z) : option Q :=
  if k <? 0 then None else a !! Z.to_nat k.

(** *** Binary64 rounding

    The result of an arithmetic operation on doubles is the exact result
    rounded to the nearest double, the one with the even significand when
    two are equally near.  [round64] is that rounding for significands of
    53 bits.  The exponent is not bounded: [round64] is the rounding of
    binary64 for magnitudes from [2^-1022] up to [2^1024]; underflow and
    the overflow to [Infinity] are outside the model. *)

(** [floor (log2 q)] for a positive [q]: the quotient of the bit lengths,
    corrected by one comparison. *)
Definition ilog2 (q : Q) : Z :=
  let k := Z.log2 (Qnum q) - Z.log2 (Z.pos (Qden q)) in
  if Qle_bool (2 ^ k)%Q q then k else k - 1.

(** The nearest integer, the even one of two that are equally near. *)
Definition roundHalfEven (x : Q) : Z :=
  let f := Qfloor x in
  match (x - inject_Z f ?= 1 # 2)%Q with
  | Lt => f
  | Gt => f + 1
  | Eq => if Z.even f then f else f + 1
  end.

(** The unit in the last place of a 53-bit significand at the magnitude of
    [q]. *)
Definition ulp (q : Q) : Q := (2 ^ (ilog2 (Qabs (Qred q)) - 52))%Q.

Definition round64 (q : Q) : Q :=
  (inject_Z (roundHalfEven (Qred q / ulp q)) * ulp q)%Q.

(** [x * y] and [x / y] on doubles. *)
Definition mul64 (x y : Q) : Q := round64 (x * y).
Definition div64 (x y : Q) : Q := round64 (x / y).

End Js.

(** ** Exceptions of the host and a small error monad *)

Inductive exn : Type :=
| NotSupportedError   (* createBuffer: degenerate shape *)
| IndexSizeError      (* getChannelData: no such channel *)
| RangeError.         (* typed array / DataView: write past the end *)

Inductive result (A : Type) : Type :=
| Ok (a : A)
| Throw (e : exn).
Arguments Ok {A} a.
Arguments Throw {A} e.

Definition bind {A B : Type} (c : result A) (k : A -> result B) : result B :=
  match c with
  | Ok a => k a
  | Throw e => Throw e
  end.

Notation "'let*' x ':=' c 'in' k" := (bind c (fun x => k))
  (at level 10, x name, c at level 100, k at level 200).
Notation "'let*' ' p ':=' c 'in' k" :=
  (bind c (fun x => let 'p := x in k))
  (at level 10, p pattern, c at level 100, k at level 200).

(** A loop whose body may throw: the first exception ends it. *)
Fixpoint foldM {A S : Type} (body : S -> A -> result S) (xs : list A) (s : S)
  : result S :=
  match xs with
  | [] => Ok s
  | x :: xs' => let* s' := body s x in foldM body xs' s'
  end.

(** ** The host's AudioBuffer *)

Record AudioBuffer : Type := mkBuffer {
  sampleRate : Z;                 (* Hz *)
  frameLength : nat;              (* [buffer.length]: frames per channel *)
  channels : list (list Q)        (* one Float32Array per channel *)
}.

Definition numberOfChannels (b : AudioBuffer) : nat := length (channels b).

(** [buffer.duration], in seconds: the host's attribute, the double
    nearest to [length / sampleRate]. *)
Definition duration (b : AudioBuffer) : Q :=
  Js.div64 (inject_Z (Z.of_nat (frameLength b))) (inject_Z (sampleRate b)).

(** Modelled from the spec: the host's buffer constructor
    [context.createBuffer(numberOfChannels, length, sampleRate)], which is
    not part of the sources (section 4.1: all samples silent; channel count
    0 or a frame count that is not positive is refused). *)
Definition createBuffer (nChannels : nat) (len : Z) (rate : Z)
  : result AudioBuffer :=
  if (nChannels =? 0)%nat || (len <=? 0) then Throw NotSupportedError
  else Ok {| sampleRate := rate;
             frameLength := Z.to_nat len;
             channels := replicate nChannels (replicate (Z.to_nat len) 0%Q) |}.

(** [buffer.getChannelData(i)]. *)
Definition getChannelData (b : AudioBuffer) (i : nat) : result (list Q) :=
  match channels b !! i with
  | Some c => Ok c
  | None => Throw IndexSizeError
  end.

(** The array returned by [getChannelData] is a view of the buffer: what
    is written through it lands in the buffer's channel [i]. *)
Definition storeChannel (b : AudioBuffer) (i : nat) (c : list Q) : AudioBuffer :=
  {| sampleRate := sampleRate b;
     frameLength := frameLength b;
     channels := <[i := c]> (channels b) |}.

(** [target.set(source, offset)] on typed arrays. *)
Definition typed_set {A : Type} (target source : list A) (offset : nat)
  : result (list A) :=
  if (length target <? offset + length source)%nat then Throw RangeError
  else Ok (take offset target ++ source ++ drop (offset + length source) target).

(** What the decoder hands over and every transform preserves: a positive
    rate, at least one channel, at least one frame, channels of equal
    length. *)
Definition wf_buffer (b : AudioBuffer) : Prop :=
  0 < sampleRate b /\
  (0 < frameLength b)%nat /\
  (0 < numberOfChannels b)%nat /\
  Forall (fun c => length c = frameLength b) (channels b).

(** ** services/audioUtils.ts *)

Module AudioUtils.
Import Js.

(** The conversion of one sample inside [bufferToWav]'s loop:
<<
    sample = Math.max(-1, Math.min(1, channels[i][pos])); // clamp
    sample = (0.5 + sample < 0 ? sample * 32768 : sample * 32767) | 0;
>>
    [0.5 + sample < 0] parses as [(0.5 + sample) < 0]. *)
Definition clampSample (x : Q) : Q := Math_max (-1) (Math_min 1 x).

Definition scaleSample (sample : Q) : Z :=
  bitor0 (if ltb ((1 # 2) + sample) 0
          then (sample * 32768)%Q
          else (sample * 32767)%Q).

Definition encodeSample (x : Q) : Z := scaleSample (clampSample x).

(** The conversion as the specification words it: clamp, scale by 32767
    when non-negative and by 32768 when negative, truncate towards zero. *)
Definition spec_encodeSample (x : Q) : Z :=
  let c := clampSample x in
  truncate (if leb 0 c then (c * 32767)%Q else (c * 32768)%Q).

(** [sliceAudioBuffer(buffer, start, end, context)]. *)
Definition sliceAudioBuffer (buffer : AudioBuffer) (start end_ : Q)
  : result AudioBuffer :=
  let sampleRate := sampleRate buffer in
  let startSample := Math_floor (mul64 start (inject_Z sampleRate)) in
  let endSample := Math_floor (mul64 end_ (inject_Z sampleRate)) in
  let frameCount := endSample - startSample in
  if frameCount <=? 0 then
    (* Return empty small buffer to prevent crash *)
    createBuffer (numberOfChannels buffer) 1 sampleRate
  else
    let* newBuffer :=
      createBuffer (numberOfChannels buffer) frameCount sampleRate in
    foldM (fun newBuffer i =>
             let* channelData := getChannelData buffer i in
             let* newChannelData := getChannelData newBuffer i in
             Ok (storeChannel newBuffer i
                   (fold_left
                      (fun ncd j =>
                         <[j := or_zero
                                  (read channelData (startSample + Z.of_nat j))]>
                           ncd)
                      (seq 0 (Z.to_nat frameCount)) newChannelData)))
          (seq 0 (numberOfChannels buffer)) newBuffer.

(** Closed form of the copy loop for one channel: [n] samples from
    [startSample] on, silence where the source has none. *)
Definition sliceChannel (c : list Q) (startSample : Z) (n : nat) : list Q :=
  map (fun j => or_zero (read c (startSample + Z.of_nat j))) (seq 0 n).

(** Closed form of [sliceAudioBuffer]'s result. *)
Definition sliceResult (b : AudioBuffer) (s e : Q) : AudioBuffer :=
  let a := Math_floor (mul64 s (inject_Z (sampleRate b))) in
  let z := Math_floor (mul64 e (inject_Z (sampleRate b))) in
  if z - a <=? 0
  then mkBuffer (sampleRate b) 1 (replicate (numberOfChannels b) [0%Q])
  else mkBuffer (sampleRate b) (Z.to_nat (z - a))
                (map (fun c => sliceChannel c a (Z.to_nat (z - a)))
                     (channels b)).

(** [Math.max(...buffers.map(b => b.numberOfChannels))]; the list is not
    empty where it is used, so the neutral element is never the answer. *)
Definition maxChannels (buffers : list AudioBuffer) : nat :=
  fold_right Nat.max 0%nat (map numberOfChannels buffers).

(** [buffers.reduce((acc, b) => acc + b.length, 0)]. *)
Definition totalLength (buffers : list AudioBuffer) : nat :=
  fold_left (fun acc b => (acc + frameLength b)%nat) buffers 0%nat.

(** The body of [buffers.forEach] for output channel [i]: the state is the
    output channel and the running [offset]. *)
Definition joinStep (i : nat) (st : list Q * nat) (buffer : AudioBuffer)
  : result (list Q * nat) :=
  let '(channelData, offset) := st in
  let* sourceChannel :=
    (if (i <? numberOfChannels buffer)%nat
     then getChannelData buffer i
     else getChannelData buffer 0) in
  let* channelData' := typed_set channelData sourceChannel offset in
  Ok (channelData', (offset + frameLength buffer)%nat).

(** [joinAudioBuffers(buffers, context)]. *)
Definition joinAudioBuffers (buffers : list AudioBuffer) : result AudioBuffer :=
  match buffers with
  | [] => createBuffer 1 1 44100
  | first :: _ =>
      let numberOfChannels := maxChannels buffers in
      let totalLength := totalLength buffers in
      let sampleRate := sampleRate first in
      let* newBuffer :=
        createBuffer numberOfChannels (Z.of_nat totalLength) sampleRate in
      foldM (fun newBuffer i =>
               let* channelData := getChannelData newBuffer i in
               let* ' (channelData', _) :=
                 foldM (joinStep i) buffers (channelData, 0%nat) in
               Ok (storeChannel newBuffer i channelData'))
            (seq 0 numberOfChannels) newBuffer
  end.

(** The channel of [buffer] that [joinStep] copies into output channel
    [i]. *)
Definition sourceChannel (i : nat) (b : AudioBuffer) : list Q :=
  match channels b !! (if (i <? numberOfChannels b)%nat then i else 0%nat) with
  | Some c => c
  | None => []
  end.

(** Closed form of [joinAudioBuffers]' result on a list that starts with
    [first]. *)
Definition joinResult (first : AudioBuffer) (bs : list AudioBuffer)
  : AudioBuffer :=
  mkBuffer (sampleRate first) (sum_list (map frameLength bs))
           (map (fun i => concat (map (sourceChannel i) bs))
                (seq 0 (maxChannels bs))).

(** *** bufferToWav *)

(** The [n] low bytes of [data], least significant first. *)
Definition le_bytes (n : nat) (data : Z) : list Z :=
  map (fun k => (data / 2 ^ (8 * Z.of_nat k)) mod 256) (seq 0 n).

(** The [DataView] with the closure variable [pos] the header helpers
    advance. *)
Definition writer : Type := (list Z * nat)%type.

Definition setUint16 (w : writer) (data : Z) : result writer :=
  let* view := typed_set (fst w) (le_bytes 2 data) (snd w) in
  Ok (view, (snd w + 2)%nat).

Definition setUint32 (w : writer) (data : Z) : result writer :=
  let* view := typed_set (fst w) (le_bytes 4 data) (snd w) in
  Ok (view, (snd w + 4)%nat).

(** [view.setInt16(byteOffset, value, true)]. *)
Definition setInt16 (view : list Z) (byteOffset : nat) (value : Z)
  : result (list Z) :=
  typed_set view (le_bytes 2 value) byteOffset.

Definition writeHeader (buffer : AudioBuffer) (length : nat) (w : writer)
  : result writer :=
  let numOfChan := Z.of_nat (numberOfChannels buffer) in
  let* w := setUint32 w 0x46464952 in                 (* "RIFF" *)
  let* w := setUint32 w (Z.of_nat length - 8) in      (* file length - 8 *)
  let* w := setUint32 w 0x45564157 in                 (* "WAVE" *)
  let* w := setUint32 w 0x20746d66 in                 (* "fmt " chunk *)
  let* w := setUint32 w 16 in                         (* length = 16 *)
  let* w := setUint16 w 1 in                          (* PCM *)
  let* w := setUint16 w numOfChan in
  let* w := setUint32 w (sampleRate buffer) in
  let* w := setUint32 w (sampleRate buffer * 2 * numOfChan) in
  let* w := setUint16 w (numOfChan * 2) in            (* block-align *)
  let* w := setUint16 w 16 in                         (* 16-bit *)
  let* w := setUint32 w 0x61746164 in                 (* "data" chunk *)
  setUint32 w (Z.of_nat length - Z.of_nat (snd w) - 4).

(** One sample of the interleaving loop.  [channels[i]] exists for every
    [i] the loop visits; a read outside the channel is [undefined], which
    the arithmetic turns into NaN and [| 0] into 0. *)
Definition writeSample (channels : list (list Q)) (pos : nat)
    (st : list Z * nat) (i : nat) : result (list Z * nat) :=
  let '(view, offset) := st in
  let sample :=
    match channels !! i with
    | Some c => match c !! pos with
                | Some x => encodeSample x
                | None => 0
                end
    | None => 0
    end in
  let* view' := setInt16 view (44 + offset) sample in
  Ok (view', (offset + 2)%nat).

Record Blob : Type := mkBlob { bytes : list Z; type : string }.

(** [bufferToWav(buffer)].  The frame index of the data loop is the
    variable [pos] the header helpers have advanced: the loop
    [while (pos < buffer.length) { ...; pos++ }] runs over the frames
    from the value [pos] has after the header. *)
Definition bufferToWav (buffer : AudioBuffer) : result Blob :=
  let numOfChan := numberOfChannels buffer in
  let length := (frameLength buffer * numOfChan * 2 + 44)%nat in
  let view := replicate length 0 in
  let* ' (view, pos) := writeHeader buffer length (view, 0%nat) in
  let channels := channels buffer in
  let* ' (view, _) :=
    foldM (fun st pos => foldM (writeSample channels pos) (seq 0 numOfChan) st)
          (seq pos (frameLength buffer - pos)) (view, 0%nat) in
  Ok {| bytes := view; type := "audio/wav" |}.

(** Closed forms of what [bufferToWav] writes: the 44 header bytes, the
    sample the loop stores for channel [i] of frame [p], the bytes of one
    interleaved frame, and the bytes of the frames the data loop visits
    (it starts at the frame index the header has left in [pos], 44). *)
Definition wavHeader (b : AudioBuffer) : list Z :=
  let numOfChan := Z.of_nat (numberOfChannels b) in
  let length := Z.of_nat (frameLength b * numberOfChannels b * 2 + 44) in
  le_bytes 4 0x46464952 ++ le_bytes 4 (length - 8) ++ le_bytes 4 0x45564157
  ++ le_bytes 4 0x20746d66 ++ le_bytes 4 16 ++ le_bytes 2 1
  ++ le_bytes 2 numOfChan ++ le_bytes 4 (sampleRate b)
  ++ le_bytes 4 (sampleRate b * 2 * numOfChan) ++ le_bytes 2 (numOfChan * 2)
  ++ le_bytes 2 16 ++ le_bytes 4 0x61746164 ++ le_bytes 4 (length - 40 - 4).

Definition sampleAt (channels : list (list Q)) (pos i : nat) : Z :=
  match channels !! i with
  | Some c => match c !! pos with
              | Some x => encodeSample x
              | None => 0
              end
  | None => 0
  end.

Definition frameBytes (b : AudioBuffer) (pos : nat) : list Z :=
  concat (map (fun i => le_bytes 2 (sampleAt (channels b) pos i))
              (seq 0 (numberOfChannels b))).

Definition wavData (b : AudioBuffer) : list Z :=
  concat (map (frameBytes b) (seq 44 (frameLength b - 44))).

End AudioUtils.

(** ** types.ts *)

Record AudioFile : Type := mkAudioFile {
  file_name : string;
  file_buffer : AudioBuffer;
  file_duration : Q
}.

Record Clip : Type := mkClip {
  id : string;
  name : string;
  buffer : AudioBuffer;
  blob : option AudioUtils.Blob
}.

(** [Selection]: [start] and [end], in seconds. *)
Record Selection : Type := mkSelection {
  start : Q;
  end_ : Q
}.

(** ** components/WaveformEditor.tsx *)

Module WaveformEditor.
Import Js.

(** The inner loop of the waveform drawing for pixel column [i]:
<<
    let min = 1.0; let max = -1.0;
    for (let j = 0; j < step; j++) {
      const datum = data[(i * step) + j];
      if (datum < min) min = datum;
      if (datum > max) max = datum;
    }
>>
    A read past the end is [undefined]; both comparisons are then false. *)
Definition peakStep (data : list Q) (i step : nat) (acc : Q * Q) (j : nat)
  : Q * Q :=
  let '(min, max) := acc in
  match data !! (i * step + j)%nat with
  | Some datum =>
      let min := if ltb datum min then datum else min in
      let max := if ltb max datum then datum else max in
      (min, max)
  | None => (min, max)
  end.

(** One sample folded into a running (min, max): the two [if]s. *)
Definition peakOf (acc : Q * Q) (datum : Q) : Q * Q :=
  (if ltb datum (fst acc) then datum else fst acc,
   if ltb (snd acc) datum then datum else snd acc).

Definition columnPeak (data : list Q) (step i : nat) : Q * Q :=
  fold_left (peakStep data i step) (seq 0 step) (1%Q, (-1)%Q).

(** [Math.ceil(data.length / containerWidth)]. *)
Definition stepOf (len containerWidth : nat) : nat :=
  Z.to_nat (Math_ceil (inject_Z (Z.of_nat len)
                       / inject_Z (Z.of_nat containerWidth))).

(** The (min, max) pairs of the columns [0 .. containerWidth - 1]; the
    effect returns before drawing when [containerWidth] is 0. *)
Definition peaks (data : list Q) (containerWidth : nat) : list (Q * Q) :=
  if (containerWidth =? 0)%nat then []
  else
    let step := stepOf (length data) containerWidth in
    map (columnPeak data step) (seq 0 containerWidth).

(** The rectangle drawn for a column: [y] and [h] with [amp = height/2]. *)
Definition columnRect (amp : Q) (p : Q * Q) : Q * Q :=
  let '(min, max) := p in
  (((1 + min) * amp)%Q, Math_max 1 ((max - min) * amp)%Q).

Inductive Handle : Type := DragStart | DragEnd.

(** [getPointerTime]: [x] is the pointer's offset in the container,
    clamped to its width. *)
Definition getPointerTime (audioFile : option AudioFile)
    (clientX left width : Q) : Q :=
  match audioFile with
  | None => 0%Q
  | Some f =>
      let x := Math_max 0 (Math_min (clientX - left) width) in
      ((x / width) * file_duration f)%Q
  end.

Definition minDuration : Q := 1 # 10.

(** [handlePointerMove], from the pointer time on: the selection handed
    to [onSelectionChange], or [None] when the handler returns early. *)
Definition handlePointerMove (isDragging : option Handle)
    (audioFile : option AudioFile) (selection : Selection) (time : Q)
  : option Selection :=
  match isDragging, audioFile with
  | None, _ | _, None => None
  | Some DragStart, Some _ =>
      let newStart := Math_max 0 time in
      let newStart :=
        if geb newStart (end_ selection - minDuration)
        then (end_ selection - minDuration)%Q else newStart in
      Some {| start := newStart; end_ := end_ selection |}
  | Some DragEnd, Some f =>
      let newEnd := Math_min (file_duration f) time in
      let newEnd :=
        if leb newEnd (start selection + minDuration)
        then (start selection + minDuration)%Q else newEnd in
      Some {| start := start selection; end_ := newEnd |}
  end.

(** [Math.abs]. *)
Definition Math_abs (x : Q) : Q := if ltb x 0 then (- x)%Q else x.

(** What a press on the editor starts: a drag of one handle, or a seek. *)
Inductive Press : Type :=
| Grab (h : Handle)
| SeekTo (time : Q).

(** [handlePointerDown], from the pointer time on; [None] when no file is
    loaded.  [0.05] is 1/20. *)
Definition handlePointerDown (audioFile : option AudioFile)
    (containerWidth : Q) (selection : Selection) (time : Q) : option Press :=
  match audioFile with
  | None => None
  | Some f =>
      let duration := file_duration f in
      (* ~5% tolerance or min 10px worth of time *)
      let tolerance :=
        Math_max (duration * (5 # 100)) ((10 / containerWidth) * duration) in
      if ltb (Math_abs (time - start selection)) tolerance then
        Some (Grab DragStart)
      else if ltb (Math_abs (time - end_ selection)) tolerance then
        Some (Grab DragEnd)
      else Some (SeekTo time)
  end.

(** The invariants of a selection over a file of the given duration. *)
Definition validSelection (duration : Q) (sel : Selection) : Prop :=
  (0 <= start sel /\ start sel + minDuration <= end_ sel
   /\ end_ sel <= duration)%Q.




End WaveformEditor.

(** ** App.tsx *)

Module App.
Import Js AudioUtils.

(** The source node started by [playAudio], with the range handed to
    [source.start(0, offset, duration)]. *)
Record SourceNode : Type := mkSource {
  src_offset : Q;
  src_duration : Q
}.

(** React state, refs, and the log of downloads triggered so far. *)
Record State : Type := mkState {
  mainAudio : option AudioFile;
  isPlaying : bool;
  currentTime : Q;
  selection : Selection;
  clips : list Clip;
  sourceNodeRef : option SourceNode;
  startTimeRef : Q;
  pauseTimeRef : Q;
  animationFrameRef : bool;        (* a frame callback is scheduled *)
  downloads : list (string * Blob)
}.

Definition initialState : State :=
  {| mainAudio := None; isPlaying := false; currentTime := 0;
     selection := {| start := 0; end_ := 10 |}; clips := [];
     sourceNodeRef := None; startTimeRef := 0; pauseTimeRef := 0;
     animationFrameRef := false; downloads := [] |}.

(** The setters of [useState] and the assignments to [ref.current]. *)
Definition setMainAudio (v : option AudioFile) (st : State) : State :=
  mkState v (isPlaying st) (currentTime st) (selection st) (clips st)
          (sourceNodeRef st) (startTimeRef st) (pauseTimeRef st)
          (animationFrameRef st) (downloads st).
Definition setIsPlaying (v : bool) (st : State) : State :=
  mkState (mainAudio st) v (currentTime st) (selection st) (clips st)
          (sourceNodeRef st) (startTimeRef st) (pauseTimeRef st)
          (animationFrameRef st) (downloads st).
Definition setCurrentTime (v : Q) (st : State) : State :=
  mkState (mainAudio st) (isPlaying st) v (selection st) (clips st)
          (sourceNodeRef st) (startTimeRef st) (pauseTimeRef st)
          (animationFrameRef st) (downloads st).
Definition setSelection (v : Selection) (st : State) : State :=
  mkState (mainAudio st) (isPlaying st) (currentTime st) v (clips st)
          (sourceNodeRef st) (startTimeRef st) (pauseTimeRef st)
          (animationFrameRef st) (downloads st).
Definition setClips (v : list Clip) (st : State) : State :=
  mkState (mainAudio st) (isPlaying st) (currentTime st) (selection st) v
          (sourceNodeRef st) (startTimeRef st) (pauseTimeRef st)
          (animationFrameRef st) (downloads st).
Definition setSourceNodeRef (v : option SourceNode) (st : State) : State :=
  mkState (mainAudio st) (isPlaying st) (currentTime st) (selection st)
          (clips st) v (startTimeRef st) (pauseTimeRef st)
          (animationFrameRef st) (downloads st).
Definition setStartTimeRef (v : Q) (st : State) : State :=
  mkState (mainAudio st) (isPlaying st) (currentTime st) (selection st)
          (clips st) (sourceNodeRef st) v (pauseTimeRef st)
          (animationFrameRef st) (downloads st).
Definition setPauseTimeRef (v : Q) (st : State) : State :=
  mkState (mainAudio st) (isPlaying st) (currentTime st) (selection st)
          (clips st) (sourceNodeRef st) (startTimeRef st) v
          (animationFrameRef st) (downloads st).
Definition setAnimationFrameRef (v : bool) (st : State) : State :=
  mkState (mainAudio st) (isPlaying st) (currentTime st) (selection st)
          (clips st) (sourceNodeRef st) (startTimeRef st) (pauseTimeRef st)
          v (downloads st).
(** The hidden anchor that is clicked: one more download. *)
Definition addDownload (d : string * Blob) (st : State) : State :=
  mkState (mainAudio st) (isPlaying st) (currentTime st) (selection st)
          (clips st) (sourceNodeRef st) (startTimeRef st) (pauseTimeRef st)
          (animationFrameRef st) (downloads st ++ [d]).

(** Handlers are closures of one render: [cl] is the state they captured
    ([currentTime], [selection], [clips], ...), [st] the state they
    update; refs are read from [st]. *)

Definition stopAudio (cl st : State) : State :=
  let st := setSourceNodeRef None st in       (* stop, disconnect, null *)
  let st := setAnimationFrameRef false st in  (* cancelAnimationFrame *)
  let st := setIsPlaying false st in
  (* Save current time for resume *)
  setPauseTimeRef (currentTime cl) st.

(** One tick of the animation loop [update] of [playAudio]; [now] is
    [audioContext.currentTime]. *)
Definition update (cl : State) (now : Q) (st : State) : State :=
  let trackTime := (now - startTimeRef st)%Q in
  if geb trackTime (end_ (selection cl)) then
    stopAudio cl (setCurrentTime (start (selection cl)) st)
  else
    setAnimationFrameRef true (setCurrentTime trackTime st).

(** [playAudio(offset)]; the audio clock reads [now] during the call. *)
Definition playAudio (cl : State) (now : Q) (offset : Q) (st : State) : State :=
  match mainAudio cl with
  | None => st
  | Some _ =>
      (* Play strictly within selection for previewing the cut *)
      let startPos :=
        if ltb offset (start (selection cl)) || geb offset (end_ (selection cl))
        then start (selection cl) else offset in
      let duration := (end_ (selection cl) - startPos)%Q in
      (* source.start(0, startPos, duration) *)
      let source := {| src_offset := startPos; src_duration := duration |} in
      let st := setStartTimeRef (now - startPos)%Q st in
      let st := setSourceNodeRef (Some source) st in
      let st := setIsPlaying true st in
      update cl now st
  end.

Definition togglePlayPause (cl : State) (now : Q) (st : State) : State :=
  if isPlaying cl then stopAudio cl st
  else
    (* If we are at the end of selection, restart from start of selection *)
    let start0 := currentTime cl in
    let start0 :=
      if geb start0 (end_ (selection cl)) || ltb start0 (start (selection cl))
      then start (selection cl) else start0 in
    playAudio cl now start0 st.

Definition handleSeek (cl : State) (time : Q) (st : State) : State :=
  let st := stopAudio cl st in
  let st := setCurrentTime time st in
  setPauseTimeRef time st.

(** [reader.onload] of [handleFileUpload], once the decoder has returned
    [decodedBuffer]. *)
Definition fileLoaded (cl : State) (fileName : string)
    (decodedBuffer : AudioBuffer) (st : State) : State :=
  let st := setMainAudio
              (Some {| file_name := fileName;
                       file_buffer := decodedBuffer;
                       file_duration := duration decodedBuffer |}) st in
  let st := setSelection
              {| start := 0;
                 end_ := Math_min (duration decodedBuffer) 15 |} st in
  let st := setCurrentTime 0 st in
  let st := setPauseTimeRef 0 st in
  stopAudio cl st.

(** The "Change File" button. *)
Definition changeFile (cl : State) (st : State) : State :=
  stopAudio cl (setMainAudio None st).

(** [Date.now().toString()]: the decimal rendering of an integer. *)
Definition toString (n : Z) : string :=
  DecimalString.NilEmpty.string_of_int (Z.to_int n).

(** [s.split('.')[0]]: the part before the first dot. *)
Fixpoint beforeDot (s : string) : string :=
  match s with
  | EmptyString => EmptyString
  | String c rest =>
      if Ascii.eqb c "."%char then EmptyString else String c (beforeDot rest)
  end.

(** [s.replace(/:/g, '-')]. *)
Fixpoint colonsToDashes (s : string) : string :=
  match s with
  | EmptyString => EmptyString
  | String c rest =>
      String (if Ascii.eqb c ":"%char then "-"%char else c)
             (colonsToDashes rest)
  end.

(** [handleCut]; [iso] is [new Date().toISOString()] and [now] is
    [Date.now()], both read from the host clock. *)
Definition handleCut (cl : State) (iso : string) (now : Z) (st : State)
  : result State :=
  match mainAudio cl with
  | None => Ok st
  | Some audio =>
      let* newBuffer :=
        sliceAudioBuffer (file_buffer audio)
                         (start (selection cl)) (end_ (selection cl)) in
      let* blob := bufferToWav newBuffer in
      let timestamp := colonsToDashes (substring 11 8 iso) in
      let originalName := beforeDot (file_name audio) in
      let newName := (originalName ++ "_cut_" ++ timestamp)%string in
      let st := addDownload ((newName ++ ".wav")%string, blob) st in
      let newClip :=
        {| id := toString now; name := newName;
           buffer := newBuffer; blob := Some blob |} in
      Ok (setClips (clips st ++ [newClip]) st)
  end.

Definition handleJoin (cl : State) (now : Z) (st : State) : result State :=
  if (length (clips cl) <? 2)%nat then Ok st
  else
    let buffers := map buffer (clips cl) in
    let* joinedBuffer := joinAudioBuffers buffers in
    let* blob := bufferToWav joinedBuffer in
    Ok (addDownload (("Joined_Mix_" ++ toString now ++ ".wav")%string, blob) st).

(** [clips.filter(c => c.id !== id)] and
    [clips.map(c => c.id === id ? { ...c, name } : c)]. *)
Definition deleteFrom (cs : list Clip) (i : string) : list Clip :=
  List.filter (fun c => negb (String.eqb (id c) i)) cs.

Definition renameIn (cs : list Clip) (i : string) (n : string) : list Clip :=
  map (fun c =>
         if String.eqb (id c) i
         then {| id := id c; name := n; buffer := buffer c; blob := blob c |}
         else c) cs.

Definition deleteClip (cl : State) (i : string) (st : State) : State :=
  setClips (deleteFrom (clips cl) i) st.

Definition renameClip (cl : State) (i : string) (n : string) (st : State)
  : State :=
  setClips (renameIn (clips cl) i n) st.

(** *** The application as a transition system

    What the user and the host can make happen, with the clock readings the
    handlers take.  A handler fired by the page (a click, a drag, typing)
    is the one of the latest render: its closure is the current state.  A
    callback that runs later (the file reader, an animation frame, the
    delayed rename of the naming assistant) keeps the closure of the render
    that created it: such an event names that render by its position [k]
    in the history of states.  An exception leaves the state as it was (no
    setter has run yet where one can be thrown). *)
Inductive Event : Type :=
| FileLoaded (k : nat) (fileName : string) (decodedBuffer : AudioBuffer)
| ChangeFile
| SelectionChange (s : Selection)
| Seek (time : Q)
| PlayPause (now : Q)
| Tick (k : nat) (now : Q)
| Ended
| Cut (iso : string) (now : Z)
| Join (now : Z)
| Rename (i n : string)
| SmartRename (k : nat) (i n : string)
| Delete (i : string).

Definition orElse (st : State) (r : result State) : State :=
  match r with
  | Ok st' => st'
  | Throw _ => st
  end.

(** The state captured by the render at position [k] of the history
    [past ++ [st]]. *)
Definition closure (past : list State) (st : State) (k : nat) : State :=
  match (past ++ [st]) !! k with
  | Some cl => cl
  | None => st
  end.

Definition step (past : list State) (st : State) (e : Event) : State :=
  match e with
  | FileLoaded k fileName decodedBuffer =>
      fileLoaded (closure past st k) fileName decodedBuffer st
  | ChangeFile => changeFile st st
  | SelectionChange s => setSelection s st
  | Seek time => handleSeek st time st
  | PlayPause now => togglePlayPause st now st
  | Tick k now =>
      if animationFrameRef st then update (closure past st k) now st else st
  | Ended => setIsPlaying false st
  | Cut iso now => orElse st (handleCut st iso now st)
  | Join now => orElse st (handleJoin st now st)
  | Rename i n => renameClip st i n st
  | SmartRename k i n => renameClip (closure past st k) i n st
  | Delete i => deleteClip st i st
  end.

Fixpoint exec (past : list State) (st : State) (events : list Event) : State :=
  match events with
  | [] => st
  | e :: events' => exec (past ++ [st]) (step past st e) events'
  end.

Definition run (events : list Event) (st : State) : State :=
  exec [] st events.

(** The [Date.now()] reading of a cut, and the readings of the cuts of a
    trace, in order. *)
Definition cutTime (e : Event) : option Z :=
  match e with Cut _ now => Some now | _ => None end.

Definition cutTimes (events : list Event) : list Z := omap cutTime events.

(** The ways a step can leave the registry: as it is, with one clip
    appended by a cut, as the renaming of the registry some render saw, or
    with the clips of one identifier deleted. *)
Inductive registryChange (now : option Z) (past : list State) (st : State)
    (after : list Clip) : Prop :=
| rc_same : after = clips st -> registryChange now past st after
| rc_append c t :
    now = Some t -> after = clips st ++ [c] -> id c = toString t ->
    registryChange now past st after
| rc_rename cl i n :
    cl ∈ past ++ [st] -> after = renameIn (clips cl) i n ->
    registryChange now past st after
| rc_delete i : after = deleteFrom (clips st) i -> registryChange now past st after.

(** Every identifier of [cs] is the rendering of one of the readings [ts],
    and no two clips of [cs] share one. *)
Definition idsFrom (ts : list Z) (cs : list Clip) : Prop :=
  NoDup (map id cs) /\
  forall s, s ∈ map id cs -> exists t, t ∈ ts /\ s = toString t.

(** The position [togglePlayPause] and [playAudio] settle on for a
    cursor [cur]. *)
Definition resolved (sel : Selection) (cur : Q) : Q :=
  if geb cur (end_ sel) || ltb cur (start sel) then start sel else cur.

(** A clip as a cut leaves it: a well-formed buffer and, cached, the
    encoding of that buffer. *)
Definition clipCached (c : Clip) : Prop :=
  wf_buffer (buffer c) /\
  exists w, bufferToWav (buffer c) = Ok w /\ blob c = Some w.

(** The buffers the decoder hands over in a trace. *)
Definition loadedBuffers (events : list Event) : list AudioBuffer :=
  omap (fun e => match e with
                 | FileLoaded _ _ b => Some b
                 | _ => None
                 end) events.

(** A state whose loaded file (if any) and clips are as the handlers leave
    them. *)
Definition stateCached (st : State) : Prop :=
  (forall audio, mainAudio st = Some audio -> wf_buffer (file_buffer audio)) /\
  Forall clipCached (clips st).

End App.

(** ** components/ClipManager.tsx *)

Module ClipManager.
Import AudioUtils App.

(** [handleDownload]: nothing for a clip without a blob, else the hidden
    anchor is clicked with [download = `${clip.name}.wav`]. *)
Definition handleDownload (clip : Clip) (st : State) : State :=
  match blob clip with
  | None => st
  | Some b => addDownload ((name clip ++ ".wav")%string, b) st
  end.

End ClipManager.

(** ** Sample data for the examples *)

Module Demo.
Import AudioUtils WaveformEditor App.

(** Three stereo frames at 10 Hz. *)
Definition stereo : AudioBuffer :=
  {| sampleRate := 10; frameLength := 3;
     channels := [[1 # 2; - (1 # 4); 0]; [1; -1; 3 # 4]]%Q |}.

(** Two mono frames at 5 Hz. *)
Definition mono : AudioBuffer :=
  {| sampleRate := 5; frameLength := 2; channels := [[1 # 3; 1 # 5]]%Q |}.

(** 46 mono frames: 44 times 1/2, then twice -1. *)
Definition long : AudioBuffer :=
  {| sampleRate := 10; frameLength := 46;
     channels := [replicate 44 (1 # 2) ++ [-1; -1]]%Q |}.

Definition song : AudioFile :=
  {| file_name := "song.mp3"; file_buffer := stereo;
     file_duration := duration stereo |}.

(** The application after [song] has been loaded. *)
Definition loaded : State :=
  run [FileLoaded 0 "song.mp3" stereo] initialState.

Definition iso : string := "2026-11-03T06:33:12.123Z".

Definition clipA : Clip :=
  {| id := "17"; name := "a"; buffer := mono; blob := None |}.
Definition clipB : Clip :=
  {| id := "18"; name := "b"; buffer := stereo; blob := None |}.

End Demo.

(** * Proofs *)

Local Close Scope Z_scope.

(** ** Arithmetic of the JavaScript primitives *)

Module JsFacts.
Import Js.
Local Open Scope Q_scope.

Lemma Qle_bool_false (a b : Q) : Qle_bool a b = false -> b < a.
Proof.
  intros H. apply Qnot_le_lt. intros Hle. apply Qle_bool_iff in Hle. congruence.
Qed.

Lemma ltb_true a b : ltb a b = true <-> a < b.
Proof.
  unfold ltb. split.
  - intros H. apply negb_true_iff in H. now apply Qle_bool_false.
  - intros H. apply negb_true_iff. destruct (Qle_bool b a) eqn:E; [|reflexivity].
    apply Qle_bool_iff in E. lra.
Qed.

Lemma ltb_false a b : ltb a b = false <-> b <= a.
Proof.
  unfold ltb. rewrite negb_false_iff. apply Qle_bool_iff.
Qed.

Lemma geb_true a b : geb a b = true <-> b <= a.
Proof. apply Qle_bool_iff. Qed.

Lemma geb_false a b : geb a b = false <-> a < b.
Proof.
  unfold geb. split; [apply Qle_bool_false|].
  intros H. destruct (Qle_bool b a) eqn:E; [|reflexivity].
  apply Qle_bool_iff in E. lra.
Qed.
Lemma Math_max_Qmax a b : Math_max a b == Qmax a b.
Proof.
  unfold Math_max. destruct (Qle_bool a b) eqn:E.
  - apply Qle_bool_iff in E. symmetry. apply Q.max_r. exact E.
  - apply Qle_bool_false in E. symmetry. apply Q.max_l. lra.
Qed.

Lemma Math_min_Qmin a b : Math_min a b == Qmin a b.
Proof.
  unfold Math_min. destruct (Qle_bool a b) eqn:E.
  - apply Qle_bool_iff in E. symmetry. apply Q.min_l. exact E.
  - apply Qle_bool_false in E. symmetry. apply Q.min_r. lra.
Qed.
Lemma truncate_bound (q : Q) (n : Z) :
  - inject_Z n <= q -> q <= inject_Z n -> (- n <= truncate q <= n)%Z.
Proof.
  destruct q as [a b]. unfold Qle, truncate. cbn [Qnum Qden inject_Z Qopp].
  intros Hl Hu.
  assert (Habs : (Z.abs (Z.quot a (Z.pos b)) <= n)%Z).
  { rewrite <- Z.quot_abs by lia. cbn [Z.abs].
    rewrite Z.quot_div_nonneg by lia.
    apply Z.div_le_upper_bound; lia. }
  lia.
Qed.

Lemma truncate_nonpos (q : Q) : q <= 0 -> (truncate q <= 0)%Z.
Proof.
  destruct q as [a b]. unfold Qle, truncate. cbn [Qnum Qden].
  intros Ha.
  assert (H : (0 <= Z.quot (- a) (Z.pos b))%Z) by (apply Z.quot_pos; lia).
  rewrite Z.quot_opp_l in H by lia. lia.
Qed.

Lemma ToInt32_small (z : Z) : (- 2 ^ 31 <= z < 2 ^ 31)%Z -> ToInt32 z = z.
Proof.
  intros H. unfold ToInt32. rewrite Z.mod_small by lia. lia.
Qed.
Lemma or_zero_some (x : Q) : (or_zero (Some x) == x)%Q.
Proof.
  cbn. destruct (Qeq_bool x 0) eqn:E; [|reflexivity].
  apply Qeq_bool_iff in E. now symmetry.
Qed.
Lemma read_inside (c : list Q) (k : Z) :
  (0 <= k)%Z -> read c k = c !! Z.to_nat k.
Proof. intros Hk. unfold read. destruct (Z.ltb_spec k 0); [lia | reflexivity]. Qed.

Lemma read_outside (c : list Q) (k : Z) :
  (k < 0 \/ Z.of_nat (length c) <= k)%Z -> read c k = None.
Proof.
  intros Hk. unfold read. destruct (Z.ltb_spec k 0); [reflexivity|].
  apply lookup_ge_None_2. lia.
Qed.

(** *** Binary64 rounding *)

Lemma pow2_pos (e : Z) : 0 < 2 ^ e.
Proof. apply Qpower_0_lt. reflexivity. Qed.

Lemma pow2_plus (a b : Z) : 2 ^ (a + b) == 2 ^ a * 2 ^ b.
Proof. apply Qpower_plus. discriminate. Qed.

Lemma pow2_Z (n : Z) : (0 <= n)%Z -> 2 ^ n == inject_Z (2 ^ n).
Proof. intros H. symmetry. apply (Zpower_Qpower 2 n H). Qed.

Lemma pow2_le (a b : Z) : (a <= b)%Z -> 2 ^ a <= 2 ^ b.
Proof. intros H. apply Qpower_le_compat_l; [exact H | discriminate]. Qed.

Lemma pow2_lt_inv (a b : Z) : 2 ^ a < 2 ^ b -> (a < b)%Z.
Proof. intros H. apply (Qpower_lt_compat_l_inv 2); [exact H | reflexivity]. Qed.

(** [ilog2 q] is the exponent of the binade of a positive [q]. *)
Lemma ilog2_spec (q : Q) :
  0 < q -> 2 ^ ilog2 q <= q /\ q < 2 ^ (ilog2 q + 1).
Proof.
  intros Hq. unfold ilog2.
  destruct q as [a b]. cbn [Qnum Qden].
  assert (Ha : (0 < a)%Z) by (unfold Qlt in Hq; cbn in Hq; lia).
  set (la := Z.log2 a). set (lb := Z.log2 (Z.pos b)).
  destruct (Z.log2_spec a Ha) as [A1 A2].
  destruct (Z.log2_spec (Z.pos b) ltac:(lia)) as [B1 B2].
  fold la in A1, A2. fold lb in B1, B2.
  assert (Hla : (0 <= la)%Z) by apply Z.log2_nonneg.
  assert (Hlb : (0 <= lb)%Z) by apply Z.log2_nonneg.
  assert (PA : 0 < 2 ^ la) by apply pow2_pos.
  assert (PB : 0 < 2 ^ lb) by apply pow2_pos.
  assert (EA : 2 ^ la == inject_Z (2 ^ la)) by (now apply pow2_Z).
  assert (EB : 2 ^ lb == inject_Z (2 ^ lb)) by (now apply pow2_Z).
  assert (Eq : a # b == inject_Z a / inject_Z (Z.pos b)) by apply Qmake_Qdiv.
  assert (Pb : 0 < inject_Z (Z.pos b)) by reflexivity.
  (* a / b < 2 ^ (la - lb + 1) *)
  assert (Up : a # b < 2 ^ (la - lb + 1)).
  { replace (la - lb + 1)%Z with ((la + 1) - lb)%Z by lia.
    rewrite Qpower_minus by discriminate.
    rewrite (pow2_Z (la + 1)) by lia. rewrite EB, Eq.
    apply Qlt_shift_div_l; [rewrite <- EB; exact PB|].
    unfold Qdiv. rewrite <- Qmult_assoc, (Qmult_comm (/ _)), Qmult_assoc.
    apply Qlt_shift_div_r; [exact Pb|].
    rewrite <- !inject_Z_mult. rewrite <- Zlt_Qlt.
    change (Z.succ la) with (la + 1)%Z in A2. nia. }
  (* 2 ^ (la - lb - 1) <= a / b *)
  assert (Lo : 2 ^ (la - lb - 1) <= a # b).
  { replace (la - lb - 1)%Z with (la - (lb + 1))%Z by lia.
    rewrite Qpower_minus by discriminate.
    rewrite (pow2_Z (lb + 1)) by lia. rewrite EA, Eq.
    apply Qle_shift_div_r; [rewrite <- pow2_Z by lia; apply pow2_pos|].
    unfold Qdiv. rewrite <- Qmult_assoc, (Qmult_comm (/ _)), Qmult_assoc.
    apply Qle_shift_div_l; [exact Pb|].
    rewrite <- !inject_Z_mult. rewrite <- Zle_Qle.
    change (Z.succ lb) with (lb + 1)%Z in B2. nia. }
  destruct (Qle_bool (2 ^ (la - lb)) (a # b)) eqn:E.
  - apply Qle_bool_iff in E. split; [exact E | exact Up].
  - apply Qle_bool_false in E. split; [exact Lo|].
    replace (la - lb - 1 + 1)%Z with (la - lb)%Z by lia. exact E.
Qed.

(** [roundHalfEven] is within a half of its argument, and never crosses an
    integer. *)
Lemma roundHalfEven_near (x : Q) :
  x - (1 # 2) <= inject_Z (roundHalfEven x) /\
  inject_Z (roundHalfEven x) <= x + (1 # 2).
Proof.
  unfold roundHalfEven.
  pose proof (Qfloor_le x) as F1. pose proof (Qlt_floor x) as F2.
  rewrite inject_Z_plus in F2. change (inject_Z 1) with 1 in F2.
  destruct (Qcompare_spec (x - inject_Z (Qfloor x)) (1 # 2)) as [E|E|E].
  - destruct (Z.even (Qfloor x)); rewrite ?inject_Z_plus;
      change (inject_Z 1) with 1; split; lra.
  - split; lra.
  - rewrite inject_Z_plus. change (inject_Z 1) with 1. split; lra.
Qed.

Lemma roundHalfEven_ge (x : Q) (k : Z) :
  inject_Z k <= x -> (k <= roundHalfEven x)%Z.
Proof.
  intros H. apply Qfloor_resp_le in H. rewrite Qfloor_Z in H.
  unfold roundHalfEven.
  destruct (_ ?= _); [destruct (Z.even _)| |]; lia.
Qed.

Lemma roundHalfEven_le (x : Q) (k : Z) :
  x <= inject_Z k -> (roundHalfEven x <= k)%Z.
Proof.
  intros H. unfold roundHalfEven.
  pose proof (Qfloor_le x) as F1.
  assert (Hf : (Qfloor x <= k)%Z) by (rewrite Zle_Qle; lra).
  assert (Hup : 0 < x - inject_Z (Qfloor x) -> (Qfloor x + 1 <= k)%Z).
  { intros Hx. assert (Hlt : inject_Z (Qfloor x) < inject_Z k) by lra.
    rewrite <- Zlt_Qlt in Hlt. lia. }
  destruct (Qcompare_spec (x - inject_Z (Qfloor x)) (1 # 2)) as [E|E|E].
  - destruct (Z.even (Qfloor x)); [exact Hf | apply Hup; lra].
  - exact Hf.
  - apply Hup. lra.
Qed.

Lemma ulp_pos (q : Q) : 0 < ulp q.
Proof. apply pow2_pos. Qed.

Lemma round64_comp (x y : Q) : x == y -> round64 x = round64 y.
Proof.
  intros H. unfold round64, ulp. now rewrite (Qred_complete x y H).
Qed.

(** The rounding error is at most half a unit in the last place. *)
Lemma round64_near (q : Q) :
  q - ulp q * (1 # 2) <= round64 q /\ round64 q <= q + ulp q * (1 # 2).
Proof.
  unfold round64. pose proof (ulp_pos q) as U. set (u := ulp q) in *.
  destruct (roundHalfEven_near (Qred q / u)) as [L H].
  set (m := inject_Z (roundHalfEven (Qred q / u))) in *.
  assert (E : Qred q / u * u == q).
  { rewrite Qred_correct. field. lra. }
  apply (Qmult_le_compat_r _ _ u) in L; [|lra].
  apply (Qmult_le_compat_r _ _ u) in H; [|lra].
  assert (EL : (Qred q / u - (1 # 2)) * u == Qred q / u * u - u * (1 # 2)) by ring.
  assert (EH : (Qred q / u + (1 # 2)) * u == Qred q / u * u + u * (1 # 2)) by ring.
  rewrite EL, E in L. rewrite EH, E in H. split; assumption.
Qed.

Lemma Qabs_nonneg_eq (x : Q) : 0 <= x -> Qabs x = x.
Proof.
  destruct x as [n d]. unfold Qle, Qabs. cbn. intros H.
  rewrite Z.abs_eq by lia. reflexivity.
Qed.

(** The binade of a positive number. *)
Lemma ulp_spec (q : Q) :
  0 < q -> ulp q * 2 ^ 52 <= q /\ q < ulp q * 2 ^ 53.
Proof.
  intros Hq. unfold ulp.
  assert (Hr : 0 < Qred q) by (now rewrite Qred_correct).
  rewrite Qabs_nonneg_eq by lra.
  destruct (ilog2_spec (Qred q) Hr) as [L U].
  set (k := ilog2 (Qred q)) in *.
  pose proof (Qred_correct q) as Eq.
  assert (L' : 2 ^ k <= q) by (now rewrite <- Eq).
  assert (U' : q < 2 ^ (k + 1)) by (now rewrite <- Eq).
  clear L U.
  rewrite <- !pow2_plus.
  replace (k - 52 + 52)%Z with k by lia.
  replace (k - 52 + 53)%Z with (k + 1)%Z by lia. split; assumption.
Qed.

(** One unit in the last place is at most [2^-52] of the magnitude, and at
    most 1 below [2^53]. *)
Lemma ulp_relative (q : Q) : 0 < q -> ulp q <= q * (1 # 2 ^ 52).
Proof.
  intros Hq. destruct (ulp_spec q Hq) as [L _].
  change (2 ^ 52) with (inject_Z (2 ^ 52)) in L.
  change (1 # 2 ^ 52) with (/ inject_Z (2 ^ 52)).
  apply Qle_shift_div_l; [reflexivity | exact L].
Qed.

Lemma ulp_small (q : Q) : 0 <= q -> q < 2 ^ 53 -> ulp q <= 1.
Proof.
  intros H0 H. destruct (Qle_lt_or_eq _ _ H0) as [Hq|Hq].
  - destruct (ulp_spec q Hq) as [L _]. unfold ulp in *.
    set (k := (ilog2 (Qabs (Qred q)) - 52)%Z) in *.
    assert (Hk : 2 ^ (k + 52) < 2 ^ 53) by (rewrite pow2_plus; lra).
    apply pow2_lt_inv in Hk.
    change 1 with (2 ^ 0). apply pow2_le. lia.
  - unfold ulp. rewrite <- (Qred_complete 0 q Hq). vm_compute. discriminate.
Qed.

(** Below [2^53] rounding never crosses an integer. *)
Lemma round64_between (q : Q) :
  0 <= q -> q < 2 ^ 53 ->
  inject_Z (Qfloor q) <= round64 q /\ round64 q <= inject_Z (Qceiling q).
Proof.
  intros H0 H. pose proof (ulp_small q H0 H) as Hu.
  pose proof (ulp_pos q) as Up.
  unfold round64. unfold ulp in *.
  set (k := (ilog2 (Qabs (Qred q)) - 52)%Z) in *.
  assert (Hk : (k <= 0)%Z).
  { apply Z.nlt_ge. intros Hk. assert (2 ^ 0 < 2 ^ k)
      by (apply Qpower_lt_compat_l; [lia | reflexivity]).
    change (2 ^ 0) with 1 in *. lra. }
  set (S := (2 ^ (- k))%Z).
  assert (ES : 2 ^ k == / inject_Z S).
  { assert (P : 2 ^ k * inject_Z S == 1).
    { unfold S. rewrite <- pow2_Z by lia. rewrite <- pow2_plus.
      replace (k + - k)%Z with 0%Z by lia. reflexivity. }
    rewrite <- (Qmult_1_l (/ inject_Z S)), <- P. field.
    intros Z0. rewrite Z0 in P. lra. }
  assert (PS : 0 < inject_Z S).
  { unfold S. rewrite <- (pow2_Z (- k)) by lia. apply pow2_pos. }
  assert (Ex : Qred q / 2 ^ k == q * inject_Z S).
  { rewrite Qred_correct, ES. field. lra. }
  assert (Em : forall n : Z, inject_Z (n * S) * 2 ^ k == inject_Z n).
  { intros n. rewrite inject_Z_mult, ES. field. lra. }
  split.
  - rewrite <- (Em (Qfloor q)).
    apply Qmult_le_compat_r; [|lra]. rewrite <- Zle_Qle.
    apply roundHalfEven_ge. rewrite Ex, inject_Z_mult.
    apply Qmult_le_compat_r; [apply Qfloor_le | lra].
  - rewrite <- (Em (Qceiling q)).
    apply Qmult_le_compat_r; [|lra]. rewrite <- Zle_Qle.
    apply roundHalfEven_le. rewrite Ex, inject_Z_mult.
    apply Qmult_le_compat_r; [apply Qle_ceiling | lra].
Qed.

(** The floor of a rounded number below [2^53]: the floor of the number,
    or the next integer when the number is within a half of it and rounds
    to it. *)
Lemma floor_round64 (q : Q) :
  0 <= q -> q < 2 ^ 53 ->
  Qfloor (round64 q) = Qfloor q \/
  (Qfloor (round64 q) = (Qfloor q + 1)%Z /\
   round64 q == inject_Z (Qfloor q + 1) /\
   inject_Z (Qfloor q) + (1 # 2) <= q).
Proof.
  intros H0 H.
  destruct (round64_between q H0 H) as [L U].
  destruct (round64_near q) as [_ N].
  pose proof (ulp_small q H0 H) as Hu.
  pose proof (Qceiling_lt q) as C. 
  pose proof (Qfloor_le q) as F1. pose proof (Qlt_floor q) as F2.
  assert (Hc : (Qceiling q <= Qfloor q + 1)%Z).
  { assert (X : inject_Z (Qceiling q - 1) < inject_Z (Qfloor q + 1)) by lra.
    rewrite <- Zlt_Qlt in X. lia. }
  assert (G1 : (Qfloor q <= Qfloor (round64 q))%Z).
  { rewrite <- (Qfloor_Z (Qfloor q)) at 1. now apply Qfloor_resp_le. }
  assert (G2 : (Qfloor (round64 q) <= Qfloor q + 1)%Z).
  { rewrite <- (Qfloor_Z (Qfloor q + 1)). apply Qfloor_resp_le.
    rewrite Zle_Qle in Hc. lra. }
  destruct (Z.eq_dec (Qfloor (round64 q)) (Qfloor q)) as [E|E]; [now left|].
  right. assert (E' : Qfloor (round64 q) = (Qfloor q + 1)%Z) by lia.
  split; [exact E'|].
  pose proof (Qfloor_le (round64 q)) as R1. rewrite E' in R1.
  rewrite Zle_Qle in Hc.
  split; [lra|].
  rewrite inject_Z_plus in R1. change (inject_Z 1) with 1 in R1.
  assert (ulp q * (1 # 2) <= 1 # 2) by lra. lra.
Qed.

(** A positive number stays positive, within [2^-53] of its magnitude. *)
Lemma round64_relative (q : Q) :
  0 < q ->
  q * (1 - (1 # 2 ^ 53)) <= round64 q /\ round64 q <= q * (1 + (1 # 2 ^ 53)).
Proof.
  intros Hq. destruct (round64_near q) as [L U].
  pose proof (ulp_relative q Hq) as R.
  assert (E : q * (1 # 2 ^ 52) * (1 # 2) == q * (1 # 2 ^ 53)).
  { assert (X : (1 # 2 ^ 52) * (1 # 2) == 1 # 2 ^ 53) by reflexivity.
    rewrite <- Qmult_assoc, X. reflexivity. }
  assert (R' : ulp q * (1 # 2) <= q * (1 # 2 ^ 53)).
  { rewrite <- E. apply Qmult_le_compat_r; [exact R | discriminate]. }
  split.
  - assert (X : q * (1 - (1 # 2 ^ 53)) == q - q * (1 # 2 ^ 53)) by ring.
    rewrite X. lra.
  - assert (X : q * (1 + (1 # 2 ^ 53)) == q + q * (1 # 2 ^ 53)) by ring.
    rewrite X. lra.
Qed.

Lemma round64_pos (q : Q) : 0 < q -> 0 < round64 q.
Proof.
  intros Hq. destruct (round64_relative q Hq) as [L _].
  apply Qlt_le_trans with (q * (1 - (1 # 2 ^ 53))); [|exact L].
  apply Qmult_lt_0_compat; [exact Hq | reflexivity].
Qed.

End JsFacts.

(** ** Arrays *)

Module ArrayFacts.

(** Filling an array by index, front to back. *)
Lemma fill_lookup {A : Type} (f : nat -> A) (n : nat) (l : list A) (p : nat) :
  (n <= length l)%nat ->
  fold_left (fun acc j => <[j := f j]> acc) (seq 0 n) l !! p
  = if decide (p < n)%nat then Some (f p) else l !! p.
Proof.
  induction n as [|n IH]; intros Hn.
  - cbn. destruct (decide (p < 0)%nat); [lia | reflexivity].
  - rewrite seq_S, fold_left_app. cbn [fold_left].
    assert (Hlen : forall m, length (fold_left (fun acc j => <[j := f j]> acc) (seq 0 m) l) = length l).
    { clear. intros m. induction m as [|m IHm]; [reflexivity|].
      rewrite seq_S, fold_left_app. cbn. now rewrite length_insert. }
    destruct (decide (p = n)) as [->|Hne].
    + rewrite list_lookup_insert_eq by (rewrite Hlen; lia).
      destruct (decide (n < S n)%nat); [reflexivity | lia].
    + rewrite list_lookup_insert_ne by lia.
      rewrite IH by lia.
      destruct (decide (p < n)%nat), (decide (p < S n)%nat); try reflexivity; lia.
Qed.

Lemma fill_all {A : Type} (f : nat -> A) (l : list A) :
  fold_left (fun acc j => <[j := f j]> acc) (seq 0 (length l)) l
  = map f (seq 0 (length l)).
Proof.
  apply list_eq. intros p.
  rewrite fill_lookup by lia.
  destruct (decide (p < length l)%nat) as [Hp|Hp].
  - rewrite list_lookup_fmap, lookup_seq_lt by exact Hp. reflexivity.
  - rewrite lookup_ge_None_2 by lia.
    symmetry. apply lookup_ge_None_2. rewrite length_map, length_seq. lia.
Qed.

Lemma map_by_index {A B : Type} (f : A -> B) (d : B) (l : list A) :
  map (fun i => match l !! i with Some c => f c | None => d end) (seq 0 (length l))
  = map f l.
Proof.
  apply list_eq. intros p.
  rewrite !list_lookup_fmap.
  destruct (l !! p) as [c|] eqn:E.
  - rewrite lookup_seq_lt by (eapply lookup_lt_Some; eauto). cbn. now rewrite E.
  - rewrite lookup_seq_ge; [reflexivity|]. now apply lookup_ge_None_1.
Qed.
Lemma typed_set_at {A : Type} (pre rest src : list A) :
  (length src <= length rest)%nat ->
  typed_set (pre ++ rest) src (length pre)
  = Ok ((pre ++ src) ++ drop (length src) rest).
Proof.
  intros Hl. unfold typed_set.
  destruct (Nat.ltb_spec (length (pre ++ rest)) (length pre + length src)) as [H|H].
  - rewrite length_app in H. lia.
  - rewrite take_app_length, drop_app_add'; [|reflexivity].
    now rewrite <- app_assoc.
Qed.

Lemma typed_set_length {A : Type} (target src : list A) (off : nat) (out : list A) :
  typed_set target src off = Ok out -> length out = length target.
Proof.
  unfold typed_set. destruct (Nat.ltb_spec (length target) (off + length src)); [discriminate|].
  intros [= <-]. rewrite !length_app, length_take, length_drop. lia.
Qed.
Lemma typed_set_ok {A : Type} (target src : list A) (off : nat) :
  (off + length src <= length target)%nat ->
  exists out, typed_set target src off = Ok out /\ length out = length target.
Proof.
  intros H. unfold typed_set.
  destruct (Nat.ltb_spec (length target) (off + length src)); [lia|].
  eexists. split; [reflexivity|].
  rewrite !length_app, length_take, length_drop. lia.
Qed.
Lemma NoDup_list_filter {A : Type} (f : A -> bool) (l : list A) :
  NoDup l -> NoDup (List.filter f l).
Proof.
  induction 1 as [|x l Hx Hl IH]; cbn; [constructor|].
  destruct (f x); [|exact IH].
  constructor; [|exact IH].
  intros Hin. apply Hx. apply list_elem_of_In in Hin.
  apply filter_In in Hin as [Hin _]. now apply list_elem_of_In.
Qed.

End ArrayFacts.

(** ** services/audioUtils.ts *)

Module AudioUtilsFacts.
Import Js AudioUtils JsFacts ArrayFacts.

(** *** The sample conversion of [bufferToWav] *)

Section Encoder.
Local Open Scope Q_scope.

Lemma clampSample_range (x : Q) : -1 <= clampSample x /\ clampSample x <= 1.
Proof.
  unfold clampSample, Math_max, Math_min.
  destruct (Qle_bool 1 x) eqn:E1.
  - change (Qle_bool (-1) 1) with true. cbv iota. split; lra.
  - apply Qle_bool_false in E1.
    destruct (Qle_bool (-1) x) eqn:E2.
    + apply Qle_bool_iff in E2. split; lra.
    + split; lra.
Qed.

Lemma clampSample_inside (x : Q) : -1 <= x -> x <= 1 -> clampSample x == x.
Proof.
  intros Hl Hu. unfold clampSample, Math_max, Math_min.
  destruct (Qle_bool 1 x) eqn:E1.
  - apply Qle_bool_iff in E1. change (Qle_bool (-1) 1) with true. cbv iota. lra.
  - apply Qle_bool_iff in Hl. now rewrite Hl.
Qed.
(** The value the source computes, for every sample: the clamped sample
    times 32768 below [-1/2] and times 32767 from [-1/2] on, truncated; it
    always fits 16 bits. *)
Lemma encodeSample_threshold (x : Q) :
  let c := clampSample x in
  encodeSample x
  = truncate (if ltb c (- (1 # 2)) then c * 32768 else c * 32767)
  /\ (-32768 <= encodeSample x <= 32767)%Z.
Proof.
  intros c. unfold encodeSample, scaleSample, bitor0. fold c.
  pose proof (clampSample_range x) as [Hl Hu]. fold c in Hl, Hu.
  assert (E : ltb ((1 # 2) + c) 0 = ltb c (- (1 # 2))).
  { destruct (ltb c (- (1 # 2))) eqn:E.
    - apply ltb_true in E. apply ltb_true. lra.
    - apply ltb_false in E. apply ltb_false. lra. }
  rewrite E.
  destruct (ltb c (- (1 # 2))) eqn:Hc.
  - apply ltb_true in Hc.
    assert (B : (-32768 <= truncate (c * 32768) <= 0)%Z).
    { pose proof (truncate_bound (c * 32768) 32768) as T.
      change (inject_Z 32768) with 32768 in T.
      specialize (T ltac:(lra) ltac:(lra)).
      pose proof (truncate_nonpos (c * 32768) ltac:(lra)).
      lia. }
    rewrite ToInt32_small by lia. split; [reflexivity | lia].
  - apply ltb_false in Hc.
    pose proof (truncate_bound (c * 32767) 32767) as T.
    change (inject_Z 32767) with 32767 in T.
    specialize (T ltac:(lra) ltac:(lra)).
    rewrite ToInt32_small by lia. split; [reflexivity | lia].
Qed.
(** C1, at a sample where the source departs from the stated rule: -1/4 is
    negative, so the rule "clamp, scale by 32768 when negative, truncate"
    gives -8192; the source tests [0.5 + sample < 0], scales by 32767 and
    stores -8191. *)
Example encodeSample_negative_quarter :
  - (1 # 4) < 0 /\
  encodeSample (- (1 # 4)) = (-8191)%Z /\
  spec_encodeSample (- (1 # 4)) = (-8192)%Z.
Proof. split; [reflexivity|]. split; vm_compute; reflexivity. Qed.

(** Away from [-1/2, 0) the source and the stated rule agree. *)
Lemma encodeSample_agrees (x : Q) :
  0 <= clampSample x \/ clampSample x < - (1 # 2) ->
  encodeSample x = spec_encodeSample x.
Proof.
  intros H. destruct (encodeSample_threshold x) as [E _]. cbv zeta in E.
  rewrite E. unfold spec_encodeSample. cbv zeta.
  set (c := clampSample x) in *.
  destruct H as [H|H].
  - assert (E1 : ltb c (- (1 # 2)) = false) by (apply ltb_false; lra).
    assert (E2 : leb 0 c = true) by (apply Qle_bool_iff; exact H).
    now rewrite E1, E2.
  - assert (E1 : ltb c (- (1 # 2)) = true) by (apply ltb_true; exact H).
    assert (E2 : leb 0 c = false).
    { unfold leb. destruct (Qle_bool 0 c) eqn:E0; [|reflexivity].
      apply Qle_bool_iff in E0. lra. }
    now rewrite E1, E2.
Qed.

End Encoder.

Lemma stereo_wf : wf_buffer Demo.stereo.
Proof.
  unfold wf_buffer, numberOfChannels. cbn.
  repeat split; try lia. repeat constructor.
Qed.

Lemma mono_wf : wf_buffer Demo.mono.
Proof.
  unfold wf_buffer, numberOfChannels. cbn.
  repeat split; try lia. repeat constructor.
Qed.

Lemma createBuffer_ok nc len sr :
  (0 < nc)%nat -> (0 < len)%Z ->
  createBuffer nc len sr
  = Ok (mkBuffer sr (Z.to_nat len) (replicate nc (replicate (Z.to_nat len) 0%Q))).
Proof.
  intros Hn Hl. unfold createBuffer.
  destruct (Nat.eqb_spec nc 0); [lia|].
  destruct (Z.leb_spec len 0); [lia|]. reflexivity.
Qed.
(** A loop that rewrites channel after channel of a fresh buffer. *)
Lemma foldM_store (body : AudioBuffer -> nat -> result AudioBuffer)
      (r : nat -> list Q) (zeros : list Q) (n : nat) (sr : Z) (fl : nat) :
  (forall nb i, (i < n)%nat -> channels nb !! i = Some zeros ->
                body nb i = Ok (storeChannel nb i (r i))) ->
  forall m k, (k + m = n)%nat ->
    foldM body (seq k m) (mkBuffer sr fl (map r (seq 0 k) ++ replicate m zeros))
    = Ok (mkBuffer sr fl (map r (seq 0 n))).
Proof.
  intros Hbody m. induction m as [|m IH]; intros k Hk.
  - cbn. rewrite app_nil_r. replace k with n by lia. reflexivity.
  - cbn [seq foldM].
    assert (Hlk : (map r (seq 0 k) ++ replicate (S m) zeros) !! k = Some zeros).
    { rewrite lookup_app_r by (rewrite length_map, length_seq; lia).
      rewrite length_map, length_seq, Nat.sub_diag. reflexivity. }
    rewrite Hbody by (cbn; first [lia | exact Hlk]). cbn [bind].
    unfold storeChannel. cbn [sampleRate frameLength channels].
    replace (<[k := r k]> (map r (seq 0 k) ++ replicate (S m) zeros))
      with (map r (seq 0 (S k)) ++ replicate m zeros).
    + apply IH. lia.
    + rewrite seq_S, map_app, <- app_assoc. cbn.
      rewrite insert_app_r_alt by (rewrite length_map, length_seq; lia).
      rewrite length_map, length_seq, Nat.sub_diag. reflexivity.
Qed.
Lemma slice_closed_form (b : AudioBuffer) (s e : Q) :
  (0 < numberOfChannels b)%nat ->
  sliceAudioBuffer b s e = Ok (sliceResult b s e).
Proof.
  intros Hnc. unfold sliceAudioBuffer, sliceResult.
  set (a := Math_floor (mul64 s (inject_Z (sampleRate b)))).
  set (z := Math_floor (mul64 e (inject_Z (sampleRate b)))).
  destruct (Z.leb_spec (z - a) 0) as [Hfc|Hfc].
  - rewrite createBuffer_ok by lia. reflexivity.
  - rewrite createBuffer_ok by lia. cbn [bind].
    set (n := Z.to_nat (z - a)).
    set (r := fun i => match channels b !! i with
                       | Some c => sliceChannel c a n
                       | None => []
                       end).
    pose proof (foldM_store
      (fun newBuffer i =>
         let* channelData := getChannelData b i in
         let* newChannelData := getChannelData newBuffer i in
         Ok (storeChannel newBuffer i
               (fold_left
                  (fun ncd j => <[j := or_zero (read channelData (a + Z.of_nat j))]> ncd)
                  (seq 0 n) newChannelData)))
      r (replicate n 0%Q) (numberOfChannels b) (sampleRate b) n) as H.
    cbv beta in H.
    specialize (H ltac:(
      intros nb i Hi Hz; unfold getChannelData, r;
      destruct (lookup_lt_is_Some_2 (channels b) i Hi) as [c Hc];
      rewrite Hc, Hz; cbn [bind];
      pose proof (fill_all (fun j => or_zero (read c (a + Z.of_nat j))) (replicate n 0%Q)) as F;
      rewrite length_replicate in F; rewrite F; reflexivity)).
    specialize (H (numberOfChannels b) 0%nat eq_refl). cbn [seq map app] in H.
    rewrite H. f_equal. f_equal. unfold r. apply map_by_index.
Qed.
Lemma sliceChannel_lookup c a n j :
  (j < n)%nat ->
  sliceChannel c a n !! j = Some (or_zero (read c (a + Z.of_nat j))).
Proof.
  intros Hj. unfold sliceChannel.
  rewrite list_lookup_fmap, lookup_seq_lt by exact Hj. reflexivity.
Qed.

Lemma sliceChannel_length c a n : length (sliceChannel c a n) = n.
Proof. unfold sliceChannel. now rewrite length_map, length_seq. Qed.

Lemma sliceResult_wf b s e : wf_buffer b -> wf_buffer (sliceResult b s e).
Proof.
  intros (Hsr & Hfl & Hnc & Hch). unfold sliceResult.
  cbv zeta.
  match goal with |- context [Z.leb ?x 0] => destruct (Z.leb_spec x 0) as [Hfc|Hfc] end;
    unfold wf_buffer, numberOfChannels;
    cbn [sampleRate frameLength channels].
  - rewrite length_replicate. repeat split; try assumption; try lia.
    apply Forall_replicate. reflexivity.
  - rewrite length_map. repeat split; try assumption; try lia.
    apply Forall_map, Forall_forall. intros c _. apply sliceChannel_length.
Qed.

(** Floors of the two rounded ends against the rounded span. *)
Lemma floor_span (A B : Q) :
  (0 <= A)%Q -> (A <= B)%Q -> (B < 2 ^ 53)%Q ->
  let d := (Qfloor (round64 B) - Qfloor (round64 A)
            - Qfloor (B - A + (1 # 2)))%Z in
  (-1 <= d <= 1)%Z.
Proof.
  intros HA HAB HB d.
  pose proof (Qfloor_le A) as a1. pose proof (Qlt_floor A) as a2.
  pose proof (Qfloor_le B) as b1. pose proof (Qlt_floor B) as b2.
  pose proof (Qfloor_le (B - A + (1 # 2))) as r1.
  pose proof (Qlt_floor (B - A + (1 # 2))) as r2.
  rewrite inject_Z_plus in a2, b2, r2.
  change (inject_Z 1) with 1%Q in *.
  assert (H : (inject_Z (-2) < inject_Z d /\ inject_Z d < inject_Z 2)%Q).
  { subst d.
    destruct (floor_round64 A HA ltac:(lra)) as [EA|(EA & _ & HA')];
      destruct (floor_round64 B ltac:(lra) HB) as [EB|(EB & _ & HB')];
      rewrite EA, EB; unfold Z.sub;
      rewrite ?inject_Z_plus, ?inject_Z_opp, ?inject_Z_plus;
      change (inject_Z 1) with 1%Q; change (inject_Z (-2)) with (-2)%Q;
      change (inject_Z 2) with 2%Q; split; lra. }
  destruct H as [H1 H2]. rewrite <- Zlt_Qlt in H1, H2. lia.
Qed.

Lemma sliceResult_channel b s e i c :
  channels b !! i = Some c ->
  let a := Math_floor (mul64 s (inject_Z (sampleRate b))) in
  let z := Math_floor (mul64 e (inject_Z (sampleRate b))) in
  (0 < z - a)%Z ->
  channels (sliceResult b s e) !! i = Some (sliceChannel c a (Z.to_nat (z - a))).
Proof.
  intros Hc a z Hfc. unfold sliceResult. fold a z.
  destruct (Z.leb_spec (z - a) 0); [lia|]. cbn [channels].
  rewrite list_lookup_fmap, Hc. reflexivity.
Qed.

Lemma times_rate_le (x y : Q) (sr : Z) :
  (0 < sr)%Z -> (x <= y)%Q -> (x * inject_Z sr <= y * inject_Z sr)%Q.
Proof.
  intros Hsr Hxy. apply Qmult_le_compat_r; [exact Hxy|].
  change 0%Q with (inject_Z 0). rewrite <- Zle_Qle. lia.
Qed.

Lemma duration_positive (b : AudioBuffer) :
  (0 < sampleRate b)%Z -> (0 < frameLength b)%nat -> (0 < duration b)%Q.
Proof.
  intros Hsr Hfl. unfold duration, div64. apply round64_pos.
  apply Qlt_shift_div_l.
  - change 0%Q with (inject_Z 0). rewrite <- Zlt_Qlt. exact Hsr.
  - rewrite Qmult_0_l. change 0%Q with (inject_Z 0). rewrite <- Zlt_Qlt. lia.
Qed.

(** [buffer.duration] is within [2^-53] of the quotient, relatively. *)
Lemma duration_near (b : AudioBuffer) :
  (0 < sampleRate b)%Z -> (0 < frameLength b)%nat ->
  let q := (inject_Z (Z.of_nat (frameLength b)) / inject_Z (sampleRate b))%Q in
  (q * (1 - (1 # 2 ^ 53)) <= duration b /\
   duration b <= q * (1 + (1 # 2 ^ 53)))%Q.
Proof.
  intros Hsr Hfl q. unfold duration, div64. apply round64_relative.
  subst q. apply Qlt_shift_div_l.
  - change 0%Q with (inject_Z 0). rewrite <- Zlt_Qlt. exact Hsr.
  - rewrite Qmult_0_l. change 0%Q with (inject_Z 0). rewrite <- Zlt_Qlt. lia.
Qed.

(** A time up to the duration, in frames: less than half a frame past the
    length of a source of fewer than [2^52] frames. *)
Lemma end_product (b : AudioBuffer) (e : Q) :
  (0 < sampleRate b)%Z -> (0 < frameLength b)%nat ->
  (Z.of_nat (frameLength b) < 2 ^ 52)%Z ->
  (e <= duration b)%Q ->
  (e * inject_Z (sampleRate b)
   < inject_Z (Z.of_nat (frameLength b)) + (1 # 2))%Q.
Proof.
  intros Hsr Hfl Hn He.
  destruct (duration_near b Hsr Hfl) as [_ Hd]. cbv zeta in Hd.
  apply (times_rate_le _ _ _ Hsr) in He.
  apply (times_rate_le _ _ _ Hsr) in Hd.
  set (N := inject_Z (Z.of_nat (frameLength b))) in *.
  set (R := inject_Z (sampleRate b)) in *.
  assert (HR : ~ (R == 0)%Q).
  { intros H. apply (proj1 (inject_Z_injective (sampleRate b) 0)) in H. lia. }
  assert (E : (N / R * (1 + (1 # 2 ^ 53)) * R == N + N * (1 # 2 ^ 53))%Q)
    by (field; exact HR).
  rewrite E in Hd.
  assert (HN : (N < inject_Z (2 ^ 52))%Q) by (subst N; now rewrite <- Zlt_Qlt).
  assert (HN' : (N * (1 # 2 ^ 53) < 1 # 2)%Q).
  { apply Qlt_le_trans with (inject_Z (2 ^ 52) * (1 # 2 ^ 53))%Q.
    - apply Qmult_lt_compat_r; [reflexivity | exact HN].
    - apply Qle_bool_iff. reflexivity. }
  lra.
Qed.

Lemma end_within (b : AudioBuffer) (e : Q) :
  (0 < sampleRate b)%Z -> (0 < frameLength b)%nat ->
  (Z.of_nat (frameLength b) < 2 ^ 52)%Z ->
  (0 <= e)%Q -> (e <= duration b)%Q ->
  (Math_floor (mul64 e (inject_Z (sampleRate b))) <= Z.of_nat (frameLength b))%Z.
Proof.
  intros Hsr Hfl Hn H0 He. unfold Math_floor, mul64.
  pose proof (end_product b e Hsr Hfl Hn He) as Hp.
  pose proof (times_rate_le 0 e _ Hsr H0) as Hp0. rewrite Qmult_0_l in Hp0.
  set (p := (e * inject_Z (sampleRate b))%Q) in *.
  assert (HN : (inject_Z (Z.of_nat (frameLength b)) < inject_Z (2 ^ 52))%Q)
    by (now rewrite <- Zlt_Qlt).
  assert (Hlt : (p < 2 ^ 53)%Q).
  { change (2 ^ 53)%Q with (inject_Z (2 ^ 53)).
    assert (inject_Z (2 ^ 52) + (1 # 2) <= inject_Z (2 ^ 53))%Q
      by (apply Qle_bool_iff; reflexivity).
    lra. }
  destruct (round64_near p) as [_ Hr].
  pose proof (ulp_small p Hp0 Hlt) as Hu.
  pose proof (Qfloor_le (round64 p)) as Hf.
  assert (X : (inject_Z (Qfloor (round64 p))
               < inject_Z (Z.of_nat (frameLength b) + 1))%Q).
  { rewrite inject_Z_plus. change (inject_Z 1) with 1%Q. lra. }
  rewrite <- Zlt_Qlt in X. lia.
Qed.

Lemma start_nonneg (sr : Z) (s : Q) :
  (0 < sr)%Z -> (0 <= s)%Q -> (s * inject_Z sr < 2 ^ 53)%Q ->
  (0 <= Math_floor (mul64 s (inject_Z sr)))%Z.
Proof.
  intros Hsr Hs Hlt. unfold Math_floor, mul64.
  pose proof (times_rate_le 0 s _ Hsr Hs) as Hp. rewrite Qmult_0_l in Hp.
  destruct (round64_between _ Hp Hlt) as [L _].
  change 0%Z with (Qfloor 0). apply Qfloor_resp_le.
  apply Qle_trans with (inject_Z (Qfloor (s * inject_Z sr))); [|exact L].
  change 0%Q with (inject_Z 0). rewrite <- Zle_Qle.
  change 0%Z with (Qfloor 0). now apply Qfloor_resp_le.
Qed.

(** C3.  For a well-formed source buffer (of fewer than [2^52] frames) and
    [0 <= start], [end <= duration], [end - start >= 0.1],
    [sliceAudioBuffer] returns a buffer with the source's sample rate and
    channel count, whose channels all have the buffer's frame count; that
    count is [max 1 (floor(end*rate) - floor(start*rate))] and is within one
    of [round((end - start) * rate)]; and on every channel the frames
    [floor(start*rate) <= j < floor(end*rate)] of the source are the samples
    [j - floor(start*rate)] of the result, unchanged.  The two products are
    the doubles the code computes; each floor is the floor of the exact
    product, or the next integer when the product rounds up to it. *)
Theorem slice_frames (b : AudioBuffer) (s e : Q) :
  wf_buffer b ->
  (Z.of_nat (frameLength b) < 2 ^ 52)%Z ->
  (0 <= s)%Q -> (e <= duration b)%Q -> (1 # 10 <= e - s)%Q ->
  let a := Math_floor (mul64 s (inject_Z (sampleRate b))) in
  let z := Math_floor (mul64 e (inject_Z (sampleRate b))) in
  exists out,
    sliceAudioBuffer b s e = Ok out /\
    sampleRate out = sampleRate b /\
    numberOfChannels out = numberOfChannels b /\
    Forall (fun c => length c = frameLength out) (channels out) /\
    frameLength out = Z.to_nat (Z.max 1 (z - a)) /\
    (Z.abs (Z.of_nat (frameLength out)
            - Math_round ((e - s) * inject_Z (sampleRate b))) <= 1)%Z /\
    (forall i c, channels b !! i = Some c ->
       exists c', channels out !! i = Some c' /\
         forall j, (a <= j < z)%Z ->
           exists x y, c !! Z.to_nat j = Some x /\
                       c' !! Z.to_nat (j - a) = Some y /\ (y == x)%Q) /\
    (a = Qfloor (s * inject_Z (sampleRate b)) \/
     a = Qfloor (s * inject_Z (sampleRate b)) + 1 /\
     (mul64 s (inject_Z (sampleRate b)) == inject_Z a)%Q)%Z /\
    (z = Qfloor (e * inject_Z (sampleRate b)) \/
     z = Qfloor (e * inject_Z (sampleRate b)) + 1 /\
     (mul64 e (inject_Z (sampleRate b)) == inject_Z z)%Q)%Z.
Proof.
  intros Hwf Hn Hs He Hgap a z.
  pose proof Hwf as (Hsr & Hfl & Hnc & Hch).
  exists (sliceResult b s e).
  pose proof (sliceResult_wf b s e Hwf) as (_ & _ & _ & Hch').
  assert (Hse : (s <= e)%Q) by lra.
  pose proof (times_rate_le _ _ _ Hsr Hse) as HAB.
  pose proof (times_rate_le 0 s _ Hsr Hs) as HA. rewrite Qmult_0_l in HA.
  pose proof (end_product b e Hsr Hfl Hn He) as HB.
  assert (HB' : (e * inject_Z (sampleRate b) < 2 ^ 53)%Q).
  { assert (inject_Z (Z.of_nat (frameLength b)) < inject_Z (2 ^ 52))%Q
      by (now rewrite <- Zlt_Qlt).
    change (2 ^ 53)%Q with (inject_Z (2 ^ 53)).
    assert (inject_Z (2 ^ 52) + (1 # 2) <= inject_Z (2 ^ 53))%Q
      by (apply Qle_bool_iff; reflexivity).
    lra. }
  pose proof (floor_span _ _ HA HAB HB') as Hd. cbv zeta in Hd.
  fold (mul64 s (inject_Z (sampleRate b))) in Hd.
  fold (mul64 e (inject_Z (sampleRate b))) in Hd.
  fold (Math_floor (mul64 s (inject_Z (sampleRate b)))) in Hd.
  fold (Math_floor (mul64 e (inject_Z (sampleRate b)))) in Hd. fold a z in Hd.
  assert (Hr : Math_round ((e - s) * inject_Z (sampleRate b))
               = Qfloor (e * inject_Z (sampleRate b) - s * inject_Z (sampleRate b) + (1 # 2))).
  { unfold Math_round. apply Qfloor_comp. ring. }
  rewrite <- Hr in Hd. clear Hr.
  assert (Hr0 : (0 <= Math_round ((e - s) * inject_Z (sampleRate b)))%Z).
  { unfold Math_round. change 0%Z with (Qfloor 0). apply Qfloor_resp_le.
    pose proof (times_rate_le 0 (e - s) _ Hsr ltac:(lra)). lra. }
  assert (Hlen : frameLength (sliceResult b s e) = Z.to_nat (Z.max 1 (z - a))).
  { unfold sliceResult. fold a z.
    destruct (Z.leb_spec (z - a) 0); cbn [frameLength]; f_equal; lia. }
  split; [apply slice_closed_form; exact Hnc|].
  split; [unfold sliceResult; cbv zeta; now destruct (_ <=? 0)%Z|].
  split.
  { unfold sliceResult, numberOfChannels; cbv zeta.
    destruct (_ <=? 0)%Z; cbn [channels];
      [apply length_replicate | apply length_map]. }
  split; [exact Hch'|].
  split; [exact Hlen|].
  split; [rewrite Hlen; lia|].
  split.
  { intros i c Hc.
    destruct (Z.leb_spec (z - a) 0) as [Hz|Hz].
    - assert (Hi : (i < numberOfChannels b)%nat) by (eapply lookup_lt_Some; exact Hc).
      exists [0%Q]. split.
      + unfold sliceResult. fold a z. destruct (Z.leb_spec (z - a) 0); [|lia].
        cbn [channels]. now apply lookup_replicate_2.
      + intros j Hj. lia.
    - exists (sliceChannel c a (Z.to_nat (z - a))). split.
      + now apply sliceResult_channel.
      + intros j Hj.
        pose proof (start_nonneg _ _ Hsr Hs ltac:(lra)) as Ha. fold a in Ha.
        pose proof (end_within b e Hsr Hfl Hn ltac:(lra) He) as Hzl. fold z in Hzl.
        assert (Hcl : length c = frameLength b).
        { exact (Forall_lookup_1 _ _ _ _ Hch Hc). }
        destruct (lookup_lt_is_Some_2 c (Z.to_nat j)) as [x Hx]; [lia|].
        exists x, (or_zero (Some x)). split; [exact Hx|]. split.
        * rewrite sliceChannel_lookup by lia.
          rewrite read_inside by lia.
          replace (a + Z.of_nat (Z.to_nat (j - a)))%Z with j by lia.
          now rewrite Hx.
        * apply or_zero_some. }
  split.
  - destruct (floor_round64 _ HA ltac:(lra)) as [E|(E & E' & _)].
    + left. exact E.
    + right. split; [exact E|]. subst a. unfold Math_floor, mul64.
      rewrite E. exact E'.
  - destruct (floor_round64 (e * inject_Z (sampleRate b)) ltac:(lra) HB')
      as [E|(E & E' & _)].
    + left. exact E.
    + right. split; [exact E|]. subst z. unfold Math_floor, mul64.
      rewrite E. exact E'.
Qed.

Section SliceExamples.
Local Open Scope Q_scope.

(** The double nearest to 0.3, at 44100 Hz: the product rounds up to 13230,
    which is the frame the slice starts from; the exact product floors to
    13229. *)
Example product_rounds_to_frame :
  Math_floor (mul64 (round64 (3 # 10)) 44100) = 13230%Z /\
  Qfloor (round64 (3 # 10) * 44100) = 13229%Z.
Proof. split; vm_compute; reflexivity. Qed.

Lemma slice_frames_witness :
  wf_buffer Demo.stereo /\
  (Z.of_nat (frameLength Demo.stereo) < 2 ^ 52)%Z /\
  0 <= round64 (1 # 10) /\ duration Demo.stereo <= duration Demo.stereo /\
  1 # 10 <= duration Demo.stereo - round64 (1 # 10) /\
  exists out,
    sliceAudioBuffer Demo.stereo (round64 (1 # 10)) (duration Demo.stereo)
    = Ok out /\
    frameLength out = 2%nat.
Proof.
  assert (H0 : (Z.of_nat (frameLength Demo.stereo) < 2 ^ 52)%Z) by reflexivity.
  assert (H1 : 0 <= round64 (1 # 10)) by (apply Qle_bool_iff; reflexivity).
  assert (H2 : duration Demo.stereo <= duration Demo.stereo)
    by (apply Qle_bool_iff; reflexivity).
  assert (H3 : 1 # 10 <= duration Demo.stereo - round64 (1 # 10))
    by (apply Qle_bool_iff; reflexivity).
  split; [exact stereo_wf|]. split; [exact H0|]. split; [exact H1|].
  split; [exact H2|]. split; [exact H3|].
  destruct (slice_frames Demo.stereo (round64 (1 # 10)) (duration Demo.stereo)
              stereo_wf H0 H1 H2 H3)
    as (out & E & _ & _ & _ & L & _).
  exists out. split; [exact E | exact L].
Defined.

End SliceExamples.


(** C5.  [sliceAudioBuffer] returns a buffer for every well-formed source
    and every [(start, end)]: it never throws.  The result is well formed
    and has the source's sample rate and channel count.  When the frame
    count the code computes, the difference of the floors of the two
    products as doubles, is not positive, the result is one frame of
    silence on every channel; otherwise every result sample whose source
    index [floor(start*rate) + j] is negative or not below the source's
    length is zero. *)
Theorem slice_total (b : AudioBuffer) (s e : Q) :
  wf_buffer b ->
  let a := Math_floor (mul64 s (inject_Z (sampleRate b))) in
  let z := Math_floor (mul64 e (inject_Z (sampleRate b))) in
  exists out,
    sliceAudioBuffer b s e = Ok out /\
    wf_buffer out /\
    sampleRate out = sampleRate b /\
    numberOfChannels out = numberOfChannels b /\
    ((z - a <= 0)%Z ->
       frameLength out = 1%nat /\
       channels out = replicate (numberOfChannels b) [0%Q]) /\
    ((0 < z - a)%Z ->
       frameLength out = Z.to_nat (z - a) /\
       forall i c, channels b !! i = Some c ->
         exists c', channels out !! i = Some c' /\
           forall j : nat, (j < frameLength out)%nat ->
             (a + Z.of_nat j < 0 \/ Z.of_nat (length c) <= a + Z.of_nat j)%Z ->
             c' !! j = Some 0%Q).
Proof.
  intros Hwf a z. pose proof Hwf as (Hsr & Hfl & Hnc & Hch).
  exists (sliceResult b s e).
  split; [apply slice_closed_form; exact Hnc|].
  split; [apply sliceResult_wf; exact Hwf|].
  split; [unfold sliceResult; cbv zeta; now destruct (_ <=? 0)%Z|].
  split.
  { unfold sliceResult, numberOfChannels; cbv zeta.
    destruct (_ <=? 0)%Z; cbn [channels];
      [apply length_replicate | apply length_map]. }
  split; intros Hfc; unfold sliceResult; fold a z;
    destruct (Z.leb_spec (z - a) 0); try lia; cbn [frameLength channels].
  - split; reflexivity.
  - split; [reflexivity|]. intros i c Hc.
    exists (sliceChannel c a (Z.to_nat (z - a))). split.
    + rewrite list_lookup_fmap, Hc. reflexivity.
    + intros j Hj Hout. rewrite sliceChannel_lookup by exact Hj.
      rewrite read_outside by exact Hout. reflexivity.
Qed.

Section SliceTotalExamples.
Local Open Scope Q_scope.

(** At 10 Hz the doubles nearest to 0.29 and 0.3 lie on two sides of frame
    3: the code copies frame 2, where the exact products both floor to 2. *)
Example products_split_a_frame :
  Math_floor (mul64 (round64 (29 # 100)) 10) = 2%Z /\
  Math_floor (mul64 (round64 (3 # 10)) 10) = 3%Z /\
  Qfloor (round64 (3 # 10) * 10) = 2%Z.
Proof. repeat split; vm_compute; reflexivity. Qed.

Lemma slice_total_witness :
  wf_buffer Demo.stereo /\
  exists out,
    sliceAudioBuffer Demo.stereo (1 # 2) (1 # 10) = Ok out /\
    frameLength out = 1%nat.
Proof.
  split; [exact stereo_wf|].
  destruct (slice_total Demo.stereo (1 # 2) (1 # 10) stereo_wf)
    as (out & E & _ & _ & _ & Hempty & _).
  exists out. split; [exact E|].
  apply Hempty. vm_compute. discriminate.
Defined.

End SliceTotalExamples.

Lemma totalLength_from (bs : list AudioBuffer) (k : nat) :
  fold_left (fun acc b => (acc + frameLength b)%nat) bs k
  = (k + sum_list (map frameLength bs))%nat.
Proof.
  revert k. induction bs as [|b bs IH]; intros k; cbn.
  - lia.
  - rewrite IH. lia.
Qed.

Lemma totalLength_sum (bs : list AudioBuffer) :
  totalLength bs = sum_list (map frameLength bs).
Proof. unfold totalLength. now rewrite totalLength_from. Qed.

Lemma sourceChannel_get (i : nat) (b : AudioBuffer) :
  wf_buffer b ->
  (if (i <? numberOfChannels b)%nat then getChannelData b i else getChannelData b 0)
  = Ok (sourceChannel i b) /\
  channels b !! (if (i <? numberOfChannels b)%nat then i else 0%nat)
  = Some (sourceChannel i b) /\
  length (sourceChannel i b) = frameLength b.
Proof.
  intros (_ & _ & Hnc & Hch). unfold sourceChannel, getChannelData.
  destruct (Nat.ltb_spec i (numberOfChannels b)) as [Hi|Hi].
  - destruct (lookup_lt_is_Some_2 (channels b) i Hi) as [c Hc]. rewrite Hc.
    repeat split. exact (Forall_lookup_1 _ _ _ _ Hch Hc).
  - destruct (lookup_lt_is_Some_2 (channels b) 0 Hnc) as [c Hc]. rewrite Hc.
    repeat split. exact (Forall_lookup_1 _ _ _ _ Hch Hc).
Qed.

Lemma join_channel (i : nat) (bs : list AudioBuffer) :
  Forall wf_buffer bs ->
  forall pre rest,
    length rest = sum_list (map frameLength bs) ->
    foldM (joinStep i) bs (pre ++ rest, length pre)
    = Ok (pre ++ concat (map (sourceChannel i) bs),
          (length pre + sum_list (map frameLength bs))%nat).
Proof.
  induction 1 as [|b bs Hb Hbs IH]; intros pre rest Hrest; cbn in Hrest.
  - destruct rest; [|discriminate]. cbn. now rewrite Nat.add_0_r.
  - destruct (sourceChannel_get i b Hb) as (Hget & _ & Hlen).
    cbn [foldM]. unfold joinStep at 1.
    rewrite Hget. cbn [bind].
    rewrite typed_set_at by lia. cbn [bind].
    replace (length pre + frameLength b)%nat
      with (length (pre ++ sourceChannel i b)) by (rewrite length_app; lia).
    rewrite IH by (rewrite length_drop; lia).
    rewrite length_app, <- app_assoc. cbn. do 2 f_equal. lia.
Qed.
Lemma maxChannels_bound (bs : list AudioBuffer) (b : AudioBuffer) :
  b ∈ bs -> (numberOfChannels b <= maxChannels bs)%nat.
Proof.
  unfold maxChannels. induction 1 as [b bs|b b' bs _ IH]; cbn; lia.
Qed.

Lemma maxChannels_attained (bs : list AudioBuffer) :
  bs <> [] -> exists b, b ∈ bs /\ numberOfChannels b = maxChannels bs.
Proof.
  unfold maxChannels. induction bs as [|b bs IH]; [congruence|]. intros _.
  destruct bs as [|b' bs'].
  - exists b. split; [apply list_elem_of_here|]. cbn. lia.
  - destruct (IH ltac:(congruence)) as (m & Hm & Hmax).
    cbn [map fold_right] in *.
    destruct (Nat.max_spec (numberOfChannels b)
                (Nat.max (numberOfChannels b')
                   (fold_right Nat.max 0%nat (map numberOfChannels bs'))))
      as [[_ E]|[_ E]]; rewrite E.
    + exists m. split; [now apply list_elem_of_further | exact Hmax].
    + exists b. split; [apply list_elem_of_here | reflexivity].
Qed.

Lemma join_closed_form (first : AudioBuffer) (rest : list AudioBuffer) :
  Forall wf_buffer (first :: rest) ->
  joinAudioBuffers (first :: rest) = Ok (joinResult first (first :: rest)).
Proof.
  intros Hwf. unfold joinAudioBuffers. cbv zeta.
  set (bs := first :: rest) in *.
  assert (Hfirst : wf_buffer first) by (now apply Forall_inv in Hwf).
  destruct Hfirst as (_ & Hfl & Hnc & _).
  assert (Hmax : (0 < maxChannels bs)%nat).
  { pose proof (maxChannels_bound bs first ltac:(apply list_elem_of_here)). lia. }
  assert (Htot : (0 < sum_list (map frameLength bs))%nat) by (cbn; lia).
  rewrite totalLength_sum.
  rewrite createBuffer_ok by lia. cbn [bind]. rewrite Nat2Z.id.
  set (n := sum_list (map frameLength bs)) in *.
  pose proof (foldM_store
    (fun newBuffer i =>
       let* channelData := getChannelData newBuffer i in
       let* ' (channelData', _) := foldM (joinStep i) bs (channelData, 0%nat) in
       Ok (storeChannel newBuffer i channelData'))
    (fun i => concat (map (sourceChannel i) bs))
    (replicate n 0%Q) (maxChannels bs) (sampleRate first) n) as H.
  cbv beta in H.
  specialize (H ltac:(
    intros nb i Hi Hz; unfold getChannelData; rewrite Hz; cbn [bind];
    pose proof (join_channel i bs Hwf [] (replicate n 0%Q)
                  ltac:(apply length_replicate)) as J;
    cbn [app length] in J; rewrite J; reflexivity)).
  specialize (H (maxChannels bs) 0%nat eq_refl). cbn [seq map app] in H.
  exact H.
Qed.
Lemma joinResult_wf first bs :
  Forall wf_buffer bs -> first ∈ bs -> wf_buffer first -> wf_buffer (joinResult first bs).
Proof.
  intros Hwf Hin (Hsr & Hfl & Hnc & _).
  unfold wf_buffer, joinResult, numberOfChannels. cbn [sampleRate frameLength channels].
  rewrite length_map, length_seq.
  pose proof (maxChannels_bound bs first Hin).
  assert (Hsum : (frameLength first <= sum_list (map frameLength bs))%nat).
  { clear -Hin. induction Hin; cbn; lia. }
  repeat split; try assumption; try lia.
  apply Forall_map, Forall_forall. intros i _. cbn.
  clear -Hwf. induction Hwf as [|b bs Hb _ IH]; [reflexivity|].
  cbn. rewrite length_app, IH.
  now destruct (sourceChannel_get i b Hb) as (_ & _ & ->).
Qed.

(** C4.  [joinAudioBuffers []] is the one-frame, one-channel, 44100 Hz
    silent buffer.  On a non-empty list of well-formed buffers the result
    has as many channels as the input with the most channels, the sum of
    the inputs' frame counts as frame count, the first input's sample rate,
    and its output channel [i] is the concatenation, in list order, of one
    channel per input: channel [i] of the input when it has more than [i]
    channels, channel 0 otherwise. *)
Theorem join_shape (bs : list AudioBuffer) :
  joinAudioBuffers [] = Ok (mkBuffer 44100 1 [[0%Q]]) /\
  (forall first rest,
      bs = first :: rest ->
      Forall wf_buffer bs ->
      exists out,
        joinAudioBuffers bs = Ok out /\
        (forall b, b ∈ bs -> (numberOfChannels b <= numberOfChannels out)%nat) /\
        (exists b, b ∈ bs /\ numberOfChannels b = numberOfChannels out) /\
        frameLength out = sum_list (map frameLength bs) /\
        sampleRate out = sampleRate first /\
        Forall (fun c => length c = frameLength out) (channels out) /\
        (forall i, (i < numberOfChannels out)%nat ->
           exists srcs,
             Forall2 (fun b src =>
                        channels b
                          !! (if decide (i < numberOfChannels b)%nat then i else 0%nat)
                        = Some src) bs srcs /\
             channels out !! i = Some (concat srcs))).
Proof.
  split; [reflexivity|].
  intros first rest -> Hwf.
  exists (joinResult first (first :: rest)).
  assert (Hnc : numberOfChannels (joinResult first (first :: rest))
                = maxChannels (first :: rest)).
  { unfold joinResult, numberOfChannels at 1. cbn [channels].
    now rewrite length_map, length_seq. }
  split; [now apply join_closed_form|].
  split; [intros b Hb; rewrite Hnc; now apply maxChannels_bound|].
  split; [rewrite Hnc; now apply maxChannels_attained|].
  split; [reflexivity|].
  split; [reflexivity|].
  split.
  { apply joinResult_wf; [exact Hwf | apply list_elem_of_here | now apply Forall_inv in Hwf]. }
  intros i Hi. rewrite Hnc in Hi.
  exists (map (sourceChannel i) (first :: rest)). split.
  - apply Forall2_fmap_r, Forall_Forall2_diag.
    eapply Forall_impl; [exact Hwf|]. intros b Hb. cbv beta.
    destruct (sourceChannel_get i b Hb) as (_ & Hlk & _).
    destruct (decide (i < numberOfChannels b)%nat) as [H|H];
      destruct (Nat.ltb_spec i (numberOfChannels b)); try lia; exact Hlk.
  - unfold joinResult. cbn [channels].
    rewrite list_lookup_fmap, lookup_seq_lt by exact Hi. reflexivity.
Qed.

Lemma join_shape_witness :
  Forall wf_buffer [Demo.stereo; Demo.mono] /\
  exists out,
    joinAudioBuffers [Demo.stereo; Demo.mono] = Ok out /\
    frameLength out = 5%nat /\ sampleRate out = 10%Z.
Proof.
  assert (Hwf : Forall wf_buffer [Demo.stereo; Demo.mono]).
  { constructor; [exact stereo_wf|]. constructor; [exact mono_wf|]. constructor. }
  split; [exact Hwf|].
  destruct (join_shape [Demo.stereo; Demo.mono]) as [_ H].
  destruct (H Demo.stereo [Demo.mono] eq_refl Hwf)
    as (out & E & _ & _ & L & R & _).
  exists out. split; [exact E|]. split; [exact L | exact R].
Defined.


(** C8.  Joining the singleton list [[A]] of a well-formed buffer gives [A]
    back: same channel count, frame count and sample rate, and the same
    samples on every channel. *)
Theorem join_singleton (A : AudioBuffer) :
  wf_buffer A ->
  exists out,
    joinAudioBuffers [A] = Ok out /\
    numberOfChannels out = numberOfChannels A /\
    frameLength out = frameLength A /\
    sampleRate out = sampleRate A /\
    channels out = channels A /\
    out = A.
Proof.
  intros Hwf.
  assert (E : joinResult A [A] = A).
  { destruct A as [sr fl chs]. unfold joinResult, maxChannels.
    cbn [map fold_right sum_list sum_list_with sampleRate frameLength concat].
    rewrite Nat.max_0_r, Nat.add_0_r. f_equal.
    unfold sourceChannel, numberOfChannels. cbn [channels].
    apply list_eq. intros i. rewrite list_lookup_fmap.
    destruct (chs !! i) as [c|] eqn:Hc.
    - pose proof (lookup_lt_Some _ _ _ Hc) as Hi.
      rewrite lookup_seq_lt by exact Hi. cbn -[Nat.ltb].
      destruct (Nat.ltb_spec i (length chs)); [|lia].
      now rewrite Hc, app_nil_r.
    - rewrite lookup_seq_ge; [reflexivity|]. now apply lookup_ge_None_1. }
  exists (joinResult A [A]). split.
  - apply join_closed_form. now apply Forall_singleton.
  - now rewrite E.
Qed.

Lemma join_singleton_witness :
  wf_buffer Demo.mono /\ joinAudioBuffers [Demo.mono] = Ok Demo.mono.
Proof.
  split; [exact mono_wf|].
  destruct (join_singleton Demo.mono mono_wf) as (out & E & _ & _ & _ & _ & ->).
  exact E.
Defined.

Lemma le_bytes_length (n : nat) (data : Z) : length (le_bytes n data) = n.
Proof. unfold le_bytes. now rewrite length_map, length_seq. Qed.

Lemma setUint32_ok (w : writer) (data : Z) :
  (snd w + 4 <= length (fst w))%nat ->
  exists view, setUint32 w data = Ok (view, (snd w + 4)%nat)
               /\ length view = length (fst w).
Proof.
  intros H. unfold setUint32.
  destruct (typed_set_ok (fst w) (le_bytes 4 data) (snd w)) as (v & -> & Hv);
    [rewrite le_bytes_length; lia|].
  exists v. split; [reflexivity | exact Hv].
Qed.

Lemma setUint16_ok (w : writer) (data : Z) :
  (snd w + 2 <= length (fst w))%nat ->
  exists view, setUint16 w data = Ok (view, (snd w + 2)%nat)
               /\ length view = length (fst w).
Proof.
  intros H. unfold setUint16.
  destruct (typed_set_ok (fst w) (le_bytes 2 data) (snd w)) as (v & -> & Hv);
    [rewrite le_bytes_length; lia|].
  exists v. split; [reflexivity | exact Hv].
Qed.

Ltac header_step :=
  match goal with
  | |- context [setUint32 ?w ?d] =>
      let v := fresh "v" in let E := fresh "E" in let L := fresh "L" in
      destruct (setUint32_ok w d) as (v & E & L);
      [cbn [fst snd]; lia | rewrite E; cbn [bind fst snd] in *; clear E]
  | |- context [setUint16 ?w ?d] =>
      let v := fresh "v" in let E := fresh "E" in let L := fresh "L" in
      destruct (setUint16_ok w d) as (v & E & L);
      [cbn [fst snd]; lia | rewrite E; cbn [bind fst snd] in *; clear E]
  end.

Lemma writeHeader_ok (b : AudioBuffer) (len : nat) (view : list Z) :
  (44 <= length view)%nat ->
  exists view', writeHeader b len (view, 0%nat) = Ok (view', 44%nat)
                /\ length view' = length view.
Proof.
  intros H. unfold writeHeader.
  do 13 header_step.
  eexists. split; [reflexivity | lia].
Qed.
Lemma writeSamples_ok (chs : list (list Q)) (pos : nat) (ixs : list nat) :
  forall view offset,
    (44 + offset + 2 * length ixs <= length view)%nat ->
    exists view',
      foldM (writeSample chs pos) ixs (view, offset)
      = Ok (view', (offset + 2 * length ixs)%nat)
      /\ length view' = length view.
Proof.
  induction ixs as [|i ixs IH]; intros view offset H; cbn [foldM length] in *.
  - exists view. split; [do 2 f_equal; lia | reflexivity].
  - unfold writeSample at 1, setInt16.
    match goal with |- context [typed_set view ?s ?o] =>
      destruct (typed_set_ok view s o) as (v & -> & Hv);
        [rewrite le_bytes_length; lia|] end.
    cbn [bind].
    destruct (IH v (offset + 2)%nat) as (v' & -> & Hv'); [lia|].
    exists v'. split; [do 2 f_equal; lia | lia].
Qed.

Lemma writeFrames_ok (chs : list (list Q)) (nc : nat) (ps : list nat) :
  forall view offset,
    (44 + offset + 2 * nc * length ps <= length view)%nat ->
    exists view' offset',
      foldM (fun st pos => foldM (writeSample chs pos) (seq 0 nc) st) ps
            (view, offset)
      = Ok (view', offset')
      /\ length view' = length view.
Proof.
  induction ps as [|p ps IH]; intros view offset H; cbn [foldM length] in *.
  - exists view, offset. split; reflexivity.
  - destruct (writeSamples_ok chs p (seq 0 nc) view offset) as (v & -> & Hv);
      [rewrite length_seq; nia|].
    cbn [bind]. rewrite length_seq.
    destruct (IH v (offset + 2 * nc)%nat) as (v' & o' & -> & Hv'); [nia|].
    exists v', o'. split; [reflexivity | lia].
Qed.

(** The encoder never throws, whatever the buffer. *)
Lemma bufferToWav_ok (b : AudioBuffer) :
  exists payload,
    bufferToWav b = Ok {| bytes := payload; type := "audio/wav" |}
    /\ length payload = (frameLength b * numberOfChannels b * 2 + 44)%nat.
Proof.
  unfold bufferToWav.
  set (len := (frameLength b * numberOfChannels b * 2 + 44)%nat).
  destruct (writeHeader_ok b len (replicate len 0%Z)) as (v & -> & Hv);
    [rewrite length_replicate; subst len; lia|].
  cbn [bind]. rewrite length_replicate in Hv.
  destruct (writeFrames_ok (channels b) (numberOfChannels b)
              (seq 44 (frameLength b - 44)) v 0%nat) as (v' & o' & -> & Hv');
    [rewrite length_seq, Hv; subst len; nia|].
  cbn [bind]. exists v'. split; [reflexivity | lia].
Qed.

(** The data loop takes its frame index from the [pos] the header has left
    at 44: of the 46 frames of [Demo.long] only the last two (-1, encoded
    as 00 80) are written, at the head of the data section, and the rest of
    the section stays zero. *)
Example bufferToWav_starts_at_frame_44 :
  match bufferToWav Demo.long with
  | Ok b =>
      length (bytes b) = (44 + 2 * 46)%nat /\
      take 4 (drop 44 (bytes b)) = [0; 128; 0; 128]%Z /\
      drop 48 (bytes b) = replicate 88 0%Z
  | Throw _ => False
  end.
Proof. vm_compute. split; [|split]; reflexivity. Qed.

End AudioUtilsFacts.

(** ** components/WaveformEditor.tsx *)

Module WaveformEditorFacts.
Import Js WaveformEditor JsFacts.
Local Open Scope Q_scope.

Lemma peak_reads (data : list Q) (i step m k : nat) (acc : Q * Q) :
  fold_left (peakStep data i step) (seq k m) acc
  = fold_left peakOf (take m (drop (i * step + k) data)) acc.
Proof.
  revert k acc. induction m as [|m IH]; intros k acc; [reflexivity|].
  cbn [seq fold_left]. rewrite IH.
  unfold peakStep. destruct acc as [mn mx].
  destruct (data !! (i * step + k)%nat) as [x|] eqn:E.
  - rewrite (drop_S _ _ _ E). cbn [take fold_left].
    replace (S (i * step + k)) with (i * step + S k)%nat by lia. reflexivity.
  - apply lookup_ge_None_1 in E.
    rewrite !drop_ge by lia. now rewrite take_nil.
Qed.

Lemma columnPeak_window (data : list Q) (step i : nat) :
  columnPeak data step i
  = fold_left peakOf (take step (drop (i * step) data)) (1, -1).
Proof.
  unfold columnPeak. rewrite peak_reads. now rewrite Nat.add_0_r.
Qed.

(** What the fold computes over a window, from any starting pair. *)
Lemma peakOf_fold (w : list Q) (m0 M0 : Q) :
  let r := fold_left peakOf w (m0, M0) in
  (fst r <= m0 /\ M0 <= snd r) /\
  (forall x, x ∈ w -> fst r <= x /\ x <= snd r) /\
  (fst r = m0 \/ fst r ∈ w) /\
  (snd r = M0 \/ snd r ∈ w).
Proof.
  revert m0 M0. induction w as [|x w IH]; intros m0 M0; cbn [fold_left].
  - cbn. split; [split; lra|]. split; [intros x Hx; inversion Hx|].
    split; now left.
  - set (m1 := if ltb x m0 then x else m0).
    set (M1 := if ltb M0 x then x else M0).
    change (peakOf (m0, M0) x) with (m1, M1).
    destruct (IH m1 M1) as ((Hm & HM) & Hall & Hmin & Hmax).
    assert (Hm1 : m1 <= m0 /\ m1 <= x /\ (m1 = m0 \/ m1 = x)).
    { subst m1. destruct (ltb x m0) eqn:E.
      - apply ltb_true in E. repeat split; try lra. now right.
      - apply ltb_false in E. repeat split; try lra. now left. }
    assert (HM1 : M0 <= M1 /\ x <= M1 /\ (M1 = M0 \/ M1 = x)).
    { subst M1. destruct (ltb M0 x) eqn:E.
      - apply ltb_true in E. repeat split; try lra. now right.
      - apply ltb_false in E. repeat split; try lra. now left. }
    destruct Hm1 as (? & ? & Hm1), HM1 as (? & ? & HM1).
    cbv zeta. split; [split; lra|]. split; [|split].
    + intros y Hy. apply elem_of_cons in Hy as [->|Hin]; [lra | now apply Hall].
    + destruct Hmin as [E|Hin]; [|right; now apply list_elem_of_further].
      rewrite E. destruct Hm1 as [->| ->]; [now left | right; apply list_elem_of_here].
    + destruct Hmax as [E|Hin]; [|right; now apply list_elem_of_further].
      rewrite E. destruct HM1 as [->| ->]; [now left | right; apply list_elem_of_here].
Qed.

Lemma stepOf_ceil (len width : nat) :
  (0 < width)%nat ->
  (len <= stepOf len width * width /\ stepOf len width * width < len + width)%nat.
Proof.
  intros Hw. unfold stepOf, Math_ceil.
  set (x := inject_Z (Z.of_nat len) / inject_Z (Z.of_nat width)).
  pose proof (Qle_ceiling x) as H1. pose proof (Qceiling_lt x) as H2.
  assert (Hw0 : 0 < inject_Z (Z.of_nat width)).
  { change 0 with (inject_Z 0). rewrite <- Zlt_Qlt. lia. }
  assert (Hx : x * inject_Z (Z.of_nat width) == inject_Z (Z.of_nat len)).
  { subst x. field. lra. }
  assert (Hl0 : 0 <= inject_Z (Z.of_nat len)).
  { change 0 with (inject_Z 0). rewrite <- Zle_Qle. lia. }
  assert (Hx0 : 0 <= x).
  { subst x. apply Qle_shift_div_l; [exact Hw0 | lra]. }
  assert (Hc0 : (0 <= Qceiling x)%Z).
  { rewrite Zle_Qle. change (inject_Z 0) with 0. lra. }
  assert (A : (Z.of_nat len <= Qceiling x * Z.of_nat width)%Z).
  { rewrite Zle_Qle, inject_Z_mult, <- Hx.
    apply Qmult_le_compat_r; [exact H1 | lra]. }
  assert (B : ((Qceiling x - 1) * Z.of_nat width < Z.of_nat len)%Z).
  { rewrite Zlt_Qlt, inject_Z_mult, <- Hx.
    apply Qmult_lt_compat_r; [exact Hw0 | exact H2]. }
  nia.
Qed.
(** C2, as the source has it.  For samples in [-1, 1] and a positive width,
    with [step = ceil(length / width)]: there is one (min, max) pair per
    column [i < width]; when the window [i*step, (i+1)*step) meets the
    buffer, min and max are the least and the greatest sample of the part
    of the window inside the buffer; when the window lies entirely past the
    end, the pair is the initial (1, -1). *)
Theorem peaks_columns (data : list Q) (width : nat) :
  (0 < width)%nat ->
  Forall (fun x => -1 <= x /\ x <= 1) data ->
  let step := stepOf (length data) width in
  (length data <= step * width /\ step * width < length data + width)%nat /\
  length (peaks data width) = width /\
  forall i, (i < width)%nat ->
    exists mn mx,
      peaks data width !! i = Some (mn, mx) /\
      let window := take step (drop (i * step) data) in
      ((i * step < length data)%nat ->
         (exists x, x ∈ window /\ x == mn) /\
         (exists x, x ∈ window /\ x == mx) /\
         (forall x, x ∈ window -> mn <= x /\ x <= mx)) /\
      ((length data <= i * step)%nat -> mn = 1 /\ mx = -1).
Proof.
  intros Hw Hrange step.
  pose proof (stepOf_ceil (length data) width Hw) as Hceil. fold step in Hceil.
  assert (Hpeaks : peaks data width = map (columnPeak data step) (seq 0 width)).
  { unfold peaks. destruct (Nat.eqb_spec width 0); [lia | reflexivity]. }
  split; [exact Hceil|].
  split; [rewrite Hpeaks; now rewrite length_map, length_seq|].
  intros i Hi.
  set (window := take step (drop (i * step) data)).
  pose proof (peakOf_fold window 1 (-1)) as Hfold. cbv zeta in Hfold.
  destruct Hfold as ((Hm & HM) & Hall & Hmin & Hmax).
  exists (fst (fold_left peakOf window (1, -1))),
         (snd (fold_left peakOf window (1, -1))).
  split.
  { rewrite Hpeaks, list_lookup_fmap, lookup_seq_lt by exact Hi. cbn.
    rewrite columnPeak_window. fold window. now destruct (fold_left _ _ _). }
  cbv zeta. fold window. split.
  - intros Hin.
    assert (Hstep : (0 < step)%nat) by nia.
    destruct (lookup_lt_is_Some_2 data (i * step) Hin) as [x0 Hx0].
    assert (Hx0w : x0 ∈ window).
    { subst window. rewrite (drop_S _ _ _ Hx0).
      destruct step; [lia|]. apply list_elem_of_here. }
    assert (Hwr : Forall (fun x => -1 <= x /\ x <= 1) window).
    { subst window. now apply Forall_take, Forall_drop. }
    rewrite Forall_forall in Hwr.
    split; [|split].
    + destruct Hmin as [E|Hmem]; [|eexists; split; [exact Hmem | reflexivity]].
      exists x0. split; [exact Hx0w|].
      destruct (Hall x0 Hx0w) as [L _]. destruct (Hwr x0 Hx0w) as [_ U].
      rewrite E in *. lra.
    + destruct Hmax as [E|Hmem]; [|eexists; split; [exact Hmem | reflexivity]].
      exists x0. split; [exact Hx0w|].
      destruct (Hall x0 Hx0w) as [_ U]. destruct (Hwr x0 Hx0w) as [L _].
      rewrite E in *. lra.
    + exact Hall.
  - intros Hout. subst window. rewrite drop_ge by exact Hout.
    rewrite take_nil. split; reflexivity.
Qed.

Lemma peaks_columns_witness :
  (0 < 2)%nat /\
  Forall (fun x => -1 <= x /\ x <= 1) [1 # 2; - (1 # 4); 0] /\
  exists mn mx,
    peaks [1 # 2; - (1 # 4); 0] 2 !! 0%nat = Some (mn, mx) /\
    mn <= 1 # 2 /\ 1 # 2 <= mx.
Proof.
  assert (Hr : Forall (fun x => -1 <= x /\ x <= 1) [1 # 2; - (1 # 4); 0]).
  { repeat constructor; apply Qle_bool_iff; reflexivity. }
  split; [lia|]. split; [exact Hr|].
  destruct (peaks_columns [1 # 2; - (1 # 4); 0] 2 ltac:(lia) Hr)
    as (_ & _ & Hcol).
  destruct (Hcol 0%nat ltac:(lia)) as (mn & mx & Hlk & Hin & _).
  exists mn, mx. split; [exact Hlk|].
  destruct (Hin ltac:(vm_compute; lia)) as (_ & _ & Hall).
  apply (Hall (1 # 2)). vm_compute. apply list_elem_of_here.
Defined.


(** C2 as stated fails on a one-sample buffer drawn two pixels wide: the
    window of column 1 is past the end, and the column holds (1, -1), not
    the prior sample 1/2 as both min and max. *)
Lemma peaks_past_end_sentinels :
  let data := [1 # 2] in
  (length data <= 1 * stepOf (length data) 2)%nat /\
  data !! 0%nat = Some (1 # 2) /\
  peaks data 2 !! 1%nat = Some (1, -1) /\
  ~ (1 == 1 # 2) /\ ~ (-1 == 1 # 2) /\ ~ (1 == -1).
Proof.
  cbv zeta. split; [vm_compute; lia|]. split; [reflexivity|].
  split; [reflexivity|]. repeat split; intros H; discriminate H.
Qed.
(** C6.  Dragging the start handle to pointer time [t] yields the start
    [min (max 0 t) (end - 0.1)], which is exactly [end - 0.1] when
    [t > end - 0.1], and leaves the end untouched; dragging the end handle
    yields the end [max (min duration t) (start + 0.1)], exactly
    [start + 0.1] when [t < start + 0.1], and leaves the start untouched. *)
Theorem drag_resolution (sel : Selection) (f : AudioFile) (t : Q) :
  (exists s',
      handlePointerMove (Some DragStart) (Some f) sel t = Some s' /\
      start s' == Qmin (Qmax 0 t) (end_ sel - (1 # 10)) /\
      (end_ sel - (1 # 10) < t -> start s' = end_ sel - (1 # 10)) /\
      end_ s' = end_ sel) /\
  (exists s',
      handlePointerMove (Some DragEnd) (Some f) sel t = Some s' /\
      end_ s' == Qmax (Qmin (file_duration f) t) (start sel + (1 # 10)) /\
      (t < start sel + (1 # 10) -> end_ s' = start sel + (1 # 10)) /\
      start s' = start sel).
Proof.
  split; eexists; (split; [reflexivity|]); cbn [start end_]; unfold geb, leb, minDuration.
  - repeat split.
    + rewrite <- Math_max_Qmax.
      destruct (Qle_bool _ _) eqn:E.
      * apply Qle_bool_iff in E. symmetry. apply Q.min_r. exact E.
      * apply Qle_bool_false in E. symmetry. apply Q.min_l. lra.
    + intros Ht. destruct (Qle_bool _ _) eqn:E; [reflexivity|].
      apply Qle_bool_false in E. pose proof (Math_max_Qmax 0 t) as M.
      pose proof (Q.le_max_r 0 t). lra.
  - repeat split.
    + rewrite <- Math_min_Qmin.
      destruct (Qle_bool _ _) eqn:E.
      * apply Qle_bool_iff in E. symmetry. apply Q.max_r. exact E.
      * apply Qle_bool_false in E. symmetry. apply Q.max_l. lra.
    + intros Ht. destruct (Qle_bool _ _) eqn:E; [reflexivity|].
      apply Qle_bool_false in E. pose proof (Math_min_Qmin (file_duration f) t) as M.
      pose proof (Q.le_min_r (file_duration f) t). lra.
Qed.

Lemma drag_resolution_witness :
  exists s',
    handlePointerMove (Some DragStart) (Some Demo.song)
                      {| start := 0; end_ := 3 # 10 |} (1 # 4)
    = Some s' /\
    start s' = (3 # 10) - (1 # 10).
Proof.
  destruct (drag_resolution {| start := 0; end_ := 3 # 10 |} Demo.song (1 # 4))
    as [(s' & E & _ & Hclamp & _) _].
  exists s'. split; [exact E|]. apply Hclamp. reflexivity.
Defined.


End WaveformEditorFacts.

(** ** App.tsx *)

Module AppFacts.
Import Js AudioUtils App JsFacts ArrayFacts AudioUtilsFacts.

(** *** Play and pause *)

Section Playback.
Local Open Scope Q_scope.

Lemma resolved_inside sel cur :
  start sel <= cur -> cur < end_ sel -> resolved sel cur = cur.
Proof.
  intros H1 H2. unfold resolved.
  apply geb_false in H2. apply ltb_false in H1. now rewrite H1, H2.
Qed.

Lemma resolved_outside sel cur :
  cur < start sel \/ end_ sel <= cur -> resolved sel cur = start sel.
Proof.
  intros [H|H]; unfold resolved.
  - apply ltb_true in H. rewrite H. now rewrite orb_true_r.
  - apply geb_true in H. now rewrite H.
Qed.

Lemma resolved_range sel cur :
  start sel < end_ sel -> start sel <= resolved sel cur /\ resolved sel cur < end_ sel.
Proof.
  intros Hv. unfold resolved.
  destruct (geb cur (end_ sel)) eqn:E1; cbn; [lra|].
  destruct (ltb cur (start sel)) eqn:E2; [lra|].
  apply geb_false in E1. apply ltb_false in E2. lra.
Qed.

(** C9.  With a file loaded, playback stopped and [start < end] in the
    selection, play/pause starts playback at the cursor when the cursor is
    in [start, end) and at [start] otherwise; the cursor shows that
    position after the call, and the source node is started at it for the
    duration that ends at the selection's end. *)
Theorem playPause_from_stopped (st : State) (a : AudioFile) (now : Q) :
  isPlaying st = false ->
  mainAudio st = Some a ->
  start (selection st) < end_ (selection st) ->
  let sel := selection st in
  let cur := currentTime st in
  let st' := togglePlayPause st now st in
  exists c,
    (start sel <= cur /\ cur < end_ sel -> c = cur) /\
    (cur < start sel \/ end_ sel <= cur -> c = start sel) /\
    isPlaying st' = true /\
    sourceNodeRef st' = Some {| src_offset := c; src_duration := end_ sel - c |} /\
    currentTime st' == c /\
    start sel <= c /\ c < end_ sel /\
    c + (end_ sel - c) == end_ sel /\
    selection st' = sel.
Proof.
  intros Hstop Haudio Hsel sel cur st'.
  exists (resolved sel cur).
  pose proof (resolved_range sel cur Hsel) as [Hlo Hhi].
  split; [intros [H1 H2]; now apply resolved_inside|].
  split; [apply resolved_outside|].
  subst st'. unfold togglePlayPause, playAudio. rewrite Hstop, Haudio.
  fold sel cur. fold (resolved sel cur).
  assert (E : ltb (resolved sel cur) (start sel)
              || geb (resolved sel cur) (end_ sel) = false).
  { apply orb_false_iff. split; [now apply ltb_false | now apply geb_false]. }
  rewrite E. unfold update. cbn [startTimeRef setIsPlaying setSourceNodeRef setStartTimeRef]. fold sel.
  assert (E' : geb (now - (now - resolved sel cur)) (end_ sel) = false).
  { apply geb_false. lra. }
  rewrite E'. cbn.
  repeat split; try assumption; try reflexivity; lra.
Qed.

Lemma playPause_from_stopped_witness :
  isPlaying Demo.loaded = false /\
  mainAudio Demo.loaded = Some Demo.song /\
  start (selection Demo.loaded) < end_ (selection Demo.loaded) /\
  isPlaying (togglePlayPause Demo.loaded 7 Demo.loaded) = true.
Proof.
  assert (H : start (selection Demo.loaded) < end_ (selection Demo.loaded))
    by reflexivity.
  split; [reflexivity|]. split; [reflexivity|]. split; [exact H|].
  destruct (playPause_from_stopped Demo.loaded Demo.song 7 eq_refl eq_refl H)
    as (c & _ & _ & Hp & _).
  exact Hp.
Defined.

End Playback.

(** *** The clip registry *)

Lemma toString_inj (a b : Z) : toString a = toString b -> a = b.
Proof.
  unfold toString. intros H.
  apply (f_equal DecimalString.NilEmpty.int_of_string) in H.
  rewrite !DecimalString.NilEmpty.isi in H.
  injection H as H. now apply DecimalZ.to_int_inj.
Qed.

(** *** What a step does to the registry *)

Lemma stopAudio_clips cl st : clips (stopAudio cl st) = clips st.
Proof. reflexivity. Qed.

Lemma update_clips cl now st : clips (update cl now st) = clips st.
Proof. unfold update. now destruct (geb _ _). Qed.

Lemma togglePlayPause_clips cl now st :
  clips (togglePlayPause cl now st) = clips st.
Proof.
  unfold togglePlayPause, playAudio.
  destruct (isPlaying cl); [reflexivity|].
  destruct (mainAudio cl); [|reflexivity].
  now rewrite update_clips.
Qed.

Lemma handleJoin_clips cl now st r :
  handleJoin cl now st = Ok r -> clips r = clips st.
Proof.
  unfold handleJoin. destruct (_ <? _)%nat; [now intros [= <-]|].
  destruct (joinAudioBuffers _); [|discriminate]. cbn [bind].
  destruct (bufferToWav _); [|discriminate]. cbn [bind].
  now intros [= <-].
Qed.

Lemma handleCut_clips cl iso now st r :
  handleCut cl iso now st = Ok r ->
  clips r = clips st \/
  exists c, clips r = clips st ++ [c] /\ id c = toString now.
Proof.
  unfold handleCut. destruct (mainAudio cl); [|intros [= <-]; now left].
  destruct (sliceAudioBuffer _ _ _); [|discriminate]. cbn [bind].
  destruct (bufferToWav _); [|discriminate]. cbn [bind].
  intros [= <-]. right. eexists. split; reflexivity.
Qed.

Lemma handleCut_appends (st : State) (audio : AudioFile) (iso : string) (now : Z) :
  mainAudio st = Some audio ->
  (0 < numberOfChannels (file_buffer audio))%nat ->
  exists c st',
    handleCut st iso now st = Ok st' /\
    clips st' = clips st ++ [c] /\
    id c = toString now /\
    buffer c = sliceResult (file_buffer audio)
                 (start (selection st)) (end_ (selection st)).
Proof.
  intros Ha Hnc. unfold handleCut. rewrite Ha.
  rewrite slice_closed_form by exact Hnc. cbn [bind].
  destruct (bufferToWav_ok (sliceResult (file_buffer audio)
              (start (selection st)) (end_ (selection st)))) as (payload & -> & _).
  cbn [bind]. eexists _, _. split; [reflexivity|]. repeat split.
Qed.

Lemma fileLoaded_clips cl fileName decodedBuffer st :
  clips (fileLoaded cl fileName decodedBuffer st) = clips st.
Proof. reflexivity. Qed.

Lemma closure_in_history (past : list State) (st : State) (k : nat) :
  closure past st k ∈ past ++ [st].
Proof.
  unfold closure. destruct ((past ++ [st]) !! k) as [cl|] eqn:E.
  - eapply list_elem_of_lookup_2. exact E.
  - apply elem_of_app. right. apply list_elem_of_here.
Qed.

Lemma step_registry (past : list State) (st : State) (e : Event) :
  registryChange (cutTime e) past st (clips (step past st e)).
Proof.
  destruct e; cbn [step cutTime]; try (apply rc_same; reflexivity).
  - apply rc_same, togglePlayPause_clips.
  - apply rc_same. destruct (animationFrameRef st); [apply update_clips | reflexivity].
  - destruct (handleCut st iso now st) as [r|] eqn:E; cbn [orElse];
      [|apply rc_same; reflexivity].
    apply handleCut_clips in E as [E|(c & E & Hid)].
    + now apply rc_same.
    + eapply rc_append; eauto.
  - destruct (handleJoin st now st) as [r|] eqn:E; cbn [orElse];
      [|apply rc_same; reflexivity].
    apply rc_same. eapply handleJoin_clips; eauto.
  - eapply (rc_rename _ _ _ _ st); [|reflexivity].
    apply elem_of_app. right. apply list_elem_of_here.
  - eapply (rc_rename _ _ _ _ (closure past st k)); [|reflexivity].
    apply closure_in_history.
  - eapply rc_delete. reflexivity.
Qed.

Lemma renameIn_ids cs i n : map id (renameIn cs i n) = map id cs.
Proof.
  unfold renameIn. rewrite map_map. apply map_ext. intros c.
  now destruct (String.eqb (id c) i).
Qed.

Lemma deleteFrom_ids cs i :
  map id (deleteFrom cs i) = List.filter (fun s => negb (String.eqb s i)) (map id cs).
Proof.
  unfold deleteFrom. induction cs as [|c cs IH]; [reflexivity|].
  cbn. destruct (String.eqb (id c) i); cbn; now rewrite IH.
Qed.

Lemma idsFrom_more (ts ts' : list Z) (cs : list Clip) :
  idsFrom ts cs -> idsFrom (ts ++ ts') cs.
Proof.
  intros [Hnd Hin]. split; [exact Hnd|].
  intros s Hs. destruct (Hin s Hs) as (t & Ht & E).
  exists t. split; [apply elem_of_app; now left | exact E].
Qed.

(** One step keeps the identifiers distinct when the reading of a cut is
    new. *)
Lemma step_idsFrom (ts : list Z) (past : list State) (st : State) (e : Event) :
  NoDup (ts ++ cutTimes [e]) ->
  Forall (fun old => idsFrom ts (clips old)) (past ++ [st]) ->
  idsFrom (ts ++ cutTimes [e]) (clips (step past st e)).
Proof.
  intros Hnd Hall.
  assert (Hst : idsFrom ts (clips st)).
  { rewrite Forall_forall in Hall. apply Hall.
    apply elem_of_app. right. apply list_elem_of_here. }
  destruct (step_registry past st e) as [E|c t Ht E Hid|cl i n Hcl E|i E];
    rewrite E.
  - now apply idsFrom_more.
  - assert (Hcut : cutTimes [e] = [t]) by (cbn; now rewrite Ht).
    rewrite Hcut in *. apply NoDup_app in Hnd as (_ & Hfresh & _).
    destruct Hst as [Hnd' Hin]. split.
    + rewrite map_app. apply NoDup_app. split; [exact Hnd'|]. split.
      * intros s Hs Hs'. cbn in Hs'. apply list_elem_of_singleton in Hs'. subst s.
        destruct (Hin _ Hs) as (t' & Ht' & Heq).
        rewrite Hid in Heq. apply toString_inj in Heq. subst t'.
        apply (Hfresh t Ht'). apply list_elem_of_here.
      * cbn. apply NoDup_singleton.
    + intros s Hs. rewrite map_app in Hs. apply elem_of_app in Hs as [Hs|Hs].
      * destruct (Hin s Hs) as (t' & Ht' & Heq).
        exists t'. split; [apply elem_of_app; now left | exact Heq].
      * cbn in Hs. apply list_elem_of_singleton in Hs. subst s.
        exists t. split; [|exact Hid].
        apply elem_of_app. right. apply list_elem_of_here.
  - apply idsFrom_more.
    rewrite Forall_forall in Hall. destruct (Hall cl Hcl) as [Hnd' Hin].
    split; rewrite renameIn_ids; assumption.
  - apply idsFrom_more. destruct Hst as [Hnd' Hin]. split.
    + rewrite deleteFrom_ids. now apply NoDup_list_filter.
    + intros s Hs. rewrite deleteFrom_ids in Hs. apply Hin.
      apply list_elem_of_In in Hs. apply filter_In in Hs as [Hs _].
      now apply list_elem_of_In.
Qed.

Lemma exec_idsFrom (events : list Event) :
  forall (ts : list Z) (past : list State) (st : State),
    NoDup (ts ++ cutTimes events) ->
    Forall (fun old => idsFrom ts (clips old)) (past ++ [st]) ->
    idsFrom (ts ++ cutTimes events) (clips (exec past st events)).
Proof.
  induction events as [|e events IH]; intros ts past st Hnd Hall.
  - cbn. apply idsFrom_more.
    rewrite Forall_forall in Hall. apply Hall.
    apply elem_of_app. right. apply list_elem_of_here.
  - cbn [exec].
    assert (Hsplit : cutTimes (e :: events) = cutTimes [e] ++ cutTimes events).
    { unfold cutTimes. now rewrite (omap_app _ [e] events). }
    rewrite Hsplit, app_assoc in *.
    apply IH; [exact Hnd|].
    apply NoDup_app in Hnd as (Hnd & _ & _).
    apply Forall_app. split.
    + eapply Forall_impl; [exact Hall|]. intros old. apply idsFrom_more.
    + apply Forall_singleton. now apply step_idsFrom.
Qed.

Lemma ids_distinct (evs : list Event) :
  NoDup (cutTimes evs) -> NoDup (map id (clips (run evs initialState))).
Proof.
  intros Hnd. unfold run.
  apply (exec_idsFrom evs [] [] initialState Hnd).
  apply Forall_singleton. split; [constructor|].
  intros s Hs. inversion Hs.
Qed.

(** C7, as the source has it.  A cut with a well-formed file loaded appends
    exactly one clip, whose identifier is the decimal rendering of the
    clock reading taken at the cut; that identifier is already in the
    registry exactly when a clip there carries the same rendering.
    Renderings of different readings differ.  Hence in every state
    reachable by a trace whose cuts all read different clock values, no two
    clips share an identifier. *)
Theorem cut_identifiers :
  (forall (st : State) (audio : AudioFile) (iso : string) (now : Z),
      mainAudio st = Some audio ->
      wf_buffer (file_buffer audio) ->
      exists c,
        (forall past, clips (step past st (Cut iso now)) = clips st ++ [c]) /\
        id c = toString now /\
        (id c ∈ map id (clips st) <->
         exists c', c' ∈ clips st /\ id c' = toString now)) /\
  (forall a b : Z, toString a = toString b <-> a = b) /\
  (forall evs : list Event,
      NoDup (cutTimes evs) ->
      NoDup (map id (clips (run evs initialState)))).
Proof.
  split; [|split].
  - intros st audio iso now Ha (_ & _ & Hnc & _).
    destruct (handleCut_appends st audio iso now Ha Hnc) as (c & st' & E & Hc & Hid & _).
    exists c. cbn [step]. rewrite E. cbn [orElse].
    split; [intros _; exact Hc|]. split; [exact Hid|].
    rewrite Hid. rewrite list_elem_of_fmap. split.
    + intros (c' & E' & Hin). exists c'. now split.
    + intros (c' & Hin & E'). exists c'. now split.
  - intros a b. split; [apply toString_inj | now intros ->].
  - apply ids_distinct.
Qed.

Lemma cut_identifiers_witness :
  mainAudio Demo.loaded = Some Demo.song /\
  wf_buffer (file_buffer Demo.song) /\
  NoDup (cutTimes [FileLoaded 0 "song.mp3" Demo.stereo;
                   Cut Demo.iso 17; Cut Demo.iso 18]) /\
  (exists c, clips (step [] Demo.loaded (Cut Demo.iso 17))
             = clips Demo.loaded ++ [c]
             /\ id c = "17"%string) /\
  NoDup (map id (clips (run [FileLoaded 0 "song.mp3" Demo.stereo;
                             Cut Demo.iso 17; Cut Demo.iso 18] initialState))).
Proof.
  assert (Hnd : NoDup (cutTimes [FileLoaded 0 "song.mp3" Demo.stereo;
                                 Cut Demo.iso 17; Cut Demo.iso 18])).
  { cbn. apply NoDup_cons. split.
    - intros H. apply list_elem_of_singleton in H. discriminate H.
    - apply NoDup_singleton. }
  destruct cut_identifiers as (Hcut & _ & Hinv).
  split; [reflexivity|]. split; [exact stereo_wf|]. split; [exact Hnd|]. split.
  - destruct (Hcut Demo.loaded Demo.song Demo.iso 17%Z eq_refl stereo_wf)
      as (c & E & Hid & _).
    exists c. split; [exact (E []) | exact Hid].
  - exact (Hinv _ Hnd).
Defined.

(** C7 as stated fails when two cuts read the same clock value: both clips
    get the identifier of that reading. *)
Lemma cut_same_reading_shares_id :
  let st := run [Cut Demo.iso 17; Cut Demo.iso 17] Demo.loaded in
  map id (clips Demo.loaded) = [] /\
  map id (clips st) = ["17"; "17"]%string /\
  ~ NoDup (map id (clips st)).
Proof.
  cbv zeta.
  assert (E : map id (clips (run [Cut Demo.iso 17; Cut Demo.iso 17] Demo.loaded))
              = ["17"; "17"]%string) by (vm_compute; reflexivity).
  split; [reflexivity|]. split; [exact E|].
  rewrite E. intros H. apply NoDup_cons in H as [H _].
  apply H. apply list_elem_of_here.
Qed.


(** C10.  Renaming by identifier keeps the length and order of the list and
    the identifier, buffer and cached blob at every position; a clip whose
    identifier matches becomes the same clip with the new name, every other
    clip is unchanged; when no clip matches the list is returned as it
    is. *)
Theorem renameIn_frame (cs : list Clip) (i n : string) :
  length (renameIn cs i n) = length cs /\
  map id (renameIn cs i n) = map id cs /\
  map buffer (renameIn cs i n) = map buffer cs /\
  map blob (renameIn cs i n) = map blob cs /\
  (forall k c, cs !! k = Some c ->
     exists c', renameIn cs i n !! k = Some c' /\
       (id c = i ->
        c' = {| id := id c; name := n; buffer := buffer c; blob := blob c |}) /\
       (id c <> i -> c' = c)) /\
  ((forall c, c ∈ cs -> id c <> i) -> renameIn cs i n = cs) /\
  (forall (past : list State) (st : State),
      clips (step past st (Rename i n)) = renameIn (clips st) i n).
Proof.
  unfold renameIn.
  split; [apply length_map|].
  split; [rewrite map_map; apply map_ext; intros c; now destruct (String.eqb _ _)|].
  split; [rewrite map_map; apply map_ext; intros c; now destruct (String.eqb _ _)|].
  split; [rewrite map_map; apply map_ext; intros c; now destruct (String.eqb _ _)|].
  split.
  - intros k c Hk. eexists. split; [rewrite list_lookup_fmap, Hk; reflexivity|].
    destruct (String.eqb_spec (id c) i); split; intros; try reflexivity; congruence.
  - split; [|reflexivity].
    intros Hno. induction cs as [|c cs IH]; [reflexivity|]. cbn.
    destruct (String.eqb_spec (id c) i) as [E|_].
    + exfalso. apply (Hno c); [apply list_elem_of_here | exact E].
    + f_equal. apply IH. intros c' Hc'. apply Hno. now apply list_elem_of_further.
Qed.

Lemma renameIn_frame_witness :
  Demo.clipA ∈ [Demo.clipA; Demo.clipB] /\
  exists c', renameIn [Demo.clipA; Demo.clipB] "17" "intro" !! 0%nat = Some c' /\
             name c' = "intro"%string /\ buffer c' = buffer Demo.clipA.
Proof.
  split; [apply list_elem_of_here|].
  destruct (renameIn_frame [Demo.clipA; Demo.clipB] "17" "intro")
    as (_ & _ & _ & _ & Hk & _).
  destruct (Hk 0%nat Demo.clipA eq_refl) as (c' & E & Hn & _).
  exists c'. split; [exact E|].
  rewrite (Hn eq_refl). split; reflexivity.
Defined.


End AppFacts.

(** * Further properties of the code

    Properties of the same functions, of the functions next to them, and of
    their compositions. *)

(** ** Number helpers *)

Module JsMore.
Import Js JsFacts.
Local Open Scope Q_scope.

(** [truncate] is the floor of a non-negative number and the ceiling of a
    non-positive one. *)
Lemma truncate_nonneg_floor (r : Q) : 0 <= r -> truncate r = Qfloor r.
Proof.
  destruct r as [a b]. intros Hr. unfold truncate, Qfloor, Qle in *. cbn in *.
  apply Z.quot_div_nonneg; lia.
Qed.

Lemma truncate_nonpos_floor (r : Q) : r <= 0 -> truncate r = (- Qfloor (- r))%Z.
Proof.
  destruct r as [a b]. intros Hr. unfold truncate, Qfloor, Qle in *. cbn in *.
  rewrite <- Z.quot_div_nonneg by lia.
  rewrite Z.quot_opp_l by lia. lia.
Qed.

Lemma truncate_comp (p q : Q) : p == q -> truncate p = truncate q.
Proof.
  intros H. destruct (Qlt_le_dec p 0) as [Hp|Hp].
  - rewrite (truncate_nonpos_floor p), (truncate_nonpos_floor q) by lra.
    f_equal. apply Qfloor_comp. now rewrite H.
  - rewrite (truncate_nonneg_floor p), (truncate_nonneg_floor q) by lra.
    now apply Qfloor_comp.
Qed.

Lemma truncate_mono (p q : Q) : p <= q -> (truncate p <= truncate q)%Z.
Proof.
  intros H. destruct (Qlt_le_dec q 0) as [Hq|Hq].
  - rewrite (truncate_nonpos_floor p), (truncate_nonpos_floor q) by lra.
    pose proof (Qfloor_resp_le (- q) (- p) ltac:(lra)). lia.
  - destruct (Qlt_le_dec p 0) as [Hp|Hp].
    + rewrite (truncate_nonpos_floor p), (truncate_nonneg_floor q) by lra.
      pose proof (Qfloor_resp_le 0 q Hq).
      pose proof (Qfloor_resp_le 0 (- p) ltac:(lra)).
      change (Qfloor 0) with 0%Z in *. lia.
    + rewrite (truncate_nonneg_floor p), (truncate_nonneg_floor q) by lra.
      now apply Qfloor_resp_le.
Qed.

(** [Math.max] and [Math.min] by their order properties. *)
Lemma Math_max_spec (a b : Q) :
  a <= Math_max a b /\ b <= Math_max a b /\ (Math_max a b == a \/ Math_max a b == b).
Proof.
  unfold Math_max. destruct (Qle_bool a b) eqn:E.
  - apply Qle_bool_iff in E. split; [lra|]. split; [lra|]. right. reflexivity.
  - apply Qle_bool_false in E. split; [lra|]. split; [lra|]. left. reflexivity.
Qed.

Lemma Math_max_either (a b : Q) : Math_max a b = a \/ Math_max a b = b.
Proof. unfold Math_max. destruct (Qle_bool a b); [now right | now left]. Qed.

Lemma Math_min_spec (a b : Q) :
  Math_min a b <= a /\ Math_min a b <= b /\ (Math_min a b == a \/ Math_min a b == b).
Proof.
  unfold Math_min. destruct (Qle_bool a b) eqn:E.
  - apply Qle_bool_iff in E. split; [lra|]. split; [lra|]. left. reflexivity.
  - apply Qle_bool_false in E. split; [lra|]. split; [lra|]. right. reflexivity.
Qed.

End JsMore.

(** ** services/audioUtils.ts, continued *)

Module AudioUtilsMore.
Import Js AudioUtils JsFacts ArrayFacts AudioUtilsFacts JsMore.

Section EncoderMore.
Local Open Scope Q_scope.

Lemma clampSample_high (x : Q) : 1 <= x -> clampSample x = 1.
Proof.
  intros H. unfold clampSample, Math_max, Math_min.
  apply Qle_bool_iff in H. rewrite H. reflexivity.
Qed.

Lemma clampSample_low (x : Q) : x <= -1 -> clampSample x == -1.
Proof.
  intros H. pose proof (clampSample_range x) as [Hl Hu].
  unfold clampSample, Math_max, Math_min in *.
  destruct (Qle_bool 1 x) eqn:E1.
  - apply Qle_bool_iff in E1. lra.
  - destruct (Qle_bool (-1) x) eqn:E2.
    + apply Qle_bool_iff in E2. lra.
    + reflexivity.
Qed.

Lemma clampSample_mono (x y : Q) : x <= y -> clampSample x <= clampSample y.
Proof.
  intros H.
  pose proof (clampSample_range x) as [Hxl Hxu].
  pose proof (clampSample_range y) as [Hyl Hyu].
  destruct (Qlt_le_dec x (-1)) as [Hx|Hx].
  - rewrite (clampSample_low x) by lra. exact Hyl.
  - destruct (Qlt_le_dec 1 y) as [Hy|Hy].
    + rewrite (clampSample_high y) by lra. exact Hxu.
    + destruct (Qlt_le_dec 1 x) as [Hx1|Hx1]; [lra|].
      destruct (Qlt_le_dec y (-1)) as [Hy1|Hy1]; [lra|].
      rewrite (clampSample_inside x), (clampSample_inside y) by lra. exact H.
Qed.

(** X1.  The 16-bit value [bufferToWav] stores for a sample always lies in
    [-32768, 32767]; every sample of 1 or more is stored as 32767, every
    sample of -1 or less as -32768, and silence as 0. *)
Theorem encodeSample_clips (x : Q) :
  (-32768 <= encodeSample x <= 32767)%Z /\
  (1 <= x -> encodeSample x = 32767%Z) /\
  (x <= -1 -> encodeSample x = (-32768)%Z) /\
  (x == 0 -> encodeSample x = 0%Z).
Proof.
  destruct (encodeSample_threshold x) as [E R]. cbv zeta in E.
  split; [exact R|]. split; [|split].
  - intros H. unfold encodeSample. rewrite (clampSample_high x H). reflexivity.
  - intros H. rewrite E. pose proof (clampSample_low x H) as C.
    assert (L : ltb (clampSample x) (- (1 # 2)) = true) by (apply ltb_true; lra).
    rewrite L. rewrite (truncate_comp _ (-32768)); [reflexivity | rewrite C; reflexivity].
  - intros H. rewrite E.
    assert (C : clampSample x == 0) by (rewrite clampSample_inside; lra).
    assert (L : ltb (clampSample x) (- (1 # 2)) = false) by (apply ltb_false; lra).
    rewrite L. rewrite (truncate_comp _ 0); [reflexivity | rewrite C; reflexivity].
Qed.

Lemma encodeSample_clips_witness :
  1 <= 2 /\ encodeSample 2 = 32767%Z /\
  - (3) <= -1 /\ encodeSample (- (3)) = (-32768)%Z.
Proof.
  assert (H1 : 1 <= 2) by (apply Qle_bool_iff; reflexivity).
  assert (H2 : - (3) <= -1) by (apply Qle_bool_iff; reflexivity).
  destruct (encodeSample_clips 2) as (_ & Hhigh & _).
  destruct (encodeSample_clips (- (3))) as (_ & _ & Hlow & _).
  split; [exact H1|]. split; [exact (Hhigh H1)|].
  split; [exact H2 | exact (Hlow H2)].
Defined.

(** X2.  The sample conversion of [bufferToWav] is monotone: a larger
    sample is never stored as a smaller 16-bit value (also across the
    threshold -0.5 where the scale changes from 32768 to 32767). *)
Theorem encodeSample_monotone (x y : Q) :
  x <= y -> (encodeSample x <= encodeSample y)%Z.
Proof.
  intros H. pose proof (clampSample_mono x y H) as Hc.
  destruct (encodeSample_threshold x) as [Ex _].
  destruct (encodeSample_threshold y) as [Ey _]. cbv zeta in Ex, Ey.
  rewrite Ex, Ey.
  pose proof (clampSample_range x) as [Hxl Hxu].
  pose proof (clampSample_range y) as [Hyl Hyu].
  set (c := clampSample x) in *. set (d := clampSample y) in *.
  destruct (ltb c (- (1 # 2))) eqn:Lc, (ltb d (- (1 # 2))) eqn:Ld.
  - apply truncate_mono. apply ltb_true in Lc, Ld. lra.
  - apply truncate_mono. apply ltb_true in Lc. apply ltb_false in Ld. lra.
  - apply ltb_false in Lc. apply ltb_true in Ld. lra.
  - apply truncate_mono. apply ltb_false in Lc, Ld. lra.
Qed.

Lemma encodeSample_monotone_witness :
  - (3 # 4) <= - (1 # 4) /\ (encodeSample (- (3 # 4)) <= encodeSample (- (1 # 4)))%Z.
Proof.
  assert (H : - (3 # 4) <= - (1 # 4)) by (apply Qle_bool_iff; reflexivity).
  split; [exact H|]. exact (encodeSample_monotone _ _ H).
Defined.

End EncoderMore.

(** X3.  [setInt16(pos, sample, true)] stores two bytes, low byte first,
    and they are the two's complement of the converted sample: read back as
    a signed little-endian 16-bit number they give the same value. *)
Theorem stored_sample_bytes (x : Q) :
  exists lo hi : Z,
    le_bytes 2 (encodeSample x) = [lo; hi] /\
    (0 <= lo < 256)%Z /\ (0 <= hi < 256)%Z /\
    encodeSample x = (lo + 256 * hi - (if (128 <=? hi)%Z then 65536 else 0))%Z.
Proof.
  destruct (encodeSample_threshold x) as [_ R].
  set (v := encodeSample x) in *.
  exists (v mod 256)%Z, ((v / 256) mod 256)%Z.
  split.
  { unfold le_bytes. cbn [seq map]. change (2 ^ (8 * Z.of_nat 0))%Z with 1%Z.
    change (2 ^ (8 * Z.of_nat 1))%Z with 256%Z. now rewrite Z.div_1_r. }
  split; [apply Z.mod_pos_bound; lia|]. split; [apply Z.mod_pos_bound; lia|].
  pose proof (Z.div_mod v 256 ltac:(lia)) as D.
  pose proof (Z.mod_pos_bound v 256 ltac:(lia)) as B.
  assert (Q1 : (-128 <= v / 256 < 128)%Z).
  { split; [apply Z.div_le_lower_bound; lia | apply Z.div_lt_upper_bound; lia]. }
  destruct (Z.le_gt_cases 0 (v / 256)) as [Hq|Hq].
  - rewrite (Z.mod_small (v / 256) 256) by lia.
    destruct (Z.leb_spec 128 (v / 256)); lia.
  - assert (M : ((v / 256) mod 256 = v / 256 + 256)%Z).
    { symmetry. apply (Z.mod_unique _ _ (-1)); lia. }
    rewrite M. destruct (Z.leb_spec 128 (v / 256 + 256)); lia.
Qed.

(** Writing at the end of what has been written so far, into zeros. *)
Lemma typed_set_append (pre src : list Z) (n k : nat) :
  k = length pre -> length src <= n ->
  typed_set (pre ++ replicate n 0%Z) src k
  = Ok ((pre ++ src) ++ replicate (n - length src) 0%Z).
Proof.
  intros -> H. rewrite typed_set_at by (rewrite length_replicate; lia).
  now rewrite drop_replicate.
Qed.

Lemma setUint32_append (pre : list Z) (n k : nat) (d : Z) :
  k = length pre -> 4 <= n ->
  setUint32 (pre ++ replicate n 0%Z, k) d
  = Ok ((pre ++ le_bytes 4 d) ++ replicate (n - 4) 0%Z, k + 4).
Proof.
  intros Hk H. unfold setUint32. cbn [fst snd].
  rewrite typed_set_append by (rewrite ?le_bytes_length; first [exact Hk | lia]).
  cbn [bind]. now rewrite le_bytes_length.
Qed.

Lemma setUint16_append (pre : list Z) (n k : nat) (d : Z) :
  k = length pre -> 2 <= n ->
  setUint16 (pre ++ replicate n 0%Z, k) d
  = Ok ((pre ++ le_bytes 2 d) ++ replicate (n - 2) 0%Z, k + 2).
Proof.
  intros Hk H. unfold setUint16. cbn [fst snd].
  rewrite typed_set_append by (rewrite ?le_bytes_length; first [exact Hk | lia]).
  cbn [bind]. now rewrite le_bytes_length.
Qed.

Lemma wavHeader_length (b : AudioBuffer) : length (wavHeader b) = 44.
Proof. unfold wavHeader. cbv zeta. rewrite !length_app, !le_bytes_length. reflexivity. Qed.

Ltac header_field :=
  first [ rewrite setUint32_append
            by (first [ rewrite ?length_app, ?le_bytes_length; reflexivity | lia ])
        | rewrite setUint16_append
            by (first [ rewrite ?length_app, ?le_bytes_length; reflexivity | lia ]) ];
  cbn [bind snd Nat.add].

Lemma writeHeader_closed (b : AudioBuffer) (n : nat) :
  44 <= n ->
  writeHeader b (frameLength b * numberOfChannels b * 2 + 44) (replicate n 0%Z, 0)
  = Ok (wavHeader b ++ replicate (n - 44) 0%Z, 44).
Proof.
  intros H. unfold writeHeader.
  change (replicate n 0%Z) with ([] ++ replicate n 0%Z).
  do 13 header_field.
  unfold wavHeader. cbv zeta. rewrite <- !app_assoc. cbn [app].
  replace (n - 4 - 4 - 4 - 4 - 4 - 2 - 2 - 4 - 4 - 2 - 2 - 4 - 4) with (n - 44) by lia.
  reflexivity.
Qed.

Lemma writeSample_append (chs : list (list Q)) (pos i : nat) (pre : list Z) (n offset : nat) :
  44 + offset = length pre -> 2 <= n ->
  writeSample chs pos (pre ++ replicate n 0%Z, offset) i
  = Ok ((pre ++ le_bytes 2 (sampleAt chs pos i)) ++ replicate (n - 2) 0%Z, offset + 2).
Proof.
  intros Hk H. unfold writeSample, setInt16.
  fold (sampleAt chs pos i).
  rewrite typed_set_append by (rewrite ?le_bytes_length; first [exact Hk | lia]).
  cbn [bind]. now rewrite le_bytes_length.
Qed.

Lemma writeSamples_closed (chs : list (list Q)) (pos : nat) (ixs : list nat) :
  forall (pre : list Z) (n offset : nat),
    44 + offset = length pre -> 2 * length ixs <= n ->
    foldM (writeSample chs pos) ixs (pre ++ replicate n 0%Z, offset)
    = Ok ((pre ++ concat (map (fun i => le_bytes 2 (sampleAt chs pos i)) ixs))
            ++ replicate (n - 2 * length ixs) 0%Z,
          offset + 2 * length ixs).
Proof.
  induction ixs as [|i ixs IH]; intros pre n offset Hk Hn; cbn [foldM map concat length] in *.
  - rewrite app_nil_r.
    replace (n - 2 * 0) with n by lia. replace (offset + 2 * 0) with offset by lia.
    reflexivity.
  - rewrite writeSample_append by lia. cbn [bind].
    rewrite IH by (rewrite ?length_app, ?le_bytes_length; lia).
    rewrite <- !app_assoc.
    replace (n - 2 - 2 * length ixs) with (n - 2 * S (length ixs)) by lia.
    replace (offset + 2 + 2 * length ixs) with (offset + 2 * S (length ixs)) by lia.
    reflexivity.
Qed.

Lemma frameBytes_length (b : AudioBuffer) (pos : nat) :
  length (frameBytes b pos) = 2 * numberOfChannels b.
Proof.
  unfold frameBytes.
  assert (G : forall l : list nat,
             length (concat (map (fun i => le_bytes 2 (sampleAt (channels b) pos i)) l))
             = 2 * length l).
  { induction l as [|i l IH]; [reflexivity|].
    cbn [map concat length]. rewrite length_app, le_bytes_length, IH. lia. }
  now rewrite G, length_seq.
Qed.

Lemma writeFrames_closed (b : AudioBuffer) (ps : list nat) :
  forall (pre : list Z) (n offset : nat),
    44 + offset = length pre -> 2 * numberOfChannels b * length ps <= n ->
    foldM (fun st pos =>
             foldM (writeSample (channels b) pos) (seq 0 (numberOfChannels b)) st)
          ps (pre ++ replicate n 0%Z, offset)
    = Ok ((pre ++ concat (map (frameBytes b) ps))
            ++ replicate (n - 2 * numberOfChannels b * length ps) 0%Z,
          offset + 2 * numberOfChannels b * length ps).
Proof.
  induction ps as [|p ps IH]; intros pre n offset Hk Hn; cbn [foldM map concat length] in *.
  - rewrite app_nil_r.
    replace (n - 2 * numberOfChannels b * 0) with n by lia.
    replace (offset + 2 * numberOfChannels b * 0) with offset by lia.
    reflexivity.
  - rewrite writeSamples_closed by (rewrite ?length_seq; nia). cbn [bind].
    fold (frameBytes b p). rewrite length_seq.
    rewrite IH by (rewrite ?length_app, ?frameBytes_length; nia).
    rewrite <- !app_assoc.
    replace (n - 2 * numberOfChannels b - 2 * numberOfChannels b * length ps)
      with (n - 2 * numberOfChannels b * S (length ps)) by nia.
    replace (offset + 2 * numberOfChannels b + 2 * numberOfChannels b * length ps)
      with (offset + 2 * numberOfChannels b * S (length ps)) by nia.
    reflexivity.
Qed.

Lemma wavData_length (b : AudioBuffer) :
  length (wavData b) = 2 * numberOfChannels b * (frameLength b - 44).
Proof.
  unfold wavData.
  assert (G : forall l : list nat,
             length (concat (map (frameBytes b) l))
             = 2 * numberOfChannels b * length l).
  { induction l as [|i l IH]; [cbn; lia|].
    cbn [map concat length]. rewrite length_app, frameBytes_length, IH. lia. }
  now rewrite G, length_seq.
Qed.

(** What [bufferToWav] returns, for every buffer. *)
Lemma bufferToWav_closed (b : AudioBuffer) :
  bufferToWav b
  = Ok {| bytes := wavHeader b ++ wavData b
                   ++ replicate (2 * numberOfChannels b * Nat.min 44 (frameLength b)) 0%Z;
          type := "audio/wav" |}.
Proof.
  unfold bufferToWav. cbv zeta.
  rewrite writeHeader_closed by lia. cbn [bind].
  rewrite writeFrames_closed
    by (rewrite ?wavHeader_length, ?length_seq; first [reflexivity | nia]).
  cbn [bind]. fold (wavData b). rewrite length_seq, <- app_assoc.
  replace (frameLength b * numberOfChannels b * 2 + 44 - 44
           - 2 * numberOfChannels b * (frameLength b - 44))
    with (2 * numberOfChannels b * Nat.min 44 (frameLength b)); [reflexivity|].
  destruct (Nat.le_ge_cases 44 (frameLength b)) as [H|H].
  - rewrite Nat.min_l by exact H. nia.
  - rewrite Nat.min_r by exact H. replace (frameLength b - 44) with 0 by lia. nia.
Qed.

(** Lookup in a concatenation of blocks of one length. *)
Lemma concat_blocks_lookup {A : Type} (m : nat) (l : list (list A)) :
  Forall (fun blk => length blk = m) l ->
  forall q r blk, l !! q = Some blk -> r < m ->
    concat l !! (q * m + r) = blk !! r.
Proof.
  induction 1 as [|b0 l Hb0 Hl IH]; intros q r blk Hq Hr; [inversion Hq|].
  destruct q as [|q]; cbn in Hq |- *.
  - injection Hq as ->. rewrite lookup_app_l by lia. reflexivity.
  - rewrite lookup_app_r by lia.
    replace (m + q * m + r - length b0) with (q * m + r) by lia.
    now apply IH.
Qed.

(** Byte [r] of channel [i] of frame [p] in the data section. *)
Lemma wavData_lookup (b : AudioBuffer) (p i r : nat) :
  44 <= p < frameLength b -> i < numberOfChannels b -> r < 2 ->
  wavData b !! (2 * ((p - 44) * numberOfChannels b + i) + r)
  = le_bytes 2 (sampleAt (channels b) p i) !! r.
Proof.
  intros Hp Hi Hr. unfold wavData.
  replace (2 * ((p - 44) * numberOfChannels b + i) + r)
    with ((p - 44) * (2 * numberOfChannels b) + (i * 2 + r)) by lia.
  assert (HF : Forall (fun blk => length blk = 2 * numberOfChannels b)
                     (map (frameBytes b) (seq 44 (frameLength b - 44)))).
  { apply Forall_map, Forall_forall. intros j _. apply frameBytes_length. }
  assert (Hfr : map (frameBytes b) (seq 44 (frameLength b - 44)) !! (p - 44)
                = Some (frameBytes b p)).
  { rewrite list_lookup_fmap, lookup_seq_lt by lia. cbn. do 2 f_equal. lia. }
  rewrite (concat_blocks_lookup _ _ HF (p - 44) (i * 2 + r) _ Hfr) by nia.
  unfold frameBytes.
  assert (HG : Forall (fun blk => length blk = 2)
                     (map (fun i => le_bytes 2 (sampleAt (channels b) p i))
                          (seq 0 (numberOfChannels b)))).
  { apply Forall_map, Forall_forall. intros j _. apply le_bytes_length. }
  apply (concat_blocks_lookup _ _ HG); [|exact Hr].
  rewrite list_lookup_fmap, lookup_seq_lt by exact Hi. reflexivity.
Qed.

(** X4.  [bufferToWav] returns, for every buffer, a blob of type audio/wav
    of [44 + 2 * channels * frames] bytes whose first 44 bytes are the RIFF
    header: "RIFF", file length - 8, "WAVE", "fmt ", chunk length 16, PCM
    (1), the channel count, the sample rate, the byte rate
    [rate * 2 * channels], the block alignment [channels * 2], 16 bits,
    "data" and the chunk length [length - 44], all little-endian. *)
Theorem wav_header (b : AudioBuffer) :
  exists payload,
    bufferToWav b = Ok {| bytes := payload; type := "audio/wav" |} /\
    length payload = 44 + 2 * numberOfChannels b * frameLength b /\
    let numOfChan := Z.of_nat (numberOfChannels b) in
    take 44 payload
    = ([82; 73; 70; 70] ++ le_bytes 4 (Z.of_nat (length payload) - 8)
       ++ [87; 65; 86; 69; 102; 109; 116; 32; 16; 0; 0; 0; 1; 0]
       ++ le_bytes 2 numOfChan
       ++ le_bytes 4 (sampleRate b)
       ++ le_bytes 4 (sampleRate b * 2 * numOfChan)
       ++ le_bytes 2 (numOfChan * 2)
       ++ [16; 0; 100; 97; 116; 97]
       ++ le_bytes 4 (Z.of_nat (length payload) - 44))%Z.
Proof.
  eexists. split; [apply bufferToWav_closed|].
  assert (L : length (wavHeader b ++ wavData b
                      ++ replicate (2 * numberOfChannels b * Nat.min 44 (frameLength b)) 0%Z)
              = 44 + 2 * numberOfChannels b * frameLength b).
  { rewrite !length_app, wavHeader_length, wavData_length, length_replicate. lia. }
  split; [exact L|]. cbv zeta. rewrite L.
  rewrite (take_app_length' (wavHeader b) _ 44 (wavHeader_length b)).
  unfold wavHeader. cbv zeta.
  replace (Z.of_nat (frameLength b * numberOfChannels b * 2 + 44))
    with (Z.of_nat (44 + 2 * numberOfChannels b * frameLength b)) by (f_equal; lia).
  replace (Z.of_nat (44 + 2 * numberOfChannels b * frameLength b) - 40 - 4)%Z
    with (Z.of_nat (44 + 2 * numberOfChannels b * frameLength b) - 44)%Z by lia.
  reflexivity.
Qed.

(** X5.  The data section of [bufferToWav]: the loop runs over the frames
    [p] with [44 <= p < length] (it starts from the header's [pos]), and
    writes frame [p] interleaved at byte [44 + 2 * ((p - 44) * channels + i)]
    for channel [i], as the two bytes of the converted sample; the bytes
    after the last written frame keep the zeros of the fresh buffer. *)
Theorem wav_data (b : AudioBuffer) :
  exists payload,
    bufferToWav b = Ok {| bytes := payload; type := "audio/wav" |} /\
    (forall p i c x r,
        44 <= p < frameLength b ->
        channels b !! i = Some c -> c !! p = Some x -> r < 2 ->
        payload !! (44 + 2 * ((p - 44) * numberOfChannels b + i) + r)
        = le_bytes 2 (encodeSample x) !! r) /\
    (forall k,
        44 + 2 * numberOfChannels b * (frameLength b - 44) <= k < length payload ->
        payload !! k = Some 0%Z).
Proof.
  eexists. split; [apply bufferToWav_closed|]. split.
  - intros p i c x r Hp Hc Hx Hr.
    assert (Hi : i < numberOfChannels b) by (eapply lookup_lt_Some; exact Hc).
    rewrite lookup_app_r by (rewrite wavHeader_length; nia).
    rewrite wavHeader_length.
    replace (44 + 2 * ((p - 44) * numberOfChannels b + i) + r - 44)
      with (2 * ((p - 44) * numberOfChannels b + i) + r) by nia.
    assert (Hin : (p - 44) * numberOfChannels b + i
                  < numberOfChannels b * (frameLength b - 44)).
    { assert ((p - 44 + 1) * numberOfChannels b
              <= (frameLength b - 44) * numberOfChannels b)
        by (apply Nat.mul_le_mono_r; lia).
      lia. }
    rewrite lookup_app_l by (rewrite wavData_length; lia).
    rewrite wavData_lookup by assumption.
    unfold sampleAt. now rewrite Hc, Hx.
  - intros k Hk.
    rewrite !length_app, wavHeader_length, wavData_length, length_replicate in Hk.
    rewrite lookup_app_r by (rewrite wavHeader_length; nia).
    rewrite lookup_app_r by (rewrite wavHeader_length, wavData_length; nia).
    apply lookup_replicate_2. rewrite wavHeader_length, wavData_length. nia.
Qed.

Lemma wav_data_witness :
  exists payload,
    bufferToWav Demo.long = Ok {| bytes := payload; type := "audio/wav" |} /\
    payload !! 44 = Some 0%Z /\ payload !! 45 = Some 128%Z.
Proof.
  destruct (wav_data Demo.long) as (payload & E & Hdata & _).
  exists payload. split; [exact E|]. split.
  - apply (Hdata 44 0 (replicate 44 (1 # 2) ++ [-1; -1])%Q (-1)%Q 0);
      [cbn; lia | reflexivity | reflexivity | lia].
  - apply (Hdata 44 0 (replicate 44 (1 # 2) ++ [-1; -1])%Q (-1)%Q 1);
      [cbn; lia | reflexivity | reflexivity | lia].
Defined.

Lemma sliceChannel_app (c : list Q) (a : Z) (n1 n2 : nat) :
  sliceChannel c a n1 ++ sliceChannel c (a + Z.of_nat n1) n2
  = sliceChannel c a (n1 + n2).
Proof.
  unfold sliceChannel. rewrite seq_app, map_app. f_equal.
  cbn [Nat.add].
  assert (E : seq n1 n2 = map (fun x => n1 + x) (seq 0 n2)).
  { change (seq n1 n2 = (fun x => n1 + x) <$> seq 0 n2).
    rewrite fmap_add_seq. f_equal. lia. }
  rewrite E, map_map. apply map_ext. intros j.
  do 2 f_equal. lia.
Qed.

Lemma sliceResult_positive (b : AudioBuffer) (s e : Q) :
  (0 < Math_floor (mul64 e (inject_Z (sampleRate b)))
       - Math_floor (mul64 s (inject_Z (sampleRate b))))%Z ->
  sliceResult b s e
  = mkBuffer (sampleRate b)
      (Z.to_nat (Math_floor (mul64 e (inject_Z (sampleRate b)))
                 - Math_floor (mul64 s (inject_Z (sampleRate b)))))
      (map (fun c => sliceChannel c (Math_floor (mul64 s (inject_Z (sampleRate b))))
                       (Z.to_nat (Math_floor (mul64 e (inject_Z (sampleRate b)))
                                  - Math_floor (mul64 s (inject_Z (sampleRate b))))))
           (channels b)).
Proof.
  intros H. unfold sliceResult. cbv zeta.
  destruct (Z.leb_spec (Math_floor (mul64 e (inject_Z (sampleRate b)))
                        - Math_floor (mul64 s (inject_Z (sampleRate b)))) 0); [lia|].
  reflexivity.
Qed.

(** X6.  Cutting [s, e) at an interior point and joining the two parts
    gives the cut of [s, e) itself, whenever the frame indices the code
    computes for the three times, the floors of the products as doubles,
    are increasing. *)
Theorem slice_split_join (b : AudioBuffer) (s m e : Q) :
  wf_buffer b ->
  (Math_floor (mul64 s (inject_Z (sampleRate b)))
   < Math_floor (mul64 m (inject_Z (sampleRate b))))%Z ->
  (Math_floor (mul64 m (inject_Z (sampleRate b)))
   < Math_floor (mul64 e (inject_Z (sampleRate b))))%Z ->
  exists x y w,
    sliceAudioBuffer b s m = Ok x /\
    sliceAudioBuffer b m e = Ok y /\
    sliceAudioBuffer b s e = Ok w /\
    joinAudioBuffers [x; y] = Ok w.
Proof.
  intros Hwf Hsm Hme. pose proof Hwf as (_ & _ & Hnc & _).
  exists (sliceResult b s m), (sliceResult b m e), (sliceResult b s e).
  split; [now apply slice_closed_form|].
  split; [now apply slice_closed_form|].
  split; [now apply slice_closed_form|].
  rewrite join_closed_form
    by (constructor; [|apply Forall_singleton]; now apply sliceResult_wf).
  f_equal.
  rewrite (sliceResult_positive b s m), (sliceResult_positive b m e),
          (sliceResult_positive b s e) by lia.
  set (a := Math_floor (mul64 s (inject_Z (sampleRate b)))) in *.
  set (k := Math_floor (mul64 m (inject_Z (sampleRate b)))) in *.
  set (z := Math_floor (mul64 e (inject_Z (sampleRate b)))) in *.
  clearbody a k z.
  unfold joinResult, maxChannels, numberOfChannels.
  cbn [map fold_right sum_list sum_list_with sampleRate frameLength channels concat].
  rewrite !length_map, Nat.max_0_r, Nat.max_id, Nat.add_0_r.
  unfold Datatypes.id. f_equal; [lia|].
  apply list_eq. intros i. rewrite !list_lookup_fmap.
  destruct (channels b !! i) as [c|] eqn:Hc.
  - pose proof (lookup_lt_Some _ _ _ Hc) as Hi.
    rewrite lookup_seq_lt by exact Hi. cbn -[Nat.ltb].
    unfold sourceChannel, numberOfChannels. cbn [channels].
    rewrite !length_map.
    destruct (Nat.ltb_spec i (length (channels b))); [|lia].
    rewrite !list_lookup_fmap, Hc. cbn. rewrite app_nil_r. f_equal.
    replace (Z.to_nat (z - a)) with (Z.to_nat (k - a) + Z.to_nat (z - k)) by lia.
    rewrite <- sliceChannel_app.
    replace (a + Z.of_nat (Z.to_nat (k - a)))%Z with k by lia. reflexivity.
  - rewrite lookup_seq_ge; [reflexivity|]. now apply lookup_ge_None_1.
Qed.

Lemma slice_split_join_witness :
  wf_buffer Demo.stereo /\
  exists x y w,
    sliceAudioBuffer Demo.stereo 0 (round64 (1 # 10)) = Ok x /\
    sliceAudioBuffer Demo.stereo (round64 (1 # 10)) (duration Demo.stereo)
    = Ok y /\
    sliceAudioBuffer Demo.stereo 0 (duration Demo.stereo) = Ok w /\
    joinAudioBuffers [x; y] = Ok w.
Proof.
  split; [exact stereo_wf|].
  apply (slice_split_join Demo.stereo 0 (round64 (1 # 10))
           (duration Demo.stereo) stereo_wf);
    reflexivity.
Defined.

(** The condition is on the computed indices: at 10 Hz the doubles nearest
    to 0.3, 0.35 and 0.5 give the frames 3, 3 and 5, so the first part is
    the one-frame fallback, where the exact products floor to 2, 3, 5. *)
Example split_needs_computed_frames :
  Math_floor (mul64 (round64 (3 # 10)) 10) = 3%Z /\
  Math_floor (mul64 (round64 (35 # 100)) 10) = 3%Z /\
  Math_floor (mul64 (round64 (1 # 2)) 10) = 5%Z /\
  Qfloor (round64 (3 # 10) * 10) = 2%Z.
Proof. repeat split; vm_compute; reflexivity. Qed.

Lemma maxChannels_app (xs ys : list AudioBuffer) :
  maxChannels (xs ++ ys) = Nat.max (maxChannels xs) (maxChannels ys).
Proof.
  unfold maxChannels. induction xs as [|x xs IH]; [reflexivity|].
  cbn [app map fold_right]. rewrite IH. lia.
Qed.

Lemma sum_frames_app (xs ys : list AudioBuffer) :
  sum_list (map frameLength (xs ++ ys))
  = sum_list (map frameLength xs) + sum_list (map frameLength ys).
Proof.
  induction xs as [|x xs IH]; [reflexivity|]. cbn in *. rewrite IH. lia.
Qed.

Lemma maxChannels_positive (first : AudioBuffer) (rest : list AudioBuffer) :
  wf_buffer first -> 0 < maxChannels (first :: rest).
Proof.
  intros (_ & _ & Hnc & _). unfold maxChannels. cbn [map fold_right]. lia.
Qed.

Lemma joinResult_channels (first : AudioBuffer) (bs : list AudioBuffer) :
  numberOfChannels (joinResult first bs) = maxChannels bs.
Proof.
  unfold joinResult, numberOfChannels at 1. cbn [channels].
  now rewrite length_map, length_seq.
Qed.

(** The channel a later join takes from a joined buffer is the
    concatenation of the channels it would take from the parts. *)
Lemma sourceChannel_joinResult (i : nat) (first : AudioBuffer) (bs : list AudioBuffer) :
  Forall wf_buffer bs -> 0 < maxChannels bs ->
  sourceChannel i (joinResult first bs) = concat (map (sourceChannel i) bs).
Proof.
  intros Hwf Hpos. unfold sourceChannel at 1.
  rewrite joinResult_channels. unfold joinResult at 1. cbn [channels].
  destruct (Nat.ltb_spec i (maxChannels bs)) as [Hi|Hi].
  - rewrite list_lookup_fmap, lookup_seq_lt by exact Hi. reflexivity.
  - rewrite list_lookup_fmap, lookup_seq_lt by exact Hpos. cbn.
    f_equal. apply Forall_fmap_ext_1.
    eapply Forall_impl; [apply Forall_and; split; [exact Hwf | apply Forall_forall; intros b Hb; exact (maxChannels_bound bs b Hb)]|].
    intros b [(_ & _ & Hnc & _) Hle]. cbv beta in *.
    unfold sourceChannel.
    destruct (Nat.ltb_spec 0 (numberOfChannels b)); [|lia].
    destruct (Nat.ltb_spec i (numberOfChannels b)); [lia|]. reflexivity.
Qed.

(** X7.  Joining is associative on well-formed buffers: joining the join
    of [xs] with the join of [ys] gives the join of [xs ++ ys], and both
    intermediate results are well formed. *)
Theorem join_flatten (x0 y0 : AudioBuffer) (xs ys : list AudioBuffer) :
  Forall wf_buffer (x0 :: xs) -> Forall wf_buffer (y0 :: ys) ->
  exists jx jy j,
    joinAudioBuffers (x0 :: xs) = Ok jx /\
    joinAudioBuffers (y0 :: ys) = Ok jy /\
    wf_buffer jx /\ wf_buffer jy /\
    joinAudioBuffers [jx; jy] = Ok j /\
    joinAudioBuffers ((x0 :: xs) ++ (y0 :: ys)) = Ok j.
Proof.
  intros Hx Hy.
  set (X := x0 :: xs) in *. set (Y := y0 :: ys) in *.
  assert (Hx0 : wf_buffer x0) by (now apply Forall_inv in Hx).
  assert (Hy0 : wf_buffer y0) by (now apply Forall_inv in Hy).
  assert (HwX : wf_buffer (joinResult x0 X)).
  { apply joinResult_wf; [exact Hx | apply list_elem_of_here | exact Hx0]. }
  assert (HwY : wf_buffer (joinResult y0 Y)).
  { apply joinResult_wf; [exact Hy | apply list_elem_of_here | exact Hy0]. }
  assert (HpX : 0 < maxChannels X) by (now apply maxChannels_positive).
  assert (HpY : 0 < maxChannels Y) by (now apply maxChannels_positive).
  exists (joinResult x0 X), (joinResult y0 Y), (joinResult x0 (X ++ Y)).
  split; [now apply join_closed_form|].
  split; [now apply join_closed_form|].
  split; [exact HwX|]. split; [exact HwY|].
  split.
  - rewrite join_closed_form by (constructor; [exact HwX | now apply Forall_singleton]).
    f_equal.
    assert (Hmax : maxChannels [joinResult x0 X; joinResult y0 Y]
                   = maxChannels (X ++ Y)).
    { rewrite maxChannels_app. unfold maxChannels at 1. cbn [map fold_right].
      rewrite !joinResult_channels. lia. }
    assert (Hsum : sum_list (map frameLength [joinResult x0 X; joinResult y0 Y])
                   = sum_list (map frameLength (X ++ Y))).
    { rewrite sum_frames_app. cbn. lia. }
    unfold joinResult at 1. rewrite Hmax, Hsum.
    change (joinResult x0 (X ++ Y))
      with (mkBuffer (sampleRate x0) (sum_list (map frameLength (X ++ Y)))
              (map (fun i => concat (map (sourceChannel i) (X ++ Y)))
                   (seq 0 (maxChannels (X ++ Y))))).
    change (sampleRate (joinResult x0 X)) with (sampleRate x0).
    f_equal.
    apply map_ext. intros i. cbn [map concat]. rewrite app_nil_r.
    rewrite !sourceChannel_joinResult by assumption.
    now rewrite map_app, concat_app.
  - subst X Y. apply (join_closed_form x0 (xs ++ y0 :: ys)).
    rewrite app_comm_cons. apply Forall_app. now split.
Qed.

Lemma join_flatten_witness :
  Forall wf_buffer [Demo.stereo] /\ Forall wf_buffer [Demo.mono; Demo.stereo] /\
  exists j,
    joinAudioBuffers ([Demo.stereo] ++ [Demo.mono; Demo.stereo]) = Ok j /\
    frameLength j = 8.
Proof.
  assert (H1 : Forall wf_buffer [Demo.stereo]).
  { constructor; [exact stereo_wf | constructor]. }
  assert (H2 : Forall wf_buffer [Demo.mono; Demo.stereo]).
  { constructor; [exact mono_wf|]. constructor; [exact stereo_wf | constructor]. }
  split; [exact H1|]. split; [exact H2|].
  destruct (join_flatten Demo.stereo Demo.mono [] [Demo.stereo] H1 H2)
    as (jx & jy & j & _ & _ & _ & _ & _ & E).
  exists j. split; [exact E|].
  cbn in E. injection E as <-. reflexivity.
Defined.

(** The frame index of the duration is the length or one less. *)
Lemma duration_frames (b : AudioBuffer) :
  (0 < sampleRate b)%Z -> (0 < frameLength b)%nat ->
  (Z.of_nat (frameLength b) < 2 ^ 52)%Z ->
  let z := Math_floor (mul64 (duration b) (inject_Z (sampleRate b))) in
  (Z.of_nat (frameLength b) - 1 <= z <= Z.of_nat (frameLength b))%Z.
Proof.
  intros Hsr Hfl Hn z.
  pose proof (duration_positive b Hsr Hfl) as Hd.
  split; [|apply end_within; try assumption; try lra; apply Qle_refl].
  subst z. unfold Math_floor, mul64.
  pose proof (end_product b (duration b) Hsr Hfl Hn (Qle_refl _)) as Hp.
  pose proof (times_rate_le 0 (duration b) _ Hsr ltac:(lra)) as Hp0.
  rewrite Qmult_0_l in Hp0.
  destruct (duration_near b Hsr Hfl) as [Hlo _]. cbv zeta in Hlo.
  apply (times_rate_le _ _ _ Hsr) in Hlo.
  set (p := (duration b * inject_Z (sampleRate b))%Q) in *.
  set (N := inject_Z (Z.of_nat (frameLength b))) in *.
  set (R := inject_Z (sampleRate b)) in *.
  assert (HR : ~ (R == 0)%Q).
  { intros H. apply (proj1 (inject_Z_injective (sampleRate b) 0)) in H. lia. }
  assert (E : (N / R * (1 - (1 # 2 ^ 53)) * R == N - N * (1 # 2 ^ 53))%Q)
    by (field; exact HR).
  rewrite E in Hlo.
  assert (HN : (N < inject_Z (2 ^ 52))%Q) by (subst N; now rewrite <- Zlt_Qlt).
  assert (HN' : (N * (1 # 2 ^ 53) < 1 # 2)%Q).
  { apply Qlt_le_trans with (inject_Z (2 ^ 52) * (1 # 2 ^ 53))%Q.
    - apply Qmult_lt_compat_r; [reflexivity | exact HN].
    - apply Qle_bool_iff. reflexivity. }
  assert (Hlt : (p < 2 ^ 53)%Q).
  { change (2 ^ 53)%Q with (inject_Z (2 ^ 53)).
    assert (inject_Z (2 ^ 52) + (1 # 2) <= inject_Z (2 ^ 53))%Q
      by (apply Qle_bool_iff; reflexivity).
    lra. }
  destruct (round64_between p Hp0 Hlt) as [L _].
  assert (F : (Z.of_nat (frameLength b) - 1 <= Qfloor p)%Z).
  { rewrite <- (Qfloor_Z (Z.of_nat (frameLength b) - 1)).
    apply Qfloor_resp_le. unfold Z.sub. rewrite inject_Z_plus, inject_Z_opp.
    change (inject_Z 1) with 1%Q. fold N. lra. }
  rewrite <- (Qfloor_Z (Z.of_nat (frameLength b) - 1)).
  apply Qfloor_resp_le.
  apply Qle_trans with (inject_Z (Qfloor p)); [|exact L].
  rewrite <- Zle_Qle. exact F.
Qed.

(** X8.  Slicing a well-formed buffer (of fewer than [2^52] frames) over
    its whole duration [0, duration): the end falls on the frame [z] that
    is the buffer's length or one less, since the duration is a rounded
    quotient and its product with the rate is floored; the result has the
    source's rate and channel count and [max 1 z] frames, and its samples
    before [z] equal the source's. *)
Theorem slice_whole (b : AudioBuffer) :
  wf_buffer b ->
  (Z.of_nat (frameLength b) < 2 ^ 52)%Z ->
  let z := Math_floor (mul64 (duration b) (inject_Z (sampleRate b))) in
  (Z.of_nat (frameLength b) - 1 <= z <= Z.of_nat (frameLength b))%Z /\
  exists out,
    sliceAudioBuffer b 0 (duration b) = Ok out /\
    sampleRate out = sampleRate b /\
    frameLength out = Z.to_nat (Z.max 1 z) /\
    numberOfChannels out = numberOfChannels b /\
    forall i c, channels b !! i = Some c ->
      exists c', channels out !! i = Some c' /\
                 forall j x, (Z.of_nat j < z)%Z -> c !! j = Some x ->
                   exists y, c' !! j = Some y /\ (y == x)%Q.
Proof.
  intros Hwf Hn z. pose proof Hwf as (Hsr & Hfl & Hnc & Hch).
  pose proof (duration_frames b Hsr Hfl Hn) as Hz. cbv zeta in Hz. fold z in Hz.
  split; [exact Hz|].
  exists (sliceResult b 0 (duration b)).
  split; [now apply slice_closed_form|].
  assert (Ha : Math_floor (mul64 0 (inject_Z (sampleRate b))) = 0%Z).
  { unfold Math_floor, mul64.
    rewrite (round64_comp (0 * inject_Z (sampleRate b)) 0) by ring.
    reflexivity. }
  destruct (Z.leb_spec z 0) as [Hz0|Hz0].
  - unfold sliceResult. rewrite Ha. fold z.
    destruct (Z.leb_spec (z - 0) 0); [|lia].
    cbn [sampleRate frameLength channels].
    split; [reflexivity|]. split; [lia|].
    split; [unfold numberOfChannels; cbn [channels]; apply length_replicate|].
    intros i c Hc.
    assert (Hi : (i < numberOfChannels b)%nat) by (eapply lookup_lt_Some; exact Hc).
    exists [0%Q]. split; [now apply lookup_replicate_2|].
    intros j x Hj. lia.
  - rewrite sliceResult_positive by (rewrite Ha; fold z; lia).
    rewrite Ha. fold z. rewrite Z.sub_0_r.
    cbn [sampleRate frameLength channels].
    split; [reflexivity|]. split; [f_equal; lia|].
    split; [unfold numberOfChannels; cbn [channels]; apply length_map|].
    intros i c Hc. exists (sliceChannel c 0 (Z.to_nat z)).
    split; [rewrite list_lookup_fmap, Hc; reflexivity|].
    intros j x Hj Hx.
    exists (or_zero (Some x)). split; [|apply or_zero_some].
    rewrite sliceChannel_lookup by lia.
    pose proof (lookup_lt_Some _ _ _ Hx).
    rewrite read_inside by lia.
    replace (Z.to_nat (0 + Z.of_nat j)) with j by lia. now rewrite Hx.
Qed.

Lemma slice_whole_witness :
  wf_buffer Demo.stereo /\
  (Z.of_nat (frameLength Demo.stereo) < 2 ^ 52)%Z /\
  exists out, sliceAudioBuffer Demo.stereo 0 (duration Demo.stereo) = Ok out
              /\ frameLength out = 3.
Proof.
  assert (Hn : (Z.of_nat (frameLength Demo.stereo) < 2 ^ 52)%Z) by reflexivity.
  split; [exact stereo_wf|]. split; [exact Hn|].
  destruct (slice_whole Demo.stereo stereo_wf Hn) as (_ & out & E & _ & L & _).
  exists out. split; [exact E | exact L].
Defined.

(** The last frame can be lost: for 5516 frames at 44100 Hz the duration
    times the rate is the double just below 5516. *)
Example whole_slice_short_by_one :
  Math_floor (mul64 (div64 5516 44100) 44100) = 5515%Z.
Proof. vm_compute. reflexivity. Qed.

End AudioUtilsMore.

(** ** components/WaveformEditor.tsx, continued *)

Module WaveformEditorMore.
Import Js AudioUtils WaveformEditor JsFacts ArrayFacts AudioUtilsFacts WaveformEditorFacts JsMore.

Section PeaksMore.
Local Open Scope Q_scope.

(** X9.  The peak reduction of the draw effect loses no sample: sample
    [k] falls in column [k / step], that column exists (it is below the
    width), and the column's (min, max) encloses the sample. *)
Theorem peaks_cover (data : list Q) (width : nat) (k : nat) (x : Q) :
  (0 < width)%nat ->
  data !! k = Some x ->
  let step := stepOf (length data) width in
  (0 < step)%nat /\ (k / step < width)%nat /\
  exists mn mx,
    peaks data width !! (k / step)%nat = Some (mn, mx) /\ mn <= x /\ x <= mx.
Proof.
  intros Hw Hk step.
  pose proof (lookup_lt_Some _ _ _ Hk) as Hlt.
  pose proof (stepOf_ceil (length data) width Hw) as [Hc1 Hc2]. fold step in Hc1, Hc2.
  assert (Hstep : (0 < step)%nat) by nia.
  assert (Hcol : (k / step < width)%nat).
  { apply Nat.Div0.div_lt_upper_bound. nia. }
  split; [exact Hstep|]. split; [exact Hcol|].
  assert (Hpeaks : peaks data width = map (columnPeak data step) (seq 0 width)).
  { unfold peaks. destruct (Nat.eqb_spec width 0); [lia | reflexivity]. }
  set (i := (k / step)%nat) in *.
  set (window := take step (drop (i * step) data)).
  pose proof (peakOf_fold window 1 (-1)) as Hfold. cbv zeta in Hfold.
  destruct Hfold as (_ & Hall & _).
  exists (fst (fold_left peakOf window (1, -1))),
         (snd (fold_left peakOf window (1, -1))).
  split.
  { rewrite Hpeaks, list_lookup_fmap, lookup_seq_lt by exact Hcol. cbn.
    rewrite columnPeak_window. fold window. now destruct (fold_left _ _ _). }
  apply Hall. subst window.
  pose proof (Nat.div_mod_eq k step) as Hdm.
  pose proof (Nat.mod_upper_bound k step ltac:(lia)) as Hmod.
  apply (list_elem_of_lookup_2 _ (k mod step)).
  rewrite lookup_take_lt by exact Hmod. rewrite lookup_drop.
  replace (i * step + k mod step)%nat with k by (subst i; lia). exact Hk.
Qed.

Lemma peaks_cover_witness :
  (0 < 2)%nat /\ [1 # 2; - (1 # 4); 0] !! 2%nat = Some 0 /\
  exists mn mx, peaks [1 # 2; - (1 # 4); 0] 2 !! 1%nat = Some (mn, mx)
                /\ mn <= 0 /\ 0 <= mx.
Proof.
  split; [lia|]. split; [reflexivity|].
  destruct (peaks_cover [1 # 2; - (1 # 4); 0] 2 2 0 ltac:(lia) eq_refl)
    as (_ & _ & mn & mx & E & H).
  exists mn, mx. split; [exact E | exact H].
Defined.

(** X10.  For a buffer of at most [width] samples the step is 1: column
    [i] holds the sample [i] as both its min and its max, and the columns
    from the buffer's length on hold the initial pair (1, -1). *)
Theorem peaks_short_buffer (data : list Q) (width : nat) :
  (0 < length data)%nat -> (length data <= width)%nat ->
  Forall (fun x => -1 <= x /\ x <= 1) data ->
  stepOf (length data) width = 1%nat /\
  (forall i x, data !! i = Some x ->
     exists mn mx, peaks data width !! i = Some (mn, mx) /\ mn == x /\ mx == x) /\
  (forall i, (length data <= i < width)%nat ->
     peaks data width !! i = Some (1, -1)).
Proof.
  intros Hlen Hle Hrange.
  assert (Hw : (0 < width)%nat) by lia.
  pose proof (stepOf_ceil (length data) width Hw) as [Hc1 Hc2].
  assert (Hstep : stepOf (length data) width = 1%nat) by nia.
  assert (Hpeaks : peaks data width = map (columnPeak data 1) (seq 0 width)).
  { unfold peaks. destruct (Nat.eqb_spec width 0); [lia|]. now rewrite Hstep. }
  split; [exact Hstep|]. split.
  - intros i x Hx. pose proof (lookup_lt_Some _ _ _ Hx) as Hi.
    pose proof (Forall_lookup_1 _ _ _ _ Hrange Hx) as [Hl Hu]. 
    rewrite Hpeaks, list_lookup_fmap, lookup_seq_lt by lia. cbn [fmap option_fmap option_map Nat.add].
    rewrite columnPeak_window, Nat.mul_1_r, (drop_S _ _ _ Hx). cbn [take fold_left].
    unfold peakOf. cbn [fst snd]. eexists _, _. split; [reflexivity|].
    split.
    + destruct (ltb x 1) eqn:E; [reflexivity|]. apply ltb_false in E. lra.
    + destruct (ltb (-1) x) eqn:E; [reflexivity|]. apply ltb_false in E. lra.
  - intros i Hi.
    rewrite Hpeaks, list_lookup_fmap, lookup_seq_lt by lia. cbn [fmap option_fmap option_map Nat.add].
    rewrite columnPeak_window, Nat.mul_1_r, drop_ge by lia. reflexivity.
Qed.

Lemma peaks_short_buffer_witness :
  (0 < length [1 # 2])%nat /\ (length [1 # 2] <= 2)%nat /\
  Forall (fun x => -1 <= x /\ x <= 1) [1 # 2] /\
  peaks [1 # 2] 2 !! 1%nat = Some (1, -1).
Proof.
  assert (Hr : Forall (fun x => -1 <= x /\ x <= 1) [1 # 2]).
  { repeat constructor; apply Qle_bool_iff; reflexivity. }
  split; [cbn; lia|]. split; [cbn; lia|]. split; [exact Hr|].
  destruct (peaks_short_buffer [1 # 2] 2 ltac:(cbn; lia) ltac:(cbn; lia) Hr)
    as (_ & _ & H).
  apply H. cbn. lia.
Defined.

End PeaksMore.

Section PointerMore.
Local Open Scope Q_scope.

(** [Math.abs(x) < tol] as a two-sided bound. *)
Lemma Math_abs_lt (x tol : Q) :
  ltb (Math_abs x) tol = true <-> - tol < x /\ x < tol.
Proof.
  rewrite ltb_true. unfold Math_abs. destruct (ltb x 0) eqn:E.
  - apply ltb_true in E. split; [intros; split; lra | intros [? ?]; lra].
  - apply ltb_false in E. split; [intros; split; lra | intros [? ?]; lra].
Qed.

(** X11.  [getPointerTime] maps the pointer into the file: the result lies
    in [0, duration]; it is 0 left of the container, the duration right of
    it, and the linear interpolation inside. *)
Theorem getPointerTime_range (f : AudioFile) (clientX left width : Q) :
  0 < width -> 0 <= file_duration f ->
  let t := getPointerTime (Some f) clientX left width in
  0 <= t /\ t <= file_duration f /\
  (clientX <= left -> t == 0) /\
  (left + width <= clientX -> t == file_duration f) /\
  (left <= clientX -> clientX <= left + width ->
   t == (clientX - left) / width * file_duration f).
Proof.
  intros Hw Hd t. subst t. unfold getPointerTime.
  set (x := Math_max 0 (Math_min (clientX - left) width)).
  assert (Hx : 0 <= x /\ x <= width /\
               (clientX <= left -> x == 0) /\
               (left + width <= clientX -> x == width) /\
               (left <= clientX -> clientX <= left + width -> x == clientX - left)).
  { subst x.
    destruct (Math_min_spec (clientX - left) width) as (M1 & M2 & M3).
    destruct (Math_max_spec 0 (Math_min (clientX - left) width)) as (N1 & N2 & N3).
    repeat split; intros; destruct N3 as [N3 | N3], M3 as [M3 | M3]; lra. }
  destruct Hx as (X0 & X1 & X2 & X3 & X4).
  assert (Hq : 0 <= x / width /\ x / width <= 1).
  { split.
    - apply Qle_shift_div_l; lra.
    - apply Qle_shift_div_r; lra. }
  destruct Hq as [Q0 Q1].
  split; [apply Qmult_le_0_compat; assumption|].
  split.
  { apply Qle_trans with (1 * file_duration f);
      [apply Qmult_le_compat_r; assumption | lra]. }
  split; [intros H; rewrite (X2 H); field; lra|].
  split; [intros H; rewrite (X3 H); field; lra|].
  intros H1 H2. now rewrite (X4 H1 H2).
Qed.

Lemma getPointerTime_range_witness :
  0 < 200 /\ 0 <= file_duration Demo.song /\
  getPointerTime (Some Demo.song) 350 100 200 == file_duration Demo.song.
Proof.
  assert (H1 : 0 < 200) by reflexivity.
  assert (H2 : 0 <= file_duration Demo.song) by (apply Qle_bool_iff; reflexivity).
  split; [exact H1|]. split; [exact H2|].
  destruct (getPointerTime_range Demo.song 350 100 200 H1 H2) as (_ & _ & _ & H & _).
  apply H. apply Qle_bool_iff. reflexivity.
Defined.



(** X13.  What a press in the waveform does: the tolerance is the larger of
    5% of the duration and 10 pixels' worth of time; a press strictly
    within the tolerance of the start grabs the start handle; otherwise one
    within the tolerance of the end grabs the end handle; otherwise the
    press seeks to its time.  The start handle wins where the two ranges
    overlap: in a selection shorter than the tolerance the end handle
    cannot be grabbed from inside the selection. *)
Theorem press_classification
    (f : AudioFile) (containerWidth : Q) (sel : Selection) (t : Q) :
  0 < containerWidth -> 0 < file_duration f ->
  let d := file_duration f in
  exists tol,
    0 < tol /\ d * (5 # 100) <= tol /\ 10 / containerWidth * d <= tol /\
    (tol = d * (5 # 100) \/ tol = 10 / containerWidth * d) /\
    (start sel - tol < t /\ t < start sel + tol ->
       handlePointerDown (Some f) containerWidth sel t = Some (Grab DragStart)) /\
    (t <= start sel - tol \/ start sel + tol <= t ->
     end_ sel - tol < t /\ t < end_ sel + tol ->
       handlePointerDown (Some f) containerWidth sel t = Some (Grab DragEnd)) /\
    (t <= start sel - tol \/ start sel + tol <= t ->
     t <= end_ sel - tol \/ end_ sel + tol <= t ->
       handlePointerDown (Some f) containerWidth sel t = Some (SeekTo t)) /\
    (end_ sel - start sel < tol -> start sel <= t -> t <= end_ sel ->
       handlePointerDown (Some f) containerWidth sel t = Some (Grab DragStart)).
Proof.
  intros Hw Hd d.
  set (tol := Math_max (d * (5 # 100)) (10 / containerWidth * d)).
  destruct (Math_max_spec (d * (5 # 100)) (10 / containerWidth * d)) as (M1 & M2 & M3).
  pose proof (Math_max_either (d * (5 # 100)) (10 / containerWidth * d)) as M4.
  fold tol in M1, M2, M3, M4.
  assert (Htol : 0 < tol) by (subst d; lra).
  assert (Hstart : forall u, ltb (Math_abs (u - start sel)) tol = true
                             <-> start sel - tol < u /\ u < start sel + tol).
  { intros u. rewrite Math_abs_lt. split; intros [? ?]; split; lra. }
  assert (Hend : forall u, ltb (Math_abs (u - end_ sel)) tol = true
                           <-> end_ sel - tol < u /\ u < end_ sel + tol).
  { intros u. rewrite Math_abs_lt. split; intros [? ?]; split; lra. }
  assert (Hnot : forall c : bool, c <> true -> c = false)
    by (intros []; congruence).
  exists tol. split; [exact Htol|]. split; [exact M1|]. split; [exact M2|].
  split; [exact M4|].
  unfold handlePointerDown. fold d. fold tol.
  split; [|split; [|split]].
  - intros H. apply Hstart in H. now rewrite H.
  - intros H1 H2.
    rewrite (Hnot (ltb (Math_abs (t - start sel)) tol))
      by (rewrite Hstart; intros [? ?]; destruct H1; lra).
    apply Hend in H2. now rewrite H2.
  - intros H1 H2.
    rewrite (Hnot (ltb (Math_abs (t - start sel)) tol))
      by (rewrite Hstart; intros [? ?]; destruct H1; lra).
    rewrite (Hnot (ltb (Math_abs (t - end_ sel)) tol))
      by (rewrite Hend; intros [? ?]; destruct H2; lra).
    reflexivity.
  - intros Hn H1 H2.
    assert (H : ltb (Math_abs (t - start sel)) tol = true)
      by (apply Hstart; split; lra).
    now rewrite H.
Qed.

Lemma press_classification_witness :
  0 < 200 /\ 0 < file_duration Demo.song /\
  handlePointerDown (Some Demo.song) 200 {| start := 0; end_ := 3 # 10 |} (1 # 5)
  = Some (SeekTo (1 # 5)).
Proof.
  assert (H1 : 0 < 200) by reflexivity.
  assert (H2 : 0 < file_duration Demo.song) by reflexivity.
  split; [exact H1|]. split; [exact H2|].
  destruct (press_classification Demo.song 200 {| start := 0; end_ := 3 # 10 |}
              (1 # 5) H1 H2)
    as (tol & _ & _ & _ & Htol & _ & _ & Hseek & _).
  cbn [start end_] in Hseek.
  apply Hseek; [right | left];
    destruct Htol as [-> | ->]; apply Qle_bool_iff; reflexivity.
Defined.

End PointerMore.

Section OverlayMore.
Local Open Scope Q_scope.





(** X14.  The bar drawn for a column, with [amp] half the canvas height:
    for a pair with [-1 <= min <= max <= 1] the bar starts inside the
    canvas, is at least one pixel high, covers [(max - min) * amp], and the
    span from [y] over that extent ends inside the canvas; for the initial
    pair (1, -1) of a column without samples it is one pixel high and
    starts at the canvas's lower edge. *)
Theorem column_bar (amp mn mx : Q) :
  0 < amp ->
  (-1 <= mn -> mn <= mx -> mx <= 1 ->
   0 <= fst (columnRect amp (mn, mx)) /\
   1 <= snd (columnRect amp (mn, mx)) /\
   (mx - mn) * amp <= snd (columnRect amp (mn, mx)) /\
   fst (columnRect amp (mn, mx)) + (mx - mn) * amp <= 2 * amp /\
   (1 <= (mx - mn) * amp ->
    snd (columnRect amp (mn, mx)) == (mx - mn) * amp)) /\
  fst (columnRect amp (1, -1)) == 2 * amp /\
  snd (columnRect amp (1, -1)) == 1.
Proof.
  intros Ha. unfold columnRect. cbn [fst snd]. split; [|split].
  - intros H1 H2 H3.
    destruct (Math_max_spec 1 ((mx - mn) * amp)) as (M1 & M2 & M).
    assert (P1 : 0 <= (1 + mn) * amp) by (apply Qmult_le_0_compat; lra).
    assert (P2 : 0 <= (1 - mx) * amp) by (apply Qmult_le_0_compat; lra).
    repeat split; try assumption; lra.
  - ring.
  - destruct (Math_max_spec 1 ((-1 - 1) * amp)) as (M1 & M2 & M).
    destruct M as [M|M]; [exact M|]. lra.
Qed.

Lemma column_bar_witness :
  0 < 100 /\ -1 <= - (1 # 4) /\ - (1 # 4) <= 1 # 2 /\ 1 # 2 <= 1 /\
  snd (columnRect 100 (- (1 # 4), 1 # 2)) == ((1 # 2) - - (1 # 4)) * 100.
Proof.
  assert (Ha : 0 < 100) by reflexivity.
  assert (H1 : -1 <= - (1 # 4)) by (apply Qle_bool_iff; reflexivity).
  assert (H2 : - (1 # 4) <= 1 # 2) by (apply Qle_bool_iff; reflexivity).
  assert (H3 : 1 # 2 <= 1) by (apply Qle_bool_iff; reflexivity).
  repeat (split; [assumption|]).
  destruct (column_bar 100 (- (1 # 4)) (1 # 2) Ha) as (H & _).
  destruct (H H1 H2 H3) as (_ & _ & _ & _ & Hh).
  apply Hh. apply Qle_bool_iff. reflexivity.
Defined.





End OverlayMore.

End WaveformEditorMore.

(** ** App.tsx and components/ClipManager.tsx, continued *)

Module AppMore.
Import Js AudioUtils WaveformEditor App ClipManager.
Import JsFacts ArrayFacts AudioUtilsFacts AppFacts JsMore.

Section PlaybackMore.
Local Open Scope Q_scope.

(** X17.  When the decoder hands over a buffer, [handleFileUpload]'s
    callback stores it with its duration, selects [0, min(duration, 15)],
    resets the cursor to 0 and leaves playback stopped; clips and downloads
    are untouched.  The initial selection is valid in the sense of X12 when
    the file lasts at least 0.1 s. *)
Theorem file_loaded_state (past : list State) (st : State) (k : nat)
    (fileName : string) (decodedBuffer : AudioBuffer) :
  wf_buffer decodedBuffer ->
  let st' := step past st (FileLoaded k fileName decodedBuffer) in
  let d := duration decodedBuffer in
  mainAudio st' = Some {| file_name := fileName; file_buffer := decodedBuffer;
                          file_duration := d |} /\
  start (selection st') = 0 /\
  0 < end_ (selection st') /\ end_ (selection st') <= d /\
  end_ (selection st') <= 15 /\
  (d <= 15 -> end_ (selection st') = d) /\
  (1 # 10 <= d -> validSelection d (selection st')) /\
  currentTime st' = 0 /\ isPlaying st' = false /\ sourceNodeRef st' = None /\
  clips st' = clips st /\ downloads st' = downloads st.
Proof.
  intros Hwf st' d. pose proof Hwf as (Hsr & Hfl & _).
  pose proof (duration_positive _ Hsr Hfl) as Hd. fold d in Hd.
  subst st'. cbn [step]. unfold fileLoaded, stopAudio. cbn.
  fold d. destruct (Math_min_spec d 15) as (M1 & M2 & M3).
  assert (Hpos : 0 < Math_min d 15) by (destruct M3 as [M3|M3]; lra).
  repeat split; try assumption; try reflexivity; try lra.
  - intros H. unfold Math_min. apply Qle_bool_iff in H. now rewrite H.
  - cbn [start]. lra.
  - cbn [start end_]. unfold minDuration. destruct M3 as [M3|M3]; lra.
Qed.

Lemma file_loaded_state_witness :
  wf_buffer Demo.stereo /\
  end_ (selection (step [] initialState (FileLoaded 0 "song.mp3" Demo.stereo)))
  = duration Demo.stereo.
Proof.
  split; [exact stereo_wf|].
  destruct (file_loaded_state [] initialState 0 "song.mp3" Demo.stereo stereo_wf)
    as (_ & _ & _ & _ & _ & H & _).
  apply H. apply Qle_bool_iff. reflexivity.
Defined.

(** What pressing play leaves behind, from a stopped state with a file
    loaded and a selection of positive width. *)
Lemma play_resolved (st : State) (a : AudioFile) (now : Q) :
  isPlaying st = false -> mainAudio st = Some a ->
  start (selection st) < end_ (selection st) ->
  let c := resolved (selection st) (currentTime st) in
  togglePlayPause st now st
  = setAnimationFrameRef true
      (setCurrentTime (now - (now - c))
         (setIsPlaying true
            (setSourceNodeRef
               (Some {| src_offset := c; src_duration := end_ (selection st) - c |})
               (setStartTimeRef (now - c) st)))).
Proof.
  intros Hstop Ha Hsel c.
  pose proof (resolved_range (selection st) (currentTime st) Hsel) as [Hlo Hhi].
  fold c in Hlo, Hhi.
  unfold togglePlayPause, playAudio. rewrite Hstop, Ha.
  fold (resolved (selection st) (currentTime st)). fold c.
  assert (E : ltb c (start (selection st)) || geb c (end_ (selection st)) = false).
  { apply orb_false_iff. split; [now apply ltb_false | now apply geb_false]. }
  rewrite E. unfold update.
  cbn [startTimeRef setIsPlaying setSourceNodeRef setStartTimeRef].
  assert (E3 : geb (now - (now - c)) (end_ (selection st)) = false)
    by (apply geb_false; lra).
  now rewrite E3.
Qed.

Lemma play_inside (st : State) (a : AudioFile) (now : Q) :
  isPlaying st = false -> mainAudio st = Some a ->
  start (selection st) <= currentTime st ->
  currentTime st < end_ (selection st) ->
  togglePlayPause st now st
  = setAnimationFrameRef true
      (setCurrentTime (now - (now - currentTime st))
         (setIsPlaying true
            (setSourceNodeRef
               (Some {| src_offset := currentTime st;
                        src_duration := end_ (selection st) - currentTime st |})
               (setStartTimeRef (now - currentTime st) st)))).
Proof.
  intros Hstop Ha Hlo Hhi.
  rewrite (play_resolved st a now Hstop Ha ltac:(lra)). cbv zeta.
  now rewrite (resolved_inside _ _ Hlo Hhi).
Qed.

(** X18.  Pause and resume: from a stopped state with the cursor inside
    the selection, pressing play at [now1], a frame at [now2] before the
    end, pressing pause and pressing play again: the frame moves the cursor
    by the elapsed time, the pause stops the source, cancels the frame
    loop and keeps the cursor, and the resume starts a source at the
    cursor, for the rest of the selection. *)
Theorem pause_then_resume (st : State) (a : AudioFile) (now1 now2 now3 now4 : Q) :
  isPlaying st = false -> mainAudio st = Some a ->
  start (selection st) <= currentTime st ->
  now1 <= now2 ->
  currentTime st + (now2 - now1) < end_ (selection st) ->
  let playing := togglePlayPause st now1 st in
  let ticked := update st now2 playing in
  let paused := togglePlayPause ticked now3 ticked in
  let resumed := togglePlayPause paused now4 paused in
  isPlaying ticked = true /\
  currentTime ticked == currentTime st + (now2 - now1) /\
  isPlaying paused = false /\ sourceNodeRef paused = None /\
  animationFrameRef paused = false /\
  currentTime paused = currentTime ticked /\
  pauseTimeRef paused = currentTime ticked /\
  isPlaying resumed = true /\
  sourceNodeRef resumed
  = Some {| src_offset := currentTime ticked;
            src_duration := end_ (selection st) - currentTime ticked |}.
Proof.
  intros Hstop Ha Hlo Hnow Hend playing ticked paused resumed.
  assert (Hhi : currentTime st < end_ (selection st)) by lra.
  assert (Eplay : playing = _) by (exact (play_inside st a now1 Hstop Ha Hlo Hhi)).
  assert (Etick : ticked
                  = setAnimationFrameRef true
                      (setCurrentTime (now2 - (now1 - currentTime st)) playing)).
  { assert (Hst : startTimeRef playing = now1 - currentTime st)
      by (rewrite Eplay; reflexivity).
    subst ticked. unfold update. rewrite Hst.
    assert (E : geb (now2 - (now1 - currentTime st)) (end_ (selection st)) = false)
      by (apply geb_false; lra).
    now rewrite E. }
  assert (Hticked : isPlaying ticked = true /\ mainAudio ticked = Some a /\
                    selection ticked = selection st /\
                    currentTime ticked = now2 - (now1 - currentTime st)).
  { rewrite Etick, Eplay. cbn. repeat split. exact Ha. }
  destruct Hticked as (Tp & Ta & Ts & Tc).
  assert (Epause : paused = stopAudio ticked ticked).
  { subst paused. unfold togglePlayPause. now rewrite Tp. }
  assert (Hpaused : isPlaying paused = false /\ mainAudio paused = Some a /\
                    selection paused = selection st /\
                    currentTime paused = currentTime ticked).
  { rewrite Epause. cbn. repeat split; assumption. }
  destruct Hpaused as (Pp & Pa & Ps & Pc).
  split; [exact Tp|]. split; [rewrite Tc; ring|].
  split; [exact Pp|]. split; [now rewrite Epause|]. split; [now rewrite Epause|].
  split; [exact Pc|]. split; [now rewrite Epause|].
  pose proof (play_inside paused a now4 Pp Pa
                ltac:(rewrite Ps, Pc, Tc; lra) ltac:(rewrite Ps, Pc, Tc; lra))
    as Eres.
  subst resumed. rewrite Eres. cbn. rewrite Ps, Pc. split; reflexivity.
Qed.

Lemma pause_then_resume_witness :
  isPlaying Demo.loaded = false /\ mainAudio Demo.loaded = Some Demo.song /\
  start (selection Demo.loaded) <= currentTime Demo.loaded /\
  7 <= 71 # 10 /\
  currentTime Demo.loaded + ((71 # 10) - 7) < end_ (selection Demo.loaded) /\
  isPlaying (update Demo.loaded (71 # 10) (togglePlayPause Demo.loaded 7 Demo.loaded))
  = true.
Proof.
  assert (H1 : start (selection Demo.loaded) <= currentTime Demo.loaded)
    by (apply Qle_bool_iff; reflexivity).
  assert (H2 : 7 <= 71 # 10) by (apply Qle_bool_iff; reflexivity).
  assert (H3 : currentTime Demo.loaded + ((71 # 10) - 7) < end_ (selection Demo.loaded))
    by reflexivity.
  split; [reflexivity|]. split; [reflexivity|]. split; [exact H1|].
  split; [exact H2|]. split; [exact H3|].
  destruct (pause_then_resume Demo.loaded Demo.song 7 (71 # 10) 8 9
              eq_refl eq_refl H1 H2 H3) as (H & _).
  exact H.
Defined.

(** X19.  Playback that reaches the end of the selection stops itself: the
    first frame at or past the end clears the source and the frame loop,
    puts the cursor at the start of the selection, and later frame events
    do nothing; the next press of play starts from the start of the
    selection.  [pauseTimeRef] is left at the cursor of the render that
    started the playback. *)
Theorem playback_runs_out (st : State) (a : AudioFile) (now1 now2 now3 : Q) :
  isPlaying st = false -> mainAudio st = Some a ->
  start (selection st) <= currentTime st ->
  currentTime st < end_ (selection st) ->
  end_ (selection st) <= currentTime st + (now2 - now1) ->
  let playing := togglePlayPause st now1 st in
  let stopped := update st now2 playing in
  let again := togglePlayPause stopped now3 stopped in
  isPlaying stopped = false /\ sourceNodeRef stopped = None /\
  animationFrameRef stopped = false /\
  currentTime stopped = start (selection st) /\
  pauseTimeRef stopped = currentTime st /\
  selection stopped = selection st /\
  (forall past k now, step past stopped (Tick k now) = stopped) /\
  isPlaying again = true /\
  sourceNodeRef again
  = Some {| src_offset := start (selection st);
            src_duration := end_ (selection st) - start (selection st) |}.
Proof.
  intros Hstop Ha Hlo Hhi Hend playing stopped again.
  assert (Eplay : playing = _) by (exact (play_inside st a now1 Hstop Ha Hlo Hhi)).
  assert (Hst : startTimeRef playing = now1 - currentTime st)
    by (rewrite Eplay; reflexivity).
  assert (Estop : stopped
                  = stopAudio st (setCurrentTime (start (selection st)) playing)).
  { subst stopped. unfold update. rewrite Hst.
    assert (E : geb (now2 - (now1 - currentTime st)) (end_ (selection st)) = true)
      by (apply geb_true; lra).
    now rewrite E. }
  assert (Hs : isPlaying stopped = false /\ mainAudio stopped = Some a /\
               selection stopped = selection st /\
               currentTime stopped = start (selection st) /\
               animationFrameRef stopped = false).
  { rewrite Estop, Eplay. cbn. repeat split. exact Ha. }
  destruct Hs as (Sp & Sa & Ss & Sc & Sf).
  split; [exact Sp|]. split; [now rewrite Estop|]. split; [exact Sf|].
  split; [exact Sc|]. split; [now rewrite Estop|]. split; [exact Ss|].
  split; [intros past k now; cbn [step]; now rewrite Sf|].
  pose proof (play_inside stopped a now3 Sp Sa
                ltac:(rewrite Ss, Sc; lra) ltac:(rewrite Ss, Sc; lra)) as Eagain.
  subst again. rewrite Eagain. cbn. rewrite Ss, Sc. split; reflexivity.
Qed.

Lemma playback_runs_out_witness :
  isPlaying Demo.loaded = false /\ mainAudio Demo.loaded = Some Demo.song /\
  start (selection Demo.loaded) <= currentTime Demo.loaded /\
  currentTime Demo.loaded < end_ (selection Demo.loaded) /\
  end_ (selection Demo.loaded) <= currentTime Demo.loaded + (8 - 7) /\
  isPlaying (update Demo.loaded 8 (togglePlayPause Demo.loaded 7 Demo.loaded))
  = false.
Proof.
  assert (H1 : start (selection Demo.loaded) <= currentTime Demo.loaded)
    by (apply Qle_bool_iff; reflexivity).
  assert (H2 : currentTime Demo.loaded < end_ (selection Demo.loaded)) by reflexivity.
  assert (H3 : end_ (selection Demo.loaded) <= currentTime Demo.loaded + (8 - 7))
    by (apply Qle_bool_iff; reflexivity).
  split; [reflexivity|]. split; [reflexivity|]. split; [exact H1|].
  split; [exact H2|]. split; [exact H3|].
  destruct (playback_runs_out Demo.loaded Demo.song 7 8 9
              eq_refl eq_refl H1 H2 H3) as (H & _).
  exact H.
Defined.

(** X20.  Seeking stops playback and moves the cursor and [pauseTimeRef] to
    the time sought; selection and clips are kept.  Pressing play then
    starts at the time sought when it lies inside the selection and at the
    start of the selection when it does not. *)
Theorem seek_then_play (st : State) (a : AudioFile) (t now : Q) :
  mainAudio st = Some a ->
  start (selection st) < end_ (selection st) ->
  let sought := step [] st (Seek t) in
  let playing := togglePlayPause sought now sought in
  isPlaying sought = false /\ sourceNodeRef sought = None /\
  currentTime sought = t /\ pauseTimeRef sought = t /\
  selection sought = selection st /\ clips sought = clips st /\
  isPlaying playing = true /\
  (start (selection st) <= t -> t < end_ (selection st) ->
   sourceNodeRef playing
   = Some {| src_offset := t; src_duration := end_ (selection st) - t |}) /\
  (t < start (selection st) \/ end_ (selection st) <= t ->
   sourceNodeRef playing
   = Some {| src_offset := start (selection st);
             src_duration := end_ (selection st) - start (selection st) |}).
Proof.
  intros Ha Hsel sought playing.
  assert (Hs : isPlaying sought = false /\ mainAudio sought = Some a /\
               selection sought = selection st /\ currentTime sought = t).
  { subst sought. cbn. repeat split. exact Ha. }
  destruct Hs as (Sp & Sa & Ss & Sc).
  split; [exact Sp|]. split; [reflexivity|]. split; [exact Sc|].
  split; [reflexivity|]. split; [exact Ss|]. split; [reflexivity|].
  pose proof (play_resolved sought a now Sp Sa ltac:(rewrite Ss; exact Hsel)) as E.
  cbv zeta in E. rewrite Ss, Sc in E. subst playing. rewrite E.
  split; [reflexivity|]. cbn [sourceNodeRef setAnimationFrameRef setCurrentTime
                              setIsPlaying setSourceNodeRef].
  split.
  - intros H1 H2. now rewrite (resolved_inside _ _ H1 H2).
  - intros H. now rewrite (resolved_outside _ _ H).
Qed.

Lemma seek_then_play_witness :
  mainAudio Demo.loaded = Some Demo.song /\
  start (selection Demo.loaded) < end_ (selection Demo.loaded) /\
  sourceNodeRef (togglePlayPause (step [] Demo.loaded (Seek 5)) 7
                                 (step [] Demo.loaded (Seek 5)))
  = Some {| src_offset := 0; src_duration := duration Demo.stereo - 0 |}.
Proof.
  assert (H : start (selection Demo.loaded) < end_ (selection Demo.loaded))
    by reflexivity.
  split; [reflexivity|]. split; [exact H|].
  destruct (seek_then_play Demo.loaded Demo.song 5 7 eq_refl H)
    as (_ & _ & _ & _ & _ & _ & _ & _ & Hout).
  apply Hout. right. apply Qle_bool_iff. reflexivity.
Defined.

End PlaybackMore.

Lemma deleteFrom_elem (cs : list Clip) (i : string) (c : Clip) :
  c ∈ deleteFrom cs i <-> c ∈ cs /\ id c <> i.
Proof.
  unfold deleteFrom. rewrite !list_elem_of_In, filter_In.
  split; intros [H1 H2]; (split; [exact H1|]).
  - apply negb_true_iff in H2. now apply String.eqb_neq.
  - apply negb_true_iff. now apply String.eqb_neq.
Qed.

Lemma deleteFrom_absent (cs : list Clip) (i : string) :
  (forall c, c ∈ cs -> id c <> i) -> deleteFrom cs i = cs.
Proof.
  intros H. unfold deleteFrom. induction cs as [|c cs IH]; [reflexivity|].
  cbn. destruct (String.eqb_spec (id c) i) as [E|_]; cbn.
  - exfalso. apply (H c); [apply list_elem_of_here | exact E].
  - f_equal. apply IH. intros c' Hc'. apply H. now apply list_elem_of_further.
Qed.

Lemma deleteFrom_sublist (cs : list Clip) (i : string) :
  deleteFrom cs i `sublist_of` cs.
Proof.
  unfold deleteFrom. induction cs as [|c cs IH]; [constructor|].
  cbn. destruct (negb _); [now apply sublist_skip | now apply sublist_cons].
Qed.

Lemma deleteFrom_one (cs : list Clip) (i : string) :
  NoDup (map id cs) -> i ∈ map id cs ->
  S (length (deleteFrom cs i)) = length cs.
Proof.
  induction cs as [|c cs IH]; intros Hnd Hin; [inversion Hin|].
  cbn [map] in Hnd, Hin. apply NoDup_cons in Hnd as [Hfresh Hnd].
  unfold deleteFrom in *. cbn [List.filter].
  destruct (String.eqb_spec (id c) i) as [E|E]; cbn [negb length].
  - f_equal. fold (deleteFrom cs i). rewrite deleteFrom_absent; [reflexivity|].
    intros c' Hc' E'. apply Hfresh. rewrite E, <- E'.
    apply list_elem_of_fmap. exists c'. now split.
  - f_equal. apply IH; [exact Hnd|].
    apply elem_of_cons in Hin as [Hin|Hin]; [congruence | exact Hin].
Qed.

(** X21.  [deleteClip] removes exactly the clips of the given
    identifier: a clip stays iff it was there with another identifier, the
    order of the rest is kept, the identifier is gone afterwards, deleting
    an absent identifier changes nothing, deleting twice is deleting once,
    and in a registry of distinct identifiers exactly one clip goes. *)
Theorem delete_by_identifier (cs : list Clip) (i : string) :
  (forall c, c ∈ deleteFrom cs i <-> c ∈ cs /\ id c <> i) /\
  (deleteFrom cs i `sublist_of` cs) /\
  (i ∉ map id (deleteFrom cs i)) /\
  (i ∉ map id cs -> deleteFrom cs i = cs) /\
  deleteFrom (deleteFrom cs i) i = deleteFrom cs i /\
  (NoDup (map id cs) -> i ∈ map id cs ->
   S (length (deleteFrom cs i)) = length cs) /\
  (forall (past : list State) (st : State),
      clips (step past st (Delete i)) = deleteFrom (clips st) i).
Proof.
  assert (Hgone : i ∉ map id (deleteFrom cs i)).
  { intros H. apply list_elem_of_fmap in H as (c & E & Hc).
    apply deleteFrom_elem in Hc as [_ Hne]. congruence. }
  split; [apply deleteFrom_elem|]. split; [apply deleteFrom_sublist|].
  split; [exact Hgone|]. split; [|split; [|split]].
  - intros H. apply deleteFrom_absent. intros c Hc E. apply H.
    apply list_elem_of_fmap. exists c. now split.
  - apply deleteFrom_absent. intros c Hc. now apply deleteFrom_elem in Hc as [_ ?].
  - apply deleteFrom_one.
  - reflexivity.
Qed.

Lemma delete_by_identifier_witness :
  NoDup (map id [Demo.clipA; Demo.clipB]) /\
  "17"%string ∈ map id [Demo.clipA; Demo.clipB] /\
  S (length (deleteFrom [Demo.clipA; Demo.clipB] "17")) = 2.
Proof.
  assert (H1 : NoDup (map id [Demo.clipA; Demo.clipB])).
  { cbn. apply NoDup_cons. split.
    - intros H. apply list_elem_of_singleton in H. discriminate H.
    - apply NoDup_singleton. }
  assert (H2 : "17"%string ∈ map id [Demo.clipA; Demo.clipB])
    by apply list_elem_of_here.
  split; [exact H1|]. split; [exact H2|].
  destruct (delete_by_identifier [Demo.clipA; Demo.clipB] "17")
    as (_ & _ & _ & _ & _ & H & _).
  exact (H H1 H2).
Defined.

(** X22.  Renames and deletes on a registry: a rename commutes with a
    delete and with a rename of another identifier, deletes commute, the
    last of two renames of one identifier wins, and renaming a clip that
    is deleted next makes no difference. *)
Theorem rename_delete_compose (cs : list Clip) (i j n m : string) :
  deleteFrom (renameIn cs i n) j = renameIn (deleteFrom cs j) i n /\
  renameIn (renameIn cs i n) i m = renameIn cs i m /\
  (i <> j -> renameIn (renameIn cs i n) j m = renameIn (renameIn cs j m) i n) /\
  deleteFrom (deleteFrom cs i) j = deleteFrom (deleteFrom cs j) i /\
  deleteFrom (renameIn cs i n) i = deleteFrom cs i.
Proof.
  unfold deleteFrom, renameIn. split; [|split; [|split; [|split]]].
  - induction cs as [|c cs IH]; [reflexivity|]. cbn [map List.filter].
    destruct (String.eqb (id c) i) eqn:Ei; cbn [id];
      destruct (String.eqb (id c) j); cbn [negb map]; rewrite ?Ei, IH; reflexivity.
  - rewrite map_map. apply map_ext. intros c.
    destruct (String.eqb (id c) i) eqn:Ei; cbn [id]; now rewrite Ei.
  - intros Hne. rewrite !map_map. apply map_ext. intros c.
    destruct (String.eqb_spec (id c) i) as [Ei|Ei];
      destruct (String.eqb_spec (id c) j) as [Ej|Ej]; cbn [id];
      try congruence;
      repeat match goal with
             | |- context [String.eqb ?a ?b] =>
                 destruct (String.eqb_spec a b); try congruence
             end.
  - induction cs as [|c cs IH]; [reflexivity|]. cbn [List.filter].
    destruct (String.eqb (id c) i) eqn:Ei, (String.eqb (id c) j) eqn:Ej;
      cbn [negb List.filter]; rewrite ?Ei, ?Ej; cbn [negb]; rewrite IH; reflexivity.
  - induction cs as [|c cs IH]; [reflexivity|]. cbn [map List.filter].
    destruct (String.eqb (id c) i) eqn:Ei; cbn [id]; rewrite Ei; cbn [negb];
      now rewrite IH.
Qed.

Lemma rename_delete_compose_witness :
  "17"%string <> "18"%string /\
  renameIn (renameIn [Demo.clipA; Demo.clipB] "17" "x") "18" "y" =
  renameIn (renameIn [Demo.clipA; Demo.clipB] "18" "y") "17" "x".
Proof.
  assert (H : "17"%string <> "18"%string) by discriminate.
  split; [exact H|].
  exact (proj1 (proj2 (proj2
    (rename_delete_compose [Demo.clipA; Demo.clipB] "17" "18" "x" "y"))) H).
Defined.

Lemma wf_channels b : wf_buffer b -> (0 < numberOfChannels b)%nat.
Proof. now intros (_ & _ & H & _). Qed.

(** What [handleCut] does once a file is loaded. *)
Lemma handleCut_closed (cl st : State) (iso : string) (now : Z) (audio : AudioFile) :
  mainAudio cl = Some audio ->
  (0 < numberOfChannels (file_buffer audio))%nat ->
  exists w,
    bufferToWav (sliceResult (file_buffer audio)
                             (start (selection cl)) (end_ (selection cl))) = Ok w /\
    let newName := (beforeDot (file_name audio) ++ "_cut_"
                    ++ colonsToDashes (substring 11 8 iso))%string in
    let newClip :=
      {| id := toString now; name := newName;
         buffer := sliceResult (file_buffer audio)
                     (start (selection cl)) (end_ (selection cl));
         blob := Some w |} in
    handleCut cl iso now st =
    Ok (setClips (clips st ++ [newClip])
          (addDownload ((newName ++ ".wav")%string, w) st)).
Proof.
  intros Ha Hnc. unfold handleCut. rewrite Ha.
  rewrite slice_closed_form by exact Hnc. cbn [bind].
  destruct (bufferToWav_ok (sliceResult (file_buffer audio)
              (start (selection cl)) (end_ (selection cl)))) as (p & Hp & _).
  eexists. split; [exact Hp|]. cbv zeta. rewrite Hp. reflexivity.
Qed.

Lemma renameIn_cached cs i n : Forall clipCached cs -> Forall clipCached (renameIn cs i n).
Proof.
  intros H. unfold renameIn. apply Forall_map. eapply Forall_impl; [exact H|].
  intros c Hc. cbn. destruct (String.eqb (id c) i); exact Hc.
Qed.

Lemma deleteFrom_cached cs i : Forall clipCached cs -> Forall clipCached (deleteFrom cs i).
Proof.
  intros H. unfold deleteFrom.
  induction H as [|c cs Hc _ IH]; [constructor|].
  cbn. destruct (negb _); [constructor; assumption | assumption].
Qed.

Lemma stopAudio_mainAudio cl st : mainAudio (stopAudio cl st) = mainAudio st.
Proof. reflexivity. Qed.

Lemma update_mainAudio cl now st : mainAudio (update cl now st) = mainAudio st.
Proof. unfold update. destruct (geb _ _); reflexivity. Qed.

Lemma togglePlayPause_mainAudio cl now st :
  mainAudio (togglePlayPause cl now st) = mainAudio st.
Proof.
  unfold togglePlayPause, playAudio.
  destruct (isPlaying cl); [reflexivity|].
  destruct (mainAudio cl); [|reflexivity].
  now rewrite update_mainAudio.
Qed.

Lemma handleJoin_mainAudio cl now st st' :
  handleJoin cl now st = Ok st' -> mainAudio st' = mainAudio st.
Proof.
  unfold handleJoin. destruct (_ <? _)%nat; [now intros [= <-]|].
  destruct (joinAudioBuffers _); [|discriminate]. cbn [bind].
  destruct (bufferToWav _); [|discriminate]. cbn [bind].
  now intros [= <-].
Qed.

(** One event keeps every state of the history well formed and cached. *)
Lemma step_cached (past : list State) (st : State) (e : Event) :
  Forall wf_buffer (loadedBuffers [e]) ->
  Forall stateCached (past ++ [st]) ->
  stateCached (step past st e).
Proof.
  intros Hload Hall.
  assert (Hst : stateCached st).
  { rewrite Forall_forall in Hall. apply Hall, elem_of_app. right. apply list_elem_of_here. }
  assert (Hcl : forall k, stateCached (closure past st k)).
  { intros k. rewrite Forall_forall in Hall. apply Hall, closure_in_history. }
  destruct Hst as [Hmain Hclips].
  destruct e; cbn [step].
  - (* FileLoaded *)
    split.
    + unfold fileLoaded. rewrite stopAudio_mainAudio. cbn. intros audio [= <-]. cbn.
      cbn in Hload. now apply Forall_inv in Hload.
    + rewrite fileLoaded_clips. exact Hclips.
  - split; [cbn; discriminate | exact Hclips].
  - split; assumption.
  - split; assumption.
  - split; [rewrite togglePlayPause_mainAudio | rewrite togglePlayPause_clips]; assumption.
  - destruct (animationFrameRef st); [|split; assumption].
    split; [rewrite update_mainAudio | rewrite update_clips]; assumption.
  - split; assumption.
  - (* Cut *)
    destruct (mainAudio st) as [audio|] eqn:Ea.
    + pose proof (Hmain audio eq_refl) as Hwf.
      destruct (handleCut_closed st st iso now audio Ea (wf_channels _ Hwf))
        as (w & Hw & Hcut).
      cbv zeta in Hcut. rewrite Hcut. cbn [orElse]. split.
      * cbn. rewrite Ea. exact Hmain.
      * cbn. apply Forall_app. split; [exact Hclips|].
        constructor; [|constructor]. split; cbn.
        -- now apply sliceResult_wf.
        -- exists w. split; [exact Hw | reflexivity].
    + unfold handleCut. rewrite Ea. cbn [orElse].
      split; [intros a Ha; rewrite Ea in Ha; discriminate | exact Hclips].
  - (* Join *)
    destruct (handleJoin st now st) as [st'|] eqn:E; cbn [orElse]; [|split; assumption].
    split.
    + rewrite (handleJoin_mainAudio _ _ _ _ E). exact Hmain.
    + apply handleJoin_clips in E. rewrite E. exact Hclips.
  - split; [exact Hmain|]. cbn. now apply renameIn_cached.
  - split; [exact Hmain|]. cbn. apply renameIn_cached. apply (Hcl k).
  - split; [exact Hmain|]. cbn. now apply deleteFrom_cached.
Qed.

Lemma exec_cached (events : list Event) :
  forall (past : list State) (st : State),
    Forall wf_buffer (loadedBuffers events) ->
    Forall stateCached (past ++ [st]) ->
    stateCached (exec past st events).
Proof.
  induction events as [|e events IH]; intros past st Hload Hall.
  - cbn. rewrite Forall_forall in Hall. apply Hall, elem_of_app. right. apply list_elem_of_here.
  - cbn [exec].
    assert (Hsplit : loadedBuffers (e :: events) = loadedBuffers [e] ++ loadedBuffers events).
    { unfold loadedBuffers. now rewrite (omap_app _ [e] events). }
    rewrite Hsplit in Hload. apply Forall_app in Hload as [H1 H2].
    apply IH; [exact H2|].
    apply Forall_app. split; [exact Hall|]. constructor; [|constructor].
    now apply step_cached.
Qed.

(** X23.  In every state reached from the initial one by any trace of
    events whose decoded buffers are well formed, the loaded file's buffer
    is well formed and every clip of the registry has a well-formed buffer
    and carries, as its blob, the WAV encoding of that buffer: renames
    (also delayed ones), deletes, joins and playback never separate a clip
    from its encoding. *)
Theorem clips_stay_cached (events : list Event) :
  Forall wf_buffer (loadedBuffers events) ->
  let st := run events initialState in
  (forall audio, mainAudio st = Some audio -> wf_buffer (file_buffer audio)) /\
  forall c, c ∈ clips st ->
    wf_buffer (buffer c) /\
    exists w, bufferToWav (buffer c) = Ok w /\ blob c = Some w.
Proof.
  intros Hload st.
  assert (H : stateCached st).
  { apply exec_cached; [exact Hload|].
    constructor; [|constructor]. split; [discriminate | constructor]. }
  destruct H as [Hmain Hclips]. split; [exact Hmain|].
  intros c Hc. rewrite Forall_forall in Hclips. exact (Hclips c Hc).
Qed.

Lemma clips_stay_cached_witness :
  let events := [FileLoaded 0 "song.mp3" Demo.stereo; Cut Demo.iso 17;
                 SmartRename 2 "17" "x"] in
  Forall wf_buffer (loadedBuffers events) /\
  length (clips (run events initialState)) = 1%nat /\
  forall c, c ∈ clips (run events initialState) ->
    wf_buffer (buffer c) /\
    exists w, bufferToWav (buffer c) = Ok w /\ blob c = Some w.
Proof.
  intros events.
  assert (H : Forall wf_buffer (loadedBuffers events)).
  { cbn. constructor; [exact stereo_wf | constructor]. }
  split; [exact H|]. split; [vm_compute; reflexivity|].
  exact (proj2 (clips_stay_cached events H)).
Defined.

(** X24.  [handleJoin] does nothing with fewer than two clips; with two or
    more (well-formed) clips it never throws, triggers exactly one
    download named [Joined_Mix_<Date.now()>.wav] carrying the WAV encoding
    of the join of the clips' buffers in registry order, and changes
    nothing else. *)
Theorem join_download (cl st : State) (now : Z) :
  ((length (clips cl) < 2)%nat -> handleJoin cl now st = Ok st) /\
  ((2 <= length (clips cl))%nat ->
   Forall (fun c => wf_buffer (buffer c)) (clips cl) ->
   exists first w,
     head (clips cl) = Some first /\
     bufferToWav (joinResult (buffer first) (map buffer (clips cl))) = Ok w /\
     handleJoin cl now st =
     Ok (addDownload (("Joined_Mix_" ++ toString now ++ ".wav")%string, w) st)).
Proof.
  unfold handleJoin. split.
  - intros H. apply Nat.ltb_lt in H. now rewrite H.
  - intros H Hwf. destruct (Nat.ltb_spec (length (clips cl)) 2) as [|_]; [lia|].
    destruct (clips cl) as [|first rest]; [cbn in H; lia|].
    assert (Hwf' : Forall wf_buffer (map buffer (first :: rest)))
      by (now apply Forall_map).
    cbn [map] in *. rewrite (join_closed_form _ _ Hwf'). cbn [bind].
    destruct (bufferToWav_ok (joinResult (buffer first) (buffer first :: map buffer rest)))
      as (p & Hp & _).
    eexists first, _. split; [reflexivity|]. split; [exact Hp|].
    rewrite Hp. reflexivity.
Qed.

Lemma join_download_witness :
  exists first w,
    head [Demo.clipA; Demo.clipB] = Some first /\
    bufferToWav (joinResult (buffer first)
                   (map buffer [Demo.clipA; Demo.clipB])) = Ok w /\
    handleJoin (setClips [Demo.clipA; Demo.clipB] initialState) 5 initialState =
    Ok (addDownload (("Joined_Mix_" ++ toString 5 ++ ".wav")%string, w) initialState).
Proof.
  apply (proj2 (join_download (setClips [Demo.clipA; Demo.clipB] initialState)
                              initialState 5)).
  - cbn. lia.
  - cbn. constructor; [exact mono_wf|]. constructor; [exact stereo_wf | constructor].
Defined.

(** X25.  [handleCut] does nothing without a file; with a file (of at
    least one channel) it never throws, appends one clip holding the slice
    of the selection and triggers one download.  The download is named
    after the clip with the extension .wav and carries the clip's cached
    blob, the WAV encoding of the clip's buffer, so [handleDownload] of
    that clip later repeats the very same download. *)
Theorem cut_then_download (cl st : State) (iso : string) (now : Z) :
  (mainAudio cl = None -> handleCut cl iso now st = Ok st) /\
  forall audio,
    mainAudio cl = Some audio ->
    (0 < numberOfChannels (file_buffer audio))%nat ->
    exists st' c w,
      handleCut cl iso now st = Ok st' /\
      clips st' = clips st ++ [c] /\
      downloads st' = downloads st ++ [((name c ++ ".wav")%string, w)] /\
      buffer c = sliceResult (file_buffer audio)
                   (start (selection cl)) (end_ (selection cl)) /\
      bufferToWav (buffer c) = Ok w /\
      blob c = Some w /\
      downloads (handleDownload c st') =
      downloads st' ++ [((name c ++ ".wav")%string, w)].
Proof.
  split.
  - intros H. unfold handleCut. now rewrite H.
  - intros audio Ha Hnc.
    destruct (handleCut_closed cl st iso now audio Ha Hnc) as (w & Hw & Hcut).
    cbv zeta in Hcut. eexists _, _, w. split; [exact Hcut|].
    cbn. unfold handleDownload. cbn. repeat split; try reflexivity. exact Hw.
Qed.

Lemma cut_then_download_witness :
  exists st' c w,
    handleCut Demo.loaded Demo.iso 17 Demo.loaded = Ok st' /\
    clips st' = clips Demo.loaded ++ [c] /\
    downloads st' = downloads Demo.loaded ++ [((name c ++ ".wav")%string, w)] /\
    buffer c = sliceResult Demo.stereo
                 (start (selection Demo.loaded)) (end_ (selection Demo.loaded)) /\
    bufferToWav (buffer c) = Ok w /\
    blob c = Some w /\
    downloads (handleDownload c st') =
    downloads st' ++ [((name c ++ ".wav")%string, w)].
Proof.
  apply (proj2 (cut_then_download Demo.loaded Demo.loaded Demo.iso 17) Demo.song).
  - reflexivity.
  - cbn. lia.
Defined.

(** X26.  A delayed rename (the naming assistant's callback) created by a
    render before a cut writes back the registry of that render: the clip
    the cut appended in between is dropped. *)
Theorem stale_rename_drops_cut (past : list State) (st : State)
    (iso : string) (now : Z) (i n : string) :
  clips (exec past st [Cut iso now; SmartRename (length past) i n]) =
  renameIn (clips st) i n.
Proof.
  cbn [exec step]. unfold renameClip, closure.
  rewrite lookup_app_l by (rewrite length_app; cbn; lia).
  now rewrite list_lookup_middle.
Qed.

Lemma colonsToDashes_length s : String.length (colonsToDashes s) = String.length s.
Proof. induction s as [|c s IH]; cbn; [reflexivity | now rewrite IH]. Qed.

Lemma colonsToDashes_chars s :
  ":"%char ∉ list_ascii_of_string (colonsToDashes s).
Proof.
  induction s as [|c s IH]; cbn; [apply not_elem_of_nil|].
  apply not_elem_of_cons. split; [|exact IH].
  destruct (Ascii.eqb_spec c ":"%char); [discriminate | congruence].
Qed.

Lemma beforeDot_chars s : "."%char ∉ list_ascii_of_string (beforeDot s).
Proof.
  induction s as [|c s IH]; cbn; [apply not_elem_of_nil|].
  destruct (Ascii.eqb_spec c "."%char); cbn; [apply not_elem_of_nil|].
  apply not_elem_of_cons. split; [congruence | exact IH].
Qed.

Lemma beforeDot_prefix s : String.prefix (beforeDot s) s = true.
Proof.
  induction s as [|c s IH]; cbn; [reflexivity|].
  destruct (Ascii.eqb_spec c "."%char); cbn; [reflexivity|].
  destruct (ascii_dec c c); [exact IH | congruence].
Qed.

Lemma beforeDot_nodot s :
  "."%char ∉ list_ascii_of_string s -> beforeDot s = s.
Proof.
  induction s as [|c s IH]; cbn; [reflexivity|]. intros H.
  apply not_elem_of_cons in H as [Hc Hs].
  destruct (Ascii.eqb_spec c "."%char); [congruence|]. now rewrite IH.
Qed.

Lemma substring_length (s : string) : forall n m,
  (n + m <= String.length s)%nat -> String.length (substring n m s) = m.
Proof.
  induction s as [|c s IH]; intros n m H; cbn in H.
  - assert (n = 0 /\ m = 0)%nat as [-> ->] by lia. reflexivity.
  - destruct n as [|n]; cbn.
    + destruct m as [|m]; cbn; [reflexivity|]. f_equal. apply IH. lia.
    + apply IH. lia.
Qed.

(** X27.  The parts of a clip name: the base is the file name up to its
    first dot (a prefix without a dot, the whole name when it has none),
    and the time stamp, characters 11 to 18 of the ISO date with colons
    replaced, contains no colon and has 8 characters for an ISO date of at
    least 19. *)
Theorem cut_name_parts (fileName iso : string) :
  ("."%char ∉ list_ascii_of_string (beforeDot fileName)) /\
  String.prefix (beforeDot fileName) fileName = true /\
  ("."%char ∉ list_ascii_of_string fileName -> beforeDot fileName = fileName) /\
  (":"%char ∉ list_ascii_of_string (colonsToDashes (substring 11 8 iso))) /\
  ((19 <= String.length iso)%nat ->
   String.length (colonsToDashes (substring 11 8 iso)) = 8%nat).
Proof.
  split; [apply beforeDot_chars|]. split; [apply beforeDot_prefix|].
  split; [apply beforeDot_nodot|]. split; [apply colonsToDashes_chars|].
  intros H. rewrite colonsToDashes_length. apply substring_length. lia.
Qed.

Lemma cut_name_parts_witness :
  beforeDot "take1" = "take1"%string /\
  String.length (colonsToDashes (substring 11 8 Demo.iso)) = 8%nat.
Proof.
  destruct (cut_name_parts "take1" Demo.iso) as (_ & _ & H1 & _ & H2).
  split.
  - apply H1. cbn. intros H.
    repeat (apply elem_of_cons in H as [H|H]; [discriminate H|]).
    inversion H.
  - apply H2. cbn. lia.
Defined.

End AppMore.
